(** * Meeting-insights processing pipeline: a shallow embedding

    The development follows [backend/app/ai_processing.py],
    [backend/app/crud.py] and the routes of [backend/app/main.py].  Python
    [str] values are modelled as [string]
    (sequences of 8-bit characters; case and word classes are those of the
    7-bit ASCII range), Python lists as [list], JSON documents and the
    Python values decoded from them as the inductive type [json].  Calls to
    external services (speech model, language model, embedding model, SQL
    session, vector index, file system) go through an explicit world state
    and an environment of oracles that fixes what each call answers. *)

From Stdlib Require Import ZArith Ascii String List Lia DecimalString.
From stdpp Require Import base list sorting strings gmap.
Import ListNotations.

#[local] Set Warnings "-register-all,-clear-no-such-hyp".
Local Open Scope string_scope.
Local Open Scope nat_scope.

(** ** Python [str] primitives *)

Module Str.

Definition chars (s : string) : list ascii := list_ascii_of_string s.

Definition in_range (lo hi : nat) (c : ascii) : bool :=
  (lo <=? nat_of_ascii c) && (nat_of_ascii c <=? hi).

(** [str.isspace] on one character: TAB..CR, FS..US and the blank. *)
Definition is_space (c : ascii) : bool :=
  in_range 9 13 c || in_range 28 32 c.

(** The class [\w] of the [re] module: letters, digits and underscore. *)
Definition is_word (c : ascii) : bool :=
  in_range 48 57 c || in_range 65 90 c || in_range 97 122 c
  || (nat_of_ascii c =? 95).

Definition lower_char (c : ascii) : ascii :=
  if in_range 65 90 c then ascii_of_nat (nat_of_ascii c + 32) else c.

(** [str.lower] *)
Fixpoint lower (s : string) : string :=
  match s with
  | EmptyString => EmptyString
  | String c s' => String (lower_char c) (lower s')
  end.

Fixpoint drop_spaces (l : list ascii) : list ascii :=
  match l with
  | c :: l' => if is_space c then drop_spaces l' else l
  | [] => []
  end.

(** [str.strip] with no argument. *)
Definition strip (s : string) : string :=
  string_of_list_ascii (rev (drop_spaces (rev (drop_spaces (chars s))))).

(** Truth value of a [str]: the empty string is false. *)
Definition str_truthy (s : string) : bool :=
  match s with EmptyString => false | String _ _ => true end.

(** [str.split] with no argument: maximal runs of non-space characters.
    [cur] is the word being read, most recent character first. *)
Fixpoint split_from (cur : list ascii) (l : list ascii) : list string :=
  match l with
  | [] =>
      match cur with
      | [] => []
      | _ :: _ => [string_of_list_ascii (rev cur)]
      end
  | c :: l' =>
      if is_space c then
        match cur with
        | [] => split_from [] l'
        | _ :: _ => string_of_list_ascii (rev cur) :: split_from [] l'
        end
      else split_from (c :: cur) l'
  end.

Definition split (s : string) : list string := split_from [] (chars s).

(** [sep.join(parts)] *)
Definition join (sep : string) (parts : list string) : string :=
  String.concat sep parts.

(** [range(start, stop, step)] for a positive [step]; [fuel] bounds the
    number of elements, and [stop] of them always suffice. *)
Fixpoint range_from (fuel start stop step : nat) : list nat :=
  match fuel with
  | O => []
  | S fuel' =>
      if start <? stop then start :: range_from fuel' (start + step) stop step
      else []
  end.

Definition range (start stop step : nat) : list nat :=
  range_from stop start stop step.

(** The slice [l[i:j]]. *)
Definition slice {A} (l : list A) (i j : nat) : list A :=
  take (j - i) (drop i l).

End Str.
Import Str.

(** ** Whole-word counting: [re.findall(r'\b' + re.escape(k) + r'\b', t)] *)

Module Regex.

Definition word_at (t : list ascii) (i : nat) : bool :=
  match t !! i with
  | Some c => is_word c
  | None => false
  end.

(** [\b] holds at offset [i] when exactly one of the characters on either
    side of the offset is a word character. *)
Definition boundary (t : list ascii) (i : nat) : bool :=
  xorb (match i with O => false | S j => word_at t j end) (word_at t i).

Fixpoint starts_with (p t : list ascii) : bool :=
  match p, t with
  | [], _ => true
  | _ :: _, [] => false
  | a :: p', b :: t' => Ascii.eqb a b && starts_with p' t'
  end.

(** The escaped keyword is a literal, so the pattern matches at [i] exactly
    when the literal is read there between two boundaries. *)
Definition match_at (p t : list ascii) (i : nat) : bool :=
  boundary t i && starts_with p (drop i t) && boundary t (i + List.length p).

(** Left-to-right, non-overlapping scan of [findall]: after a match the
    search resumes at its end (one further for an empty match). *)
Fixpoint scan (fuel : nat) (p t : list ascii) (pos : nat) : nat :=
  match fuel with
  | O => O
  | S fuel' =>
      if List.length t <? pos then O
      else if match_at p t pos
           then S (scan fuel' p t (pos + Nat.max 1 (List.length p)))
           else scan fuel' p t (S pos)
  end.

Definition findall_count (p t : string) : nat :=
  scan (S (List.length (chars t))) (chars p) (chars t) 0.

End Regex.
Import Regex.

(** ** Exceptions and JSON values *)

Module Python.

(** The exception classes the code can meet.  All of them derive from
    [Exception]; [ExternalError] stands for whatever a collaborator (SQL
    session, vector index, audio decoder, speech model) raises. *)
Inductive exn :=
| RequestError
| HTTPStatusError
| JSONDecodeError
| KeyError
| AttributeError
| TypeError
| IndexError
| ValueError
| InvalidStateError
| ExternalError (what : string).

Inductive result (A : Type) :=
| Ok (a : A)
| Raise (e : exn).
Arguments Ok {A} a.
Arguments Raise {A} e.

Definition rbind {A B} (r : result A) (k : A -> result B) : result B :=
  match r with
  | Ok a => k a
  | Raise e => Raise e
  end.

Notation "'let?' x := r 'in' k" := (rbind r (fun x => k))
  (at level 10, x name, r at level 100, k at level 200).

(** A decoded JSON document, which is also the Python value it decodes to:
    [JNull] is [None], [JArr] a list, [JObj] a dict with its keys in
    insertion order.  Numbers are opaque to the code; integers stand for
    them. *)
Inductive json :=
| JNull
| JBool (b : bool)
| JNum (n : Z)
| JStr (s : string)
| JArr (items : list json)
| JObj (fields : list (string * json)).

(** [d.get(k)] on the fields of a dict. *)
Fixpoint dict_get (k : string) (fields : list (string * json)) : option json :=
  match fields with
  | [] => None
  | (k', v) :: rest => if String.eqb k k' then Some v else dict_get k rest
  end.

(** [d[k] = v]: an existing key keeps its place, a new one goes last. *)
Fixpoint dict_set (k : string) (v : json) (fields : list (string * json))
  : list (string * json) :=
  match fields with
  | [] => [(k, v)]
  | (k', v') :: rest =>
      if String.eqb k k' then (k, v) :: rest else (k', v') :: dict_set k v rest
  end.

(** [bool(x)] *)
Definition truthy (x : json) : bool :=
  match x with
  | JNull => false
  | JBool b => b
  | JNum n => negb (n =? 0)%Z
  | JStr s => str_truthy s
  | JArr [] => false
  | JArr (_ :: _) => true
  | JObj [] => false
  | JObj (_ :: _) => true
  end.

Definition is_none (x : json) : bool :=
  match x with JNull => true | _ => false end.

Definition is_str (k : string) (x : json) : bool :=
  match x with JStr s => String.eqb k s | _ => false end.

(** [p in t] on two [str]: [p] occurs somewhere in [t]. *)
Fixpoint occurs_in (p t : list ascii) : bool :=
  starts_with p t
  || match t with
     | [] => false
     | _ :: t' => occurs_in p t'
     end.

(** [k in x] for a [str] key [k]. *)
Definition contains (k : string) (x : json) : result bool :=
  match x with
  | JObj fields => Ok (bool_decide (is_Some (dict_get k fields)))
  | JArr items => Ok (existsb (is_str k) items)
  | JStr s => Ok (occurs_in (chars k) (chars s))
  | JNull | JBool _ | JNum _ => Raise TypeError
  end.

(** [x[k]] for a [str] key [k]. *)
Definition getitem (x : json) (k : string) : result json :=
  match x with
  | JObj fields =>
      match dict_get k fields with
      | Some v => Ok v
      | None => Raise KeyError
      end
  | _ => Raise TypeError
  end.

(** [x.get(k, default)]: only a dict has the method. *)
Definition get_default (x : json) (k : string) (default : json) : result json :=
  match x with
  | JObj fields =>
      match dict_get k fields with
      | Some v => Ok v
      | None => Ok default
      end
  | _ => Raise AttributeError
  end.

End Python.
Import Python.

(** ** Sorting ([list.sort]) *)

Module ListSort.

(** A stable insertion sort: [x] is placed after the entries that must come
    strictly [before] it and in front of all others, so entries that the
    order does not separate keep their relative position. *)
Fixpoint insert_by {A} (before : A -> A -> bool) (x : A) (l : list A) : list A :=
  match l with
  | [] => [x]
  | y :: l' =>
      if before y x then y :: insert_by before x l' else x :: y :: l'
  end.

Fixpoint sort_by {A} (before : A -> A -> bool) (l : list A) : list A :=
  match l with
  | [] => []
  | x :: l' => insert_by before x (sort_by before l')
  end.

End ListSort.
Import ListSort.

(** ** The world around the pipeline *)

Module World.

(** What the language-model endpoint does with one streamed POST. *)
Inductive http_stream :=
| ConnectFailed                                (* [httpx.RequestError] *)
| BadStatus                                    (* [raise_for_status()] raises *)
| Lines (ls : list string) (aborted : bool).   (* lines, then maybe a read error *)

(** What the embedding endpoint does with one POST. *)
Inductive http_reply :=
| PostFailed                                   (* [httpx.RequestError] *)
| PostBadStatus                                (* [raise_for_status()] raises *)
| PostBody (body : string).

(** The two prompt templates, identified by the values that fill them. *)
Inductive prompt :=
| InsightPrompt (transcript : string)
| AnswerPrompt (context_str query : string).

(** The answers of the collaborators:
    - [json_loads] is [json.loads], [None] when it raises [JSONDecodeError];
    - [split_audio] is [_convert_to_wav] followed by [_split_audio]: the
      WAV segments of a file, or the exception of the audio decoder;
    - [whisper] gives the texts of the speech segments found in one WAV
      segment;
    - [finish_time i] is the time at which the [i]-th task of the thread
      pool finishes;
    - [llm] and [embedder] are the two HTTP endpoints, which may answer the
      same request differently at different times;
    - [fault] says which calls to the SQL session and to the vector index
      raise, and what;
    - [distance] is the metric of the vector index. *)
Record env := Env {
  json_loads : string -> option json;
  split_audio : string -> result (list string);
  whisper : string -> result (list string);
  finish_time : nat -> nat;
  llm : nat -> prompt -> http_stream;
  embedder : nat -> string -> http_reply;
  fault : nat -> option exn;
  distance : json -> json -> nat
}.

(** A row of the [meetings] table.  The JSON columns hold the value whose
    encoding is stored. *)
Record Meeting := {
  id : Z;
  filename : string;
  status : string;
  transcript : option string;
  summary : json;
  action_items : json;
  decisions : json;
  keywords : json;
  participants : json;
  sentiment : json
}.

(** An entry of the [meeting_transcripts] collection. *)
Record entry := {
  entry_id : string;
  embedding : json;
  document : string;
  meeting_tag : Z
}.

(** What an observer of the run can see, in order. *)
Inductive event :=
| EStatus (meeting_id : Z) (label : string)    (* a status was committed *)
| ETranscribe (filepath : string)
| ELLM (p : prompt)
| EEmbed (text : string)
| EIndexAdd (ids : list string)
| EIndexQuery (where_meeting_id : Z) (n_results : nat)
| ERemove (filepath : string)
| EClose.

Record world := World {
  meetings : list Meeting;
  files : gset string;
  collection : list entry;
  tick : nat;
  log : list event
}.

(** Computations that read and change the world and may raise. *)
Definition M (A : Type) : Type := world -> result A * world.

Definition ret {A} (a : A) : M A := fun w => (Ok a, w).

Definition raise {A} (e : exn) : M A := fun w => (Raise e, w).

Definition bind {A B} (m : M A) (k : A -> M B) : M B :=
  fun w =>
    match m w with
    | (Ok a, w') => k a w'
    | (Raise e, w') => (Raise e, w')
    end.

Notation "'do' x <- m ; k" := (bind m (fun x => k))
  (at level 10, x name, m at level 100, k at level 200).
Notation "m ;; k" := (bind m (fun _ => k))
  (at level 100, k at level 200, right associativity).

Definition lift {A} (r : result A) : M A := fun w => (r, w).

(** [try: body except Exception as e: handler(e)] *)
Definition try_except {A} (body : M A) (handler : exn -> M A) : M A :=
  fun w =>
    match body w with
    | (Ok a, w') => (Ok a, w')
    | (Raise e, w') => handler e w'
    end.

(** [try: body finally: cleanup]: the cleanup always runs; an exception of
    the cleanup replaces the outcome of the body. *)
Definition try_finally {A} (body : M A) (cleanup : M unit) : M A :=
  fun w =>
    match body w with
    | (r, w') =>
        match cleanup w' with
        | (Ok _, w'') => (r, w'')
        | (Raise e, w'') => (Raise e, w'')
        end
    end.

Definition emit (e : event) : M unit :=
  fun w => (Ok tt, World (meetings w) (files w) (collection w) (tick w) (log w ++ [e])).

(** The time of a call to a collaborator; each call takes one tick. *)
Definition clock : M nat :=
  fun w => (Ok (tick w), World (meetings w) (files w) (collection w) (S (tick w)) (log w)).

(** A call to the SQL session or to the vector index, which may raise. *)
Definition external (E : env) : M unit :=
  do t <- clock;
  match fault E t with
  | Some e => raise e
  | None => ret tt
  end.

Definition rows : M (list Meeting) := fun w => (Ok (meetings w), w).

Definition set_rows (ms : list Meeting) : M unit :=
  fun w => (Ok tt, World ms (files w) (collection w) (tick w) (log w)).

Definition entries : M (list entry) := fun w => (Ok (collection w), w).

Definition set_entries (es : list entry) : M unit :=
  fun w => (Ok tt, World (meetings w) (files w) es (tick w) (log w)).

End World.
Import World.

(** ** Persistence ([MeetingCRUD]) *)

Module MeetingCRUD.

(** [db.query(Meeting).filter(Meeting.id == meeting_id).first()] *)
Definition get (ms : list Meeting) (meeting_id : Z) : option Meeting :=
  List.find (fun m => (id m =? meeting_id)%Z) ms.

(** The table after the row that [get] finds has been changed by [f]. *)
Fixpoint alter_row (f : Meeting -> Meeting) (meeting_id : Z) (ms : list Meeting)
  : list Meeting :=
  match ms with
  | [] => []
  | m :: ms' =>
      if (id m =? meeting_id)%Z then f m :: ms'
      else m :: alter_row f meeting_id ms'
  end.

Definition with_status (label : string) (m : Meeting) : Meeting :=
  {| id := id m; filename := filename m; status := label;
     transcript := transcript m; summary := summary m;
     action_items := action_items m; decisions := decisions m;
     keywords := keywords m; participants := participants m;
     sentiment := sentiment m |}.

Definition with_transcript (text : string) (m : Meeting) : Meeting :=
  {| id := id m; filename := filename m; status := status m;
     transcript := Some text; summary := summary m;
     action_items := action_items m; decisions := decisions m;
     keywords := keywords m; participants := participants m;
     sentiment := sentiment m |}.

Definition with_insights (su ai de kw pa se : json) (m : Meeting) : Meeting :=
  {| id := id m; filename := filename m; status := status m;
     transcript := transcript m; summary := su;
     action_items := ai; decisions := de;
     keywords := kw; participants := pa;
     sentiment := se |}.

(** [update_status]: a missing row is left alone.  The query and the
    commit are one call to the session, which either raises before anything
    is stored or stores the new label; [db.refresh] is a call of its own,
    made after the label is stored, and it may raise as well. *)
Definition update_status (E : env) (meeting_id : Z) (label : string)
  : M (option Meeting) :=
  external E;;
  do ms <- rows;
  match get ms meeting_id with
  | Some m =>
      set_rows (alter_row (with_status label) meeting_id ms);;
      emit (EStatus meeting_id label);;
      external E;;
      ret (Some (with_status label m))
  | None => ret None
  end.

(** [update_transcript] and [update_insights] commit and return the row
    without refreshing it. *)
Definition update_transcript (E : env) (meeting_id : Z) (text : string)
  : M (option Meeting) :=
  external E;;
  do ms <- rows;
  match get ms meeting_id with
  | Some m =>
      set_rows (alter_row (with_transcript text) meeting_id ms);;
      ret (Some (with_transcript text m))
  | None => ret None
  end.

Definition update_insights (E : env) (meeting_id : Z) (insights : json)
  : M (option Meeting) :=
  external E;;
  do ms <- rows;
  match get ms meeting_id with
  | Some m =>
      do su <- lift (get_default insights "summary" JNull);
      do ai <- lift (get_default insights "action_items" (JArr []));
      do de <- lift (get_default insights "decisions" (JArr []));
      do kw <- lift (get_default insights "keywords" (JArr []));
      do pa <- lift (get_default insights "participants" (JArr []));
      do se <- lift (get_default insights "sentiment" JNull);
      set_rows (alter_row (with_insights su ai de kw pa se) meeting_id ms);;
      ret (Some (with_insights su ai de kw pa se m))
  | None => ret None
  end.

End MeetingCRUD.
Import MeetingCRUD.

(** ** Transcription ([TranscriptionService]) *)

Module TranscriptionService.

Definition _transcribe_chunk (E : env) (chunk : string) : result string :=
  let? segments := whisper E chunk in
  Ok (join " " segments).

(** The pool's tasks finish in the order of their finishing times. *)
Definition completion_order (finish : nat -> nat) (n : nat) : list nat :=
  sort_by (fun j i => finish j <? finish i) (seq 0 n).

(** Each task that finishes stores its text in its own future; the first
    one that fails makes [gather] raise. *)
Fixpoint run_tasks (outcomes : list (result string)) (order : list nat)
  (futures : list (option string)) : result (list (option string)) :=
  match order with
  | [] => Ok futures
  | i :: order' =>
      match outcomes !! i with
      | Some (Ok text) => run_tasks outcomes order' (<[i := Some text]> futures)
      | Some (Raise e) => Raise e
      | None => run_tasks outcomes order' futures
      end
  end.

(** [fut.result()] of each future, in the order the tasks were given. *)
Fixpoint read_futures (futures : list (option string)) : result (list string) :=
  match futures with
  | [] => Ok []
  | Some text :: rest => let? texts := read_futures rest in Ok (text :: texts)
  | None :: _ => Raise InvalidStateError
  end.

(** [await asyncio.gather] over the tasks *)
Definition gather (finish : nat -> nat) (outcomes : list (result string))
  : result (list string) :=
  let n := List.length outcomes in
  let? futures := run_tasks outcomes (completion_order finish n) (replicate n None) in
  read_futures futures.

Definition transcribe_result (E : env) (filepath : string) : result string :=
  let? chunks := split_audio E filepath in
  let? results := gather (finish_time E) (map (_transcribe_chunk E) chunks) in
  Ok (join " " results).

Definition transcribe (E : env) (filepath : string) : M string :=
  emit (ETranscribe filepath);;
  lift (transcribe_result E filepath).

End TranscriptionService.
Import TranscriptionService.

(** ** Reading a streamed answer (the loop shared by [extract] and [search]) *)

Module Stream.

Fixpoint read_lines (E : env) (ls : list string) (acc : string) : result string :=
  match ls with
  | [] => Ok acc
  | line :: ls' =>
      if str_truthy (strip line) then
        match json_loads E line with
        | None => Raise JSONDecodeError
        | Some chunk =>
            let? part := get_default chunk "response" (JStr "") in
            match part with
            | JStr s => read_lines E ls' (acc ++ s)
            | _ => Raise TypeError
            end
        end
      else read_lines E ls' acc
  end.

Definition read_stream (E : env) (s : http_stream) : result string :=
  match s with
  | ConnectFailed => Raise RequestError
  | BadStatus => Raise HTTPStatusError
  | Lines ls aborted =>
      let? text := read_lines E ls "" in
      if aborted then Raise RequestError else Ok text
  end.

(** [except (httpx.RequestError, json.JSONDecodeError, KeyError)] *)
Definition caught (e : exn) : bool :=
  match e with
  | RequestError | JSONDecodeError | KeyError => true
  | _ => false
  end.

End Stream.
Import Stream.

(** ** Insight extraction ([InsightExtractor]) *)

Module InsightExtractor.

(** One entry [{"keyword": k, "count": n}] of the result. *)
Record frequency := Frequency { keyword : string; count : nat }.

(** [list.sort(key=lambda x: x['count'], reverse=True)]: larger counts
    first; the sort is stable. *)
Definition higher_count (y x : frequency) : bool := count x <? count y.

Definition sort_desc (l : list frequency) : list frequency :=
  sort_by higher_count l.

(** The loop over the keywords.  [keyword.lower()] exists on [str] only. *)
Fixpoint frequencies (keywords : list json) (transcript_lower : string)
  : result (list frequency) :=
  match keywords with
  | [] => Ok []
  | JStr k :: ks =>
      let n := findall_count (lower k) transcript_lower in
      let? rest := frequencies ks transcript_lower in
      Ok (if 0 <? n then Frequency k n :: rest else rest)
  | _ :: _ => Raise AttributeError
  end.

Definition _calculate_keyword_frequency (keywords : list json)
  (transcript : string) : result (list frequency) :=
  let? fs := frequencies keywords (lower transcript) in
  Ok (take 7 (sort_desc fs)).

Definition frequency_json (f : frequency) : json :=
  JObj [("keyword", JStr (keyword f)); ("count", JNum (Z.of_nat (count f)))].

Definition error_insights : json :=
  JObj [("summary", JStr "Error extracting insights.");
        ("action_items", JArr []);
        ("decisions", JArr []);
        ("keywords", JArr []);
        ("sentiment", JStr "Unknown")].

(** The statements after the stream has been read. *)
Definition annotate (insights : json) (transcript : string) : result json :=
  let? has := contains "keywords" insights in
  if has then
    let? kws := getitem insights "keywords" in
    match kws, insights with
    | JArr ks, JObj fields =>
        let? fs := _calculate_keyword_frequency ks transcript in
        Ok (JObj (dict_set "keywords" (JArr (map frequency_json fs)) fields))
    | _, _ => Ok insights
    end
  else Ok insights.

Definition extract_response (E : env) (transcript : string) (s : http_stream)
  : result json :=
  let? text := read_stream E s in
  match json_loads E text with
  | None => Raise JSONDecodeError
  | Some insights => annotate insights transcript
  end.

Definition extract (E : env) (transcript : string) : M json :=
  do t <- clock;
  emit (ELLM (InsightPrompt transcript));;
  match extract_response E transcript (llm E t (InsightPrompt transcript)) with
  | Ok insights => ret insights
  | Raise e => if caught e then ret error_insights else raise e
  end.

End InsightExtractor.
Import InsightExtractor.

(** ** Vector store ([VectorStoreService]) *)

Module VectorStoreService.

(** [except (httpx.RequestError, KeyError)] of [_get_embedding] *)
Definition embedding_caught (e : exn) : bool :=
  match e with
  | RequestError | KeyError => true
  | _ => false
  end.

Definition embedding_response (E : env) (r : http_reply) : result json :=
  match r with
  | PostFailed => Raise RequestError
  | PostBadStatus => Raise HTTPStatusError
  | PostBody body =>
      match json_loads E body with
      | None => Raise JSONDecodeError
      | Some doc => getitem doc "embedding"
      end
  end.

(** [_get_embedding]; the result [JNull] is Python's [None]. *)
Definition _get_embedding (E : env) (text : string) : M json :=
  do t <- clock;
  emit (EEmbed text);;
  match embedding_response E (embedder E t text) with
  | Ok v => ret v
  | Raise e => if embedding_caught e then ret JNull else raise e
  end.

(** [_chunk_text(text, chunk_size, overlap)], for [overlap < chunk_size]
    (the step of the [range] is then positive; the code only ever uses the
    default sizes). *)
Definition chunk_words (words : list string) (chunk_size overlap : nat)
  : list (list string) :=
  map (fun i => slice words i (i + chunk_size))
      (range 0 (List.length words) (chunk_size - overlap)).

Definition _chunk_text_sized (text : string) (chunk_size overlap : nat)
  : list string :=
  let words := split text in
  match words with
  | [] => []
  | _ :: _ => map (join " ") (chunk_words words chunk_size overlap)
  end.

Definition _chunk_text (text : string) : list string :=
  _chunk_text_sized text 300 50.

(** The comprehension that builds [embeddings]: the filter asks for the
    embedding of the chunk, the element asks for it again. *)
Fixpoint embed_chunks (E : env) (chunks : list string) : M (list json) :=
  match chunks with
  | [] => ret []
  | chunk :: rest =>
      do probe <- _get_embedding E chunk;
      if is_none probe then embed_chunks E rest
      else
        do e <- _get_embedding E chunk;
        do es <- embed_chunks E rest;
        ret (e :: es)
  end.

(** The comprehension that builds [valid_chunks]: [embeddings[i]] for the
    position [i] of each chunk, which raises past the end of the list. *)
Fixpoint valid_chunks_from (i : nat) (chunks : list string) (embeddings : list json)
  : result (list string) :=
  match chunks with
  | [] => Ok []
  | chunk :: rest =>
      match embeddings !! i with
      | None => Raise IndexError
      | Some e =>
          let? vs := valid_chunks_from (S i) rest embeddings in
          Ok (if is_none e then vs else chunk :: vs)
      end
  end.

Definition string_of_nat (n : nat) : string :=
  NilZero.string_of_uint (Nat.to_uint n).

Definition string_of_Z (z : Z) : string :=
  NilZero.string_of_int (Z.to_int z).

(** [f"{meeting_id}_{i}"] *)
Definition doc_id (meeting_id : Z) (i : nat) : string :=
  string_of_Z meeting_id ++ "_" ++ string_of_nat i.

Definition has_id (es : list entry) (i : string) : bool :=
  existsb (fun e => String.eqb (entry_id e) i) es.

(** The entries of one [add], position by position. *)
Fixpoint zip_entries (ids : list string) (embeddings : list json)
  (documents : list string) (metadatas : list Z) : list entry :=
  match ids, embeddings, documents, metadatas with
  | i :: ids', e :: embeddings', d :: documents', m :: metadatas' =>
      {| entry_id := i; embedding := e; document := d; meeting_tag := m |}
        :: zip_entries ids' embeddings' documents' metadatas'
  | _, _, _, _ => []
  end.

(** [collection.add]: the four lists must have one length; an identifier
    that is already stored is left as it is. *)
Definition collection_add (E : env) (embeddings : list json)
  (documents : list string) (metadatas : list Z) (ids : list string) : M unit :=
  emit (EIndexAdd ids);;
  external E;;
  if (List.length embeddings =? List.length ids)
     && (List.length documents =? List.length ids)
     && (List.length metadatas =? List.length ids)
  then
    do es <- entries;
    set_entries
      (es ++ List.filter (fun e => negb (has_id es (entry_id e)))
                         (zip_entries ids embeddings documents metadatas))
  else raise ValueError.

(** What [collection.query] with [where={"meeting_id": m}] selects: the
    entries tagged [m], nearest first, at most [n_results] of them. *)
Definition nearest (E : env) (query_embedding : json) (n_results : nat)
  (where_meeting_id : Z) (es : list entry) : list entry :=
  take n_results
    (sort_by (fun y x => distance E query_embedding (embedding y)
                         <? distance E query_embedding (embedding x))
       (List.filter (fun e => (meeting_tag e =? where_meeting_id)%Z) es)).

Definition collection_query (E : env) (query_embedding : json) (n_results : nat)
  (where_meeting_id : Z) : M (list entry) :=
  emit (EIndexQuery where_meeting_id n_results);;
  external E;;
  do es <- entries;
  ret (nearest E query_embedding n_results where_meeting_id es).

Definition add_transcript (E : env) (meeting_id : Z) (transcript : string) : M unit :=
  let chunks := _chunk_text transcript in
  match chunks with
  | [] => ret tt
  | _ :: _ =>
      do embeddings <- embed_chunks E chunks;
      match embeddings with
      | [] => ret tt
      | _ :: _ =>
          do valid_chunks <- lift (valid_chunks_from 0 chunks embeddings);
          let doc_ids := map (doc_id meeting_id) (seq 0 (List.length valid_chunks)) in
          let metadata := map (fun _ => meeting_id) valid_chunks in
          collection_add E embeddings valid_chunks metadata doc_ids
      end
  end.

Definition newline : string := String (ascii_of_nat 10) EmptyString.

Definition no_embedding_answer : string := "Could not process your query.".

Definition no_context_answer : string :=
  "I couldn't find any information related to your query in this meeting's transcript.".

Definition generation_error_answer : string :=
  "There was an error generating an answer.".

(** The retrieval part of [search]: either the answer returned early or the
    entries whose documents make the context. *)
Definition retrieve (E : env) (meeting_id : Z) (query : string) (n_results : nat)
  : M (string + list entry) :=
  do query_embedding <- _get_embedding E query;
  if negb (truthy query_embedding) then ret (inl no_embedding_answer)
  else
    do results <- collection_query E query_embedding n_results meeting_id;
    match results with
    | [] => ret (inl no_context_answer)
    | _ :: _ => ret (inr results)
    end.

(** [context_str]: the retrieved documents, separated by blank lines. *)
Definition context_of (results : list entry) : string :=
  join (newline ++ newline) (map document results).

(** The generation part of [search]. *)
Definition generate (E : env) (results : list entry) (query : string) : M string :=
  let context_str := context_of results in
  do t <- clock;
  emit (ELLM (AnswerPrompt context_str query));;
  match read_stream E (llm E t (AnswerPrompt context_str query)) with
  | Ok full_text => ret full_text
  | Raise e => if caught e then ret generation_error_answer else raise e
  end.

Definition search_n (E : env) (meeting_id : Z) (query : string) (n_results : nat)
  : M string :=
  do r <- retrieve E meeting_id query n_results;
  match r with
  | inl answer => ret answer
  | inr results => generate E results query
  end.

Definition search (E : env) (meeting_id : Z) (query : string) : M string :=
  search_n E meeting_id query 3.

End VectorStoreService.
Import VectorStoreService.

(** ** The pipeline ([AIPipeline.run]) *)

Module AIPipeline.

(** The file system is the set of the paths that exist.  Removing a file
    that exists and closing the session are taken to succeed; so is the
    creation of the session before the [try] block.  The [print] calls are
    left out. *)

Definition path_exists (filepath : string) : M bool :=
  fun w => (Ok (bool_decide (filepath ∈ files w)), w).

Definition remove (filepath : string) : M unit :=
  emit (ERemove filepath);;
  fun w => (Ok tt, World (meetings w) (files w ∖ {[filepath]}) (collection w) (tick w) (log w)).

Definition close : M unit := emit EClose.

Definition run_body (E : env) (meeting_id : Z) (filepath : string) : M unit :=
  update_status E meeting_id "transcribing";;
  do transcript <- transcribe E filepath;
  update_transcript E meeting_id transcript;;
  update_status E meeting_id "analyzing";;
  do insights <- extract E transcript;
  update_insights E meeting_id insights;;
  add_transcript E meeting_id transcript;;
  update_status E meeting_id "completed";;
  ret tt.

Definition run_cleanup (filepath : string) : M unit :=
  do present <- path_exists filepath;
  (if present then remove filepath else ret tt);;
  close.

Definition run (E : env) (meeting_id : Z) (filepath : string) : M unit :=
  try_finally
    (try_except (run_body E meeting_id filepath)
       (fun _ => update_status E meeting_id "failed";; ret tt))
    (run_cleanup filepath).

End AIPipeline.
Import AIPipeline.

(** ** Reference notions used to state the properties *)

Module Notions.

(** The number of whole-word, case-insensitive occurrences of [k] in [t]. *)
Definition whole_word_count (k t : string) : nat :=
  findall_count (lower k) (lower t).

(** The keywords of [K] that occur in [T], each with its count, in the
    order of [K]. *)
Definition occurring_keywords (K : list string) (T : string) : list frequency :=
  List.filter (fun f => 1 <=? count f)
    (map (fun k => Frequency k (whole_word_count k T)) K).

Definition by_count_desc (a b : frequency) : Prop := count b <= count a.

Definition with_count (c : nat) (f : frequency) : bool := count f =? c.

(** A word as [str.split] produces it: not empty, no white space. *)
Definition is_token (w : string) : Prop :=
  chars w <> [] /\ Forall (fun c => is_space c = false) (chars w).

(** The chunk count that the specification gives for a text of [n] words,
    with chunk size 300 and overlap 50: the ceiling of
    [(n - 50) / (300 - 50)]. *)
Definition ceil_div (a b : Z) : Z := (- ((- a) / b))%Z.

Definition claimed_chunk_count (n : nat) : Z :=
  ceil_div (Z.of_nat n - 50) (300 - 50).

(** Texts of [n] one-letter words. *)
Definition text_of_words (n : nat) : string := join " " (replicate n "w").

(** The job state machine of the specification: the labels in their order,
    and [failed] from any label that is not final. *)
Definition spec_job_step (a b : string) : bool :=
  (String.eqb a "processing" && String.eqb b "transcribing")
  || (String.eqb a "transcribing" && String.eqb b "analyzing")
  || (String.eqb a "analyzing" && String.eqb b "completed")
  || ((String.eqb a "processing" || String.eqb a "transcribing"
       || String.eqb a "analyzing") && String.eqb b "failed").

(** The state machine that the runs follow: the one of the specification,
    and [failed] after [completed] as well, which the handler commits when
    the body raises after it has committed [completed]. *)
Definition job_step (a b : string) : bool :=
  spec_job_step a b
  || (String.eqb a "completed" && String.eqb b "failed").

(** The label under which an event of the run must happen: the speech
    model runs in [transcribing]; insight extraction and indexing run in
    [analyzing]. *)
Definition phase_label (e : event) : option string :=
  match e with
  | ETranscribe _ => Some "transcribing"
  | ELLM (InsightPrompt _) | EEmbed _ | EIndexAdd _ => Some "analyzing"
  | _ => None
  end.

(** A monitor for the events of one run on meeting [mid], started under the
    label [cur]: every committed status is a step of the state machine from
    the label before it, and every phase event happens under its label. *)
Fixpoint job_trace_ok (mid : Z) (cur : string) (evs : list event) : bool :=
  match evs with
  | [] => true
  | EStatus m l :: evs' =>
      (m =? mid)%Z && job_step cur l && job_trace_ok mid l evs'
  | e :: evs' =>
      match phase_label e with
      | Some l => String.eqb cur l
      | None => true
      end && job_trace_ok mid cur evs'
  end.

(** The label that an observer reads after the events [evs]. *)
Fixpoint last_label (cur : string) (evs : list event) : string :=
  match evs with
  | [] => cur
  | EStatus _ l :: evs' => last_label l evs'
  | _ :: evs' => last_label cur evs'
  end.

(** The labels in the order of the state machine, [failed] last. *)
Definition label_rank (l : string) : nat :=
  if String.eqb l "processing" then 0
  else if String.eqb l "transcribing" then 1
  else if String.eqb l "analyzing" then 2
  else if String.eqb l "completed" then 3
  else 4.

Definition is_remove (filepath : string) (e : event) : bool :=
  match e with
  | ERemove f => String.eqb f filepath
  | _ => false
  end.

Definition is_cleanup (e : event) : bool :=
  match e with
  | ERemove _ | EClose => true
  | _ => false
  end.

Definition is_status (e : event) : bool :=
  match e with
  | EStatus _ _ => true
  | _ => false
  end.

(** Events of the services, which commit no status and remove no file. *)
Definition service_event (e : event) : bool :=
  negb (is_status e) && negb (is_cleanup e).

Definition transcription_event (e : event) : bool :=
  match e with
  | ETranscribe _ => true
  | _ => false
  end.

Definition analysis_event (e : event) : bool :=
  match e with
  | ELLM (InsightPrompt _) | EEmbed _ | EIndexAdd _ => true
  | _ => false
  end.

Definition status_of (w : world) (meeting_id : Z) : option string :=
  status <$> get (meetings w) meeting_id.

(** An event that may happen under the label [cur] without changing it. *)
Definition event_fits (cur : string) (e : event) : bool :=
  service_event e
  && match phase_label e with
     | Some l => String.eqb cur l
     | None => true
     end.

(** What holds of the world [w] in the middle of a run on meeting [mid]
    that started in [w0] under the label [processing]: the files are those
    of [w0], and the events so far pass the monitor and end in the label
    [cur], which is the stored status. *)
Definition run_invariant (mid : Z) (w0 : world) (cur : string) (w : world) : Prop :=
  files w = files w0
  /\ status_of w mid = Some cur
  /\ exists evs, log w = (log w0 ++ evs)%list
       /\ job_trace_ok mid "processing" evs = true
       /\ last_label "processing" evs = cur
       /\ forallb (fun e => negb (is_cleanup e)) evs = true.

(** The labels that are not final. *)
Definition running (l : string) : Prop :=
  l = "processing" \/ l = "transcribing" \/ l = "analyzing".

(** The labels under which the body of a run can raise. *)
Definition not_failed (l : string) : Prop :=
  running l \/ l = "completed".

(** The labels of the job. *)
Definition job_label (l : string) : Prop :=
  l = "completed" \/ l = "failed" \/ running l.

(** The events of the [finally] block of a run that found the files [fs]. *)
Definition cleanup_events (filepath : string) (fs : gset string) : list event :=
  if bool_decide (filepath ∈ fs) then [ERemove filepath; EClose] else [EClose].

(** The labels committed by the events [evs], in order. *)
Fixpoint labels (evs : list event) : list string :=
  match evs with
  | [] => []
  | EStatus _ l :: evs' => l :: labels evs'
  | _ :: evs' => labels evs'
  end.

Definition not_cleanup (e : event) : bool := negb (is_cleanup e).

(** [ls] is a path of the job state machine that starts after [cur]. *)
Fixpoint label_path (cur : string) (ls : list string) : bool :=
  match ls with
  | [] => true
  | l :: ls' => job_step cur l && label_path l ls'
  end.

(** The sequences of labels that the specification allows a run to commit
    after [processing]: the paths of its state machine. *)
Definition spec_label_sequences : list (list string) :=
  [ [];
    ["failed"];
    ["transcribing"];
    ["transcribing"; "failed"];
    ["transcribing"; "analyzing"];
    ["transcribing"; "analyzing"; "failed"];
    ["transcribing"; "analyzing"; "completed"] ].

(** The sequences of labels that a run may commit after [processing]. *)
Definition run_label_sequences : list (list string) :=
  (spec_label_sequences
     ++ [ ["transcribing"; "analyzing"; "completed"; "failed"] ])%list.

(** The answers of the language model that cannot be turned into a
    document: the connection fails, the stream breaks after lines that
    were read, a line that is not blank is not JSON, or the text put
    together from the lines is not JSON. *)
Definition unusable_response (E : env) (s : http_stream) : Prop :=
  s = ConnectFailed
  \/ (exists ls text, s = Lines ls true /\ read_lines E ls "" = Ok text)
  \/ (exists ls aborted,
        s = Lines ls aborted /\ read_lines E ls "" = Raise JSONDecodeError)
  \/ (exists ls text,
        s = Lines ls false /\ read_lines E ls "" = Ok text
        /\ json_loads E text = None).

(** What [_get_embedding] returns for [text] when it is called at time [t]. *)
Definition embedding_of (E : env) (t : nat) (text : string) : result json :=
  match embedding_response E (embedder E t text) with
  | Ok v => Ok v
  | Raise e => if embedding_caught e then Ok JNull else Raise e
  end.

Definition embedded (v : json) : bool := negb (is_none v).

(** The entries that [add_transcript] means to store for the chunks [cs]
    of meeting [mid], given the embedding [emb] of each chunk. *)
Definition chunk_entries (mid : Z) (emb : string -> json) (cs : list string)
  : list entry :=
  zip_entries (map (doc_id mid) (seq 0 (List.length cs))) (map emb cs) cs
    (map (fun _ => mid) cs).

(** An entry of meeting [mid] as [add_transcript] names and tags it. *)
Definition tagged (mid : Z) (e : entry) : Prop :=
  meeting_tag e = mid /\ exists i, entry_id e = doc_id mid i.

(** What the events of a search for meeting [A] over the entries [store]
    may be: a query of the index filtered on [A], and a prompt whose
    context is made of documents of entries of [store] tagged [A]. *)
Definition scoped_event (A : Z) (store : list entry) (e : event) : Prop :=
  match e with
  | EIndexQuery m _ => m = A
  | ELLM (AnswerPrompt context_str _) =>
      exists results,
        context_str = context_of results
        /\ Forall (fun x => In x store /\ meeting_tag x = A) results
  | ELLM (InsightPrompt _) | EIndexAdd _ | EStatus _ _ | ERemove _ | EClose
  | ETranscribe _ => False
  | EEmbed _ => True
  end.

(** Frame conditions on computations. *)

(** [appends ok m]: [m] leaves the table and the files alone and only adds
    events of the class [ok] to the log. *)
Definition appends {A} (ok : event -> bool) (m : M A) : Prop :=
  forall w r w', m w = (r, w') ->
    meetings w' = meetings w /\ files w' = files w
    /\ exists evs, log w' = (log w ++ evs)%list /\ forallb ok evs = true.

(** [keeps_files m]: [m] leaves the files alone and adds no event of the
    [finally] block to the log. *)
Definition keeps_files {A} (m : M A) : Prop :=
  forall w r w', m w = (r, w') ->
    files w' = files w
    /\ exists evs, log w' = (log w ++ evs)%list /\ forallb not_cleanup evs = true.

(** [unchanged_index m]: [m] leaves the collection as it is. *)
Definition unchanged_index {A} (m : M A) : Prop :=
  forall w, collection (m w).2 = collection w.

End Notions.
Import Notions.

(** ** Sample collaborators *)

Module Samples.

Definition dq : string := String (ascii_of_nat 34) EmptyString.

Definition quoted (s : string) : string := dq ++ s ++ dq.

(** A quote inside a JSON string is written after a backslash. *)
Fixpoint escape (s : string) : string :=
  match s with
  | EmptyString => EmptyString
  | String c s' =>
      if Ascii.eqb c (ascii_of_nat 34) then String "\" (String c (escape s'))
      else String c (escape s')
  end.

(** The stream line [{"response": "s"}]. *)
Definition response_line (s : string) : string :=
  "{" ++ quoted "response" ++ ": " ++ quoted (escape s) ++ "}".

(** The reply [{"embedding": [1, 2]}]. *)
Definition embedding_body : string :=
  "{" ++ quoted "embedding" ++ ": [1, 2]}".

(** The document [{"keywords": "budget"}]. *)
Definition keywords_text : string :=
  "{" ++ quoted "keywords" ++ ": " ++ quoted "budget" ++ "}".

(** The document [{"keywords": ["noon", "budget", "Monday"]}]. *)
Definition keyword_list_text : string :=
  "{" ++ quoted "keywords" ++ ": [" ++ quoted "noon" ++ ", "
      ++ quoted "budget" ++ ", " ++ quoted "Monday" ++ "]}".

(** What [json.loads] gives on the few documents the samples use. *)
Definition sample_documents : list (string * json) :=
  [ ("{}", JObj []);
    ("[]", JArr []);
    (response_line "{}", JObj [("response", JStr "{}")]);
    (response_line "[]", JObj [("response", JStr "[]")]);
    (response_line "Monday.", JObj [("response", JStr "Monday.")]);
    (embedding_body, JObj [("embedding", JArr [JNum 1; JNum 2])]);
    (keywords_text, JObj [("keywords", JStr "budget")]);
    (response_line keywords_text, JObj [("response", JStr keywords_text)]);
    (keyword_list_text,
     JObj [("keywords", JArr [JStr "noon"; JStr "budget"; JStr "Monday"])]);
    (response_line keyword_list_text,
     JObj [("response", JStr keyword_list_text)]) ].

Definition sample_loads (s : string) : option json :=
  snd <$> List.find (fun kv => String.eqb s (fst kv)) sample_documents.

(** Three audio segments; the second one is transcribed first. *)
Definition sample_env : env :=
  {| json_loads := sample_loads;
     split_audio := fun _ => Ok ["wav0"; "wav1"; "wav2"];
     whisper := fun chunk =>
       if String.eqb chunk "wav0" then Ok ["we"; "meet"]
       else if String.eqb chunk "wav1" then Ok ["on monday"]
       else Ok ["at noon"];
     finish_time := fun i => match i with 0 => 5 | 1 => 1 | _ => 7 end;
     llm := fun _ p =>
       match p with
       | InsightPrompt _ => Lines [response_line "{}"] false
       | AnswerPrompt _ _ => Lines [response_line "Monday."] false
       end;
     embedder := fun _ _ => PostBody embedding_body;
     fault := fun _ => None;
     distance := fun _ _ => 0 |}.

Definition with_llm (f : nat -> prompt -> http_stream) (E : env) : env :=
  {| json_loads := json_loads E; split_audio := split_audio E;
     whisper := whisper E; finish_time := finish_time E;
     llm := f; embedder := embedder E; fault := fault E;
     distance := distance E |}.

Definition with_embedder (f : nat -> string -> http_reply) (E : env) : env :=
  {| json_loads := json_loads E; split_audio := split_audio E;
     whisper := whisper E; finish_time := finish_time E;
     llm := llm E; embedder := f; fault := fault E;
     distance := distance E |}.

Definition with_fault (f : nat -> option exn) (E : env) : env :=
  {| json_loads := json_loads E; split_audio := split_audio E;
     whisper := whisper E; finish_time := finish_time E;
     llm := llm E; embedder := embedder E; fault := f;
     distance := distance E |}.

Definition with_whisper (f : string -> result (list string)) (E : env) : env :=
  {| json_loads := json_loads E; split_audio := split_audio E;
     whisper := f; finish_time := finish_time E;
     llm := llm E; embedder := embedder E; fault := fault E;
     distance := distance E |}.

Definition sample_meeting : Meeting :=
  {| id := 1; filename := "standup.mp3"; status := "processing";
     transcript := None; summary := JNull; action_items := JNull;
     decisions := JNull; keywords := JNull; participants := JNull;
     sentiment := JNull |}.

(** The world just after the upload of [uploads/a.mp3] for meeting 1. *)
Definition sample_world : world :=
  {| meetings := [sample_meeting];
     files := {[ "uploads/a.mp3" ]};
     collection := [];
     tick := 0;
     log := [] |}.

(** The first call to the SQL session raises. *)
Definition first_call_fails (t : nat) : option exn :=
  match t with
  | O => Some (ExternalError "OperationalError")
  | S _ => None
  end.

(** The speech model fails on every segment. *)
Definition no_speech (chunk : string) : result (list string) :=
  Raise (ExternalError "RuntimeError").

(** The embedding endpoint answers every request with an error status. *)
Definition embedder_down (t : nat) (text : string) : http_reply := PostBadStatus.

(** [failed] is reached from each label that is not final: when the commit
    of [transcribing] raises, when the speech model raises, and when the
    embedding endpoint answers with an error status. *)
Definition failed_reachable : Prop :=
  labels (log (run (with_fault first_call_fails sample_env) 1 "uploads/a.mp3"
                 sample_world).2)
  = ["failed"]
  /\ labels (log (run (with_whisper no_speech sample_env) 1 "uploads/a.mp3"
                    sample_world).2)
     = ["transcribing"; "failed"]
  /\ labels (log (run (with_embedder embedder_down sample_env) 1 "uploads/a.mp3"
                    sample_world).2)
     = ["transcribing"; "analyzing"; "failed"].

(** The language model streams one line with the given document. *)
Definition llm_says (document : string) (t : nat) (p : prompt) : http_stream :=
  Lines [response_line document] false.

(** The language model streams text that is not JSON. *)
Definition llm_garbles (t : nat) (p : prompt) : http_stream :=
  Lines ["not json"] false.

(** The embedding endpoint cannot be reached. *)
Definition embedder_unreachable (t : nat) (text : string) : http_reply :=
  PostFailed.

(** The model garbles its answer, and the embedding endpoint is down or
    cannot be reached. *)
Definition garbled_env_down : env :=
  with_embedder embedder_down (with_llm llm_garbles sample_env).

Definition garbled_env_unreachable : env :=
  with_embedder embedder_unreachable (with_llm llm_garbles sample_env).

(** The embedding endpoint cannot be reached for the text [w] and answers
    for every other text. *)
Definition embedder_fails_on_w (t : nat) (text : string) : http_reply :=
  if String.eqb text "w" then PostFailed else PostBody embedding_body.

(** What the sample embedder returns: nothing for the text [w]. *)
Definition sample_embedding (text : string) : json :=
  if String.eqb text "w" then JNull else JArr [JNum 1; JNum 2].

(** The language-model endpoint answers with an error status. *)
Definition llm_down (t : nat) (p : prompt) : http_stream := BadStatus.

(** The sample world after the transcript of meeting 1 was indexed, and
    after the same text was indexed for meeting 2 as well. *)
Definition indexed_world : world :=
  (add_transcript sample_env 1 "we meet on monday at noon" sample_world).2.

Definition two_meetings_world : world :=
  (add_transcript sample_env 2 "we meet on monday at noon" indexed_world).2.

Definition sample_entry (mid : Z) : entry :=
  {| entry_id := doc_id mid 0; embedding := JArr [JNum 1; JNum 2];
     document := "we meet on monday at noon"; meeting_tag := mid |}.

(** The session raises at its call number [n], and at no other call. *)
Definition session_fails_at (n : nat) (t : nat) : option exn :=
  if t =? n then Some (ExternalError "OperationalError") else None.

End Samples.
Import Samples.

(** ** Audio splitting ([TranscriptionService._split_audio]) *)

Module AudioSplitting.

(** The audio is the sequence of its millisecond frames: [len(audio)] is
    its duration in milliseconds and [audio[i:j]] the frames from [i] to
    [j].  The export of each segment to a WAV buffer is left out. *)
Definition _split_audio {A} (audio : list A) (chunk_length_ms : nat)
  : list (list A) :=
  map (fun i => slice audio i (i + chunk_length_ms))
      (range 0 (List.length audio) chunk_length_ms).

End AudioSplitting.
Import AudioSplitting.

(** ** The routes ([main.py]) and the creation of a row ([MeetingCRUD.create]) *)

Module Endpoints.

(** What a route gives: the body of its response, or the [HTTPException]
    that it raises. *)
Inductive reply (A : Type) :=
| Body (a : A)
| HTTPException (status_code : nat) (detail : string).
Arguments Body {A} a.
Arguments HTTPException {A} status_code detail.

(** [meeting_crud.get(db, meeting_id)], as a call to the session. *)
Definition get_row (E : env) (meeting_id : Z) : M (option Meeting) :=
  external E;;
  do ms <- rows;
  ret (get ms meeting_id).

(** [POST /search/{meeting_id}] *)
Definition search_in_meeting (E : env) (meeting_id : Z) (query : string)
  : M (reply string) :=
  do db_meeting <- get_row E meeting_id;
  match db_meeting with
  | None => ret (HTTPException 404 "Meeting not found")
  | Some m =>
      if negb (String.eqb (status m) "completed")
      then ret (HTTPException 400 "Meeting is still processing.")
      else
        do answer <- search E meeting_id query;
        ret (Body answer)
  end.

(** [s.rfind(c)] for a character [c]: the last index of [c], or -1. *)
Fixpoint rfind_from (c : ascii) (l : list ascii) (i : nat) (found : Z) : Z :=
  match l with
  | [] => found
  | x :: l' =>
      rfind_from c l' (S i) (if Ascii.eqb x c then Z.of_nat i else found)
  end.

Definition rfind (c : ascii) (p : list ascii) : Z := rfind_from c p 0 (-1)%Z.

(** The loop of [genericpath._splitext] that skips the leading dots of the
    last component: it tells whether a character other than a dot stands
    before the last dot. *)
Fixpoint skip_dots (fuel : nat) (p : list ascii) (filenameIndex dotIndex : nat)
  : bool :=
  match fuel with
  | O => false
  | S fuel' =>
      if filenameIndex <? dotIndex then
        if negb (bool_decide (slice p filenameIndex (filenameIndex + 1) = ["."%char]))
        then true
        else skip_dots fuel' p (S filenameIndex) dotIndex
      else false
  end.

(** [os.path.splitext(p)] of [posixpath]: the extension starts at the last
    dot of the last component, unless that component has only dots before
    it. *)
Definition splitext (p : string) : string * string :=
  let sepIndex := rfind "/"%char (chars p) in
  let dotIndex := rfind "."%char (chars p) in
  if (sepIndex <? dotIndex)%Z
     && skip_dots (Z.to_nat dotIndex) (chars p) (Z.to_nat (sepIndex + 1))
          (Z.to_nat dotIndex)
  then (string_of_list_ascii (take (Z.to_nat dotIndex) (chars p)),
        string_of_list_ascii (drop (Z.to_nat dotIndex) (chars p)))
  else (p, "").

Definition starts_with_sep (b : string) : bool :=
  match b with
  | String c _ => Ascii.eqb c "/"%char
  | EmptyString => false
  end.

Definition ends_with_sep (a : string) : bool :=
  match rev (chars a) with
  | c :: _ => Ascii.eqb c "/"%char
  | [] => false
  end.

(** [os.path.join(a, b)] of [posixpath] *)
Definition path_join (a b : string) : string :=
  if starts_with_sep b then b
  else if negb (str_truthy a) || ends_with_sep a then a ++ b
  else a ++ "/" ++ b.

(** The identifier that SQLite gives to a new row: one more than the
    largest identifier in use. *)
Definition next_id (ms : list Meeting) : Z :=
  (1 + fold_right Z.max 0 (map id ms))%Z.

(** [models.Meeting(filename=filename, status="processing")] once stored:
    the other columns are [NULL]. *)
Definition new_meeting (i : Z) (name : string) : Meeting :=
  {| id := i; filename := name; status := "processing";
     transcript := None; summary := JNull; action_items := JNull;
     decisions := JNull; keywords := JNull; participants := JNull;
     sentiment := JNull |}.

(** [MeetingCRUD.create]; the commit either raises before anything is
    stored or stores the row; [db.refresh] is a call of its own, made after
    the row is stored, and it may raise as well. *)
Definition create (E : env) (name : string) : M Meeting :=
  external E;;
  do ms <- rows;
  let db_meeting := new_meeting (next_id ms) name in
  set_rows (ms ++ [db_meeting]);;
  external E;;
  ret db_meeting.

(** [open(file_path, "wb")] and the write, taken to succeed. *)
Definition write_file (file_path : string) : M unit :=
  fun w => (Ok tt, World (meetings w) (files w ∪ {[file_path]}) (collection w)
                     (tick w) (log w)).

(** The path under which an upload is stored; [uuid4] is [str(uuid.uuid4())]. *)
Definition file_path (uuid4 name : string) : string :=
  path_join "uploads" (uuid4 ++ (splitext name).2).

(** What [upload_file] answers when it accepts the upload: the body of the
    response, and the arguments of the run that it adds to the background
    tasks. *)
Record accepted := Accepted {
  body : Z * string * string;
  task : Z * string
}.

(** [POST /upload]; a part without content type has [content_type = None]. *)
Definition upload_file (E : env) (uuid4 : string) (content_type : option string)
  (name : string) : M (reply accepted) :=
  match content_type with
  | None => raise AttributeError
  | Some ct =>
      if negb (starts_with (chars "audio/") (chars ct)
               || starts_with (chars "video/") (chars ct))
      then ret (HTTPException 400 "Invalid file type.")
      else
        write_file (file_path uuid4 name);;
        do meeting <- create E name;
        ret (Body {| body := (id meeting, status meeting, filename meeting);
                     task := (id meeting, file_path uuid4 name) |})
  end.

End Endpoints.
Import Endpoints.

(** ** Further notions and samples *)

Module FurtherNotions.

(** [d.get(k, default)] on the fields of a dict. *)
Definition field_or (fields : list (string * json)) (k : string) (d : json)
  : json :=
  match dict_get k fields with
  | Some v => v
  | None => d
  end.

(** The row that [update_insights] writes for the dict [fields]. *)
Definition insights_row (fields : list (string * json)) (m : Meeting) : Meeting :=
  with_insights (field_or fields "summary" JNull)
    (field_or fields "action_items" (JArr []))
    (field_or fields "decisions" (JArr []))
    (field_or fields "keywords" (JArr []))
    (field_or fields "participants" (JArr []))
    (field_or fields "sentiment" JNull) m.

(** Changes of a row that keep its identifier and its file name. *)
Definition keeps_identity (f : Meeting -> Meeting) : Prop :=
  forall m, id (f m) = id m /\ filename (f m) = filename m.

(** Changes of a row that keep its identifier and its transcript. *)
Definition keeps_transcript (f : Meeting -> Meeting) : Prop :=
  forall m, id (f m) = id m /\ transcript (f m) = transcript m.

(** [alters_row keeps mid m]: all that [m] does to the table is to change
    the row that [get] finds for [mid] by a function of the class [keeps]. *)
Definition alters_row {A} (keeps : (Meeting -> Meeting) -> Prop) (mid : Z)
  (m : M A) : Prop :=
  forall w r w', m w = (r, w') ->
    exists f, keeps f /\ meetings w' = alter_row f mid (meetings w).

(** The requests that the comprehension of [add_transcript] sends to the
    embedding endpoint for the chunks [cs], when [emb] is what the endpoint
    gives for each chunk. *)
Definition embedding_requests (emb : string -> json) (cs : list string)
  : list event :=
  flat_map (fun c => if embedded (emb c) then [EEmbed c; EEmbed c]
                     else [EEmbed c]) cs.

(** What one line of a streamed answer adds to the text when it can be
    read: nothing for a blank line; for a line that decodes to a dict, the
    text under [response], and nothing when the key is missing. *)
Definition line_part (E : env) (line part : string) : Prop :=
  if str_truthy (strip line)
  then exists fields, json_loads E line = Some (JObj fields)
                      /\ field_or fields "response" (JStr "") = JStr part
  else part = "".

(** The world after one call to a collaborator that changed nothing. *)
Definition after_call (w : world) : world :=
  World (meetings w) (files w) (collection w) (S (tick w)) (log w).

(** [extends_index mid m]: all that [m] does to the index is to add
    entries named and tagged for [mid] after the entries that are there. *)
Definition extends_index {A} (mid : Z) (m : M A) : Prop :=
  forall w r w', m w = (r, w') ->
    exists new, collection w' = (collection w ++ new)%list
                /\ Forall (tagged mid) new.

(** [silent_without_row mid m]: started on a table that has no row for
    [mid], [m] leaves the table as it is and commits no status. *)
Definition silent_without_row {A} (mid : Z) (m : M A) : Prop :=
  forall w r w', get (meetings w) mid = None -> m w = (r, w') ->
    meetings w' = meetings w
    /\ exists evs, log w' = (log w ++ evs)%list /\ labels evs = [].

End FurtherNotions.
Import FurtherNotions.

Module FurtherSamples.

(** The speech model fails on the second segment only. *)
Definition whisper_fails_on_wav1 (chunk : string) : result (list string) :=
  if String.eqb chunk "wav1" then Raise (ExternalError "RuntimeError")
  else Ok ["we"; "meet"].

(** The document [{"keywords": ["budget", 7]}]. *)
Definition mixed_keywords_text : string :=
  "{" ++ quoted "keywords" ++ ": [" ++ quoted "budget" ++ ", 7]}".

Definition mixed_loads (s : string) : option json :=
  if String.eqb s mixed_keywords_text
  then Some (JObj [("keywords", JArr [JStr "budget"; JNum 7])])
  else if String.eqb s (response_line mixed_keywords_text)
  then Some (JObj [("response", JStr mixed_keywords_text)])
  else sample_loads s.

Definition with_loads (f : string -> option json) (E : env) : env :=
  {| json_loads := f; split_audio := split_audio E;
     whisper := whisper E; finish_time := finish_time E;
     llm := llm E; embedder := embedder E; fault := fault E;
     distance := distance E |}.

(** The language model lists a number among the keywords. *)
Definition mixed_keywords_env : env :=
  with_llm (llm_says mixed_keywords_text) (with_loads mixed_loads sample_env).

(** The speech model finds no speech in any segment. *)
Definition silence (chunk : string) : result (list string) := Ok [].

End FurtherSamples.
Import FurtherSamples.

(** * Properties *)

(** ** Sorting *)

Section SortingFacts.
Context {A : Type} (before : A -> A -> bool).

Lemma insert_by_Permutation (x : A) (l : list A) :
  Permutation (insert_by before x l) (x :: l).
Proof.
  induction l as [|y l IH]; simpl; [reflexivity|].
  destruct (before y x); [|reflexivity].
  rewrite IH. apply perm_swap.
Qed.

Lemma sort_by_Permutation (l : list A) : Permutation (sort_by before l) l.
Proof.
  induction l as [|x l IH]; simpl; [reflexivity|].
  rewrite insert_by_Permutation. by constructor.
Qed.

Lemma sort_by_length (l : list A) : List.length (sort_by before l) = List.length l.
Proof. apply Permutation_length, sort_by_Permutation. Qed.

End SortingFacts.

Lemma insert_desc_sorted (x : frequency) (l : list frequency) :
  StronglySorted by_count_desc l ->
  StronglySorted by_count_desc (insert_by higher_count x l).
Proof.
  induction 1 as [|y l Hl IH Hy]; simpl.
  - repeat constructor.
  - unfold higher_count at 1. destruct (Nat.ltb_spec (count x) (count y)) as [Hlt|Hge].
    + constructor; [exact IH|].
      rewrite (insert_by_Permutation higher_count x l).
      constructor; [unfold by_count_desc; lia | exact Hy].
    + constructor; [by constructor|].
      constructor; [exact Hge|].
      eapply Forall_impl; [exact Hy|].
      unfold by_count_desc. intros z Hz. lia.
Qed.

Lemma sort_desc_sorted (l : list frequency) :
  StronglySorted by_count_desc (sort_desc l).
Proof.
  unfold sort_desc. induction l as [|x l IH]; simpl; [constructor|].
  by apply insert_desc_sorted.
Qed.

(** Stability: among the entries of any one count, the sort changes
    nothing. *)
Lemma insert_desc_stable (c : nat) (x : frequency) (l : list frequency) :
  List.filter (with_count c) (insert_by higher_count x l)
  = List.filter (with_count c) (x :: l).
Proof.
  induction l as [|y l IH]; [reflexivity|].
  cbn [insert_by]. unfold higher_count at 1.
  destruct (Nat.ltb_spec (count x) (count y)) as [Hlt|Hge]; [|reflexivity].
  cbn [List.filter] in *. rewrite IH. unfold with_count.
  destruct (Nat.eqb_spec (count y) c), (Nat.eqb_spec (count x) c);
    try reflexivity; lia.
Qed.

Lemma sort_desc_stable (c : nat) (l : list frequency) :
  List.filter (with_count c) (sort_desc l) = List.filter (with_count c) l.
Proof.
  unfold sort_desc. induction l as [|x l IH]; [reflexivity|].
  cbn [sort_by]. rewrite insert_desc_stable. cbn [List.filter].
  by rewrite IH.
Qed.

Lemma take_sorted (n : nat) (l : list frequency) :
  StronglySorted by_count_desc l -> StronglySorted by_count_desc (take n l).
Proof.
  intros H. rewrite <- (take_drop n l) in H.
  by apply StronglySorted_app_1_l in H.
Qed.

(** ** Keyword frequencies *)

Lemma frequencies_strings (K : list string) (tl : string) :
  frequencies (map JStr K) tl
  = Ok (List.filter (fun f => 1 <=? count f)
          (map (fun k => Frequency k (findall_count (lower k) tl)) K)).
Proof.
  induction K as [|k K IH]; [reflexivity|].
  cbn [map frequencies List.filter]. rewrite IH. cbn [rbind count].
  by destruct (findall_count (lower k) tl).
Qed.

Lemma occurring_keywords_spec (K : list string) (T : string) (f : frequency) :
  In f (occurring_keywords K T)
  <-> In (keyword f) K /\ count f = whole_word_count (keyword f) T /\ 1 <= count f.
Proof.
  unfold occurring_keywords. rewrite filter_In, in_map_iff. split.
  - intros [(k & <- & Hk) Hc]. cbn [count keyword] in *.
    apply Nat.leb_le in Hc. auto.
  - intros (Hk & Hc & Hpos). split.
    + exists (keyword f). split; [|exact Hk].
      destruct f; cbn [count keyword] in *. by rewrite Hc.
    + by apply Nat.leb_le.
Qed.

(** A literal read at offset [i] puts its characters at [i], [i+1], ... *)
Lemma starts_with_lookup (p t : list ascii) (i k : nat) (c : ascii) :
  starts_with p (drop i t) = true -> p !! k = Some c -> t !! (i + k) = Some c.
Proof.
  rewrite <- (lookup_drop t i k). generalize (drop i t). clear t i.
  revert k. induction p as [|a p IH]; intros k l Hs Hk; [done|].
  destruct l as [|b l]; [done|]. cbn in Hs.
  apply andb_prop in Hs as [Hab Hs]. apply Ascii.eqb_eq in Hab as ->.
  destruct k as [|k]; [exact Hk|]. cbn in *. by apply IH.
Qed.

(** A counted occurrence of a keyword that begins (ends) with a word
    character is not preceded (followed) by a word character: occurrences
    inside a longer word do not match. *)
Lemma match_at_whole_word (p t : list ascii) (i : nat) :
  match_at p t i = true ->
  (forall c p', p = c :: p' -> is_word c = true ->
     match i with O => True | S j => word_at t j = false end)
  /\ (forall c p', p = (p' ++ [c])%list -> is_word c = true ->
        word_at t (i + List.length p) = false).
Proof.
  unfold match_at. intros H.
  apply andb_prop in H as [H Hend]. apply andb_prop in H as [Hbeg Hs].
  split.
  - intros c p' -> Hc.
    assert (t !! i = Some c) as Hi.
    { rewrite <- (Nat.add_0_r i). by eapply starts_with_lookup. }
    unfold boundary in Hbeg. unfold word_at at 2 in Hbeg.
    rewrite Hi, Hc in Hbeg. destruct i as [|j]; [done|].
    by destruct (word_at t j).
  - intros c p' -> Hc. rewrite length_app in *. cbn [List.length] in *.
    assert (t !! (i + List.length p') = Some c) as Hi.
    { eapply starts_with_lookup; [exact Hs|]. by rewrite list_lookup_middle. }
    unfold boundary in Hend.
    replace (i + (List.length p' + 1)) with (S (i + List.length p')) in * by lia.
    unfold word_at at 1 in Hend. rewrite Hi, Hc in Hend.
    by destruct (word_at t (S (i + List.length p'))).
Qed.

(** The scan never needs more fuel than [findall_count] gives it. *)
Lemma scan_fuel (p t : list ascii) (f1 f2 pos : nat) :
  S (List.length t) <= f1 + pos -> S (List.length t) <= f2 + pos ->
  scan f1 p t pos = scan f2 p t pos.
Proof.
  revert f2 pos. induction f1 as [|f1 IH]; intros f2 pos H1 H2.
  - destruct f2 as [|f2]; [done|]. cbn [scan].
    destruct (Nat.ltb_spec (List.length t) pos); [done|lia].
  - destruct f2 as [|f2]; cbn [scan].
    + destruct (Nat.ltb_spec (List.length t) pos); [done|lia].
    + destruct (Nat.ltb_spec (List.length t) pos); [done|].
      destruct (match_at p t pos); [f_equal|]; apply IH; lia.
Qed.

(** C1. Keyword post-processing: for keyword strings [K] and a transcript
    [T], the result is the first seven entries of a list [sorted] that holds
    exactly the keywords of [K] whose case-insensitive whole-word count in
    [T] is at least 1, each paired with that count, ordered by count
    non-increasing with entries of equal count in the order of [K]; so the
    result is sorted, has at most seven entries, and counting "art" in
    "start the art project" gives 1. *)
Theorem keyword_frequency_correct (K : list string) (T : string) :
  exists sorted : list frequency,
    _calculate_keyword_frequency (map JStr K) T = Ok (take 7 sorted)
    /\ Permutation sorted (occurring_keywords K T)
    /\ (forall f, In f sorted
          <-> In (keyword f) K /\ count f = whole_word_count (keyword f) T
              /\ 1 <= count f)
    /\ StronglySorted by_count_desc sorted
    /\ (forall c, List.filter (with_count c) sorted
                  = List.filter (with_count c) (occurring_keywords K T))
    /\ StronglySorted by_count_desc (take 7 sorted)
    /\ List.length (take 7 sorted) <= 7
    /\ whole_word_count "art" "start the art project" = 1.
Proof.
  exists (sort_desc (occurring_keywords K T)).
  assert (Permutation (sort_desc (occurring_keywords K T)) (occurring_keywords K T))
    as Hperm by apply sort_by_Permutation.
  split_and!.
  - unfold _calculate_keyword_frequency. by rewrite frequencies_strings.
  - exact Hperm.
  - intros f. rewrite <- occurring_keywords_spec. split.
    + apply (Permutation_in _ Hperm).
    + apply (Permutation_in _ (Permutation_sym Hperm)).
  - apply sort_desc_sorted.
  - intros c. apply sort_desc_stable.
  - apply take_sorted, sort_desc_sorted.
  - rewrite length_take. lia.
  - reflexivity.
Qed.

(** Keywords in both cases, one inside a longer word only, one absent. *)
Lemma keyword_frequency_correct_witness :
  _calculate_keyword_frequency (map JStr ["plan"; "art"; "star"; "budget"; "The"])
    "Start the art project: the ART plan"
  = Ok [Frequency "art" 2; Frequency "The" 2; Frequency "plan" 1]
  /\ exists sorted,
       _calculate_keyword_frequency
         (map JStr ["plan"; "art"; "star"; "budget"; "The"])
         "Start the art project: the ART plan"
       = Ok (take 7 sorted)
       /\ Permutation sorted
            (occurring_keywords ["plan"; "art"; "star"; "budget"; "The"]
               "Start the art project: the ART plan").
Proof.
  split; [vm_compute; reflexivity|].
  destruct (keyword_frequency_correct ["plan"; "art"; "star"; "budget"; "The"]
              "Start the art project: the ART plan") as (sorted & H1 & H2 & _).
  exists sorted. by split.
Defined.

(** Eight keywords that all occur: the seven with the highest counts are
    kept, in the order of the input where counts are equal. *)
Example keyword_frequency_top_seven :
  _calculate_keyword_frequency
    (map JStr ["a"; "b"; "c"; "d"; "e"; "f"; "g"; "h"]) "a b c d e f g h h b"
  = Ok [Frequency "b" 2; Frequency "h" 2; Frequency "a" 1; Frequency "c" 1;
        Frequency "d" 1; Frequency "e" 1; Frequency "f" 1].
Proof. vm_compute. reflexivity. Qed.

(** ** The chunker *)

Lemma range_from_lookup (fuel start stop step k : nat) :
  0 < step -> stop <= fuel + start ->
  range_from fuel start stop step !! k
  = if start + k * step <? stop then Some (start + k * step) else None.
Proof.
  intros Hstep. revert start k.
  induction fuel as [|fuel IH]; intros start k Hfuel; cbn [range_from].
  - destruct (Nat.ltb_spec (start + k * step) stop); [lia|done].
  - destruct (Nat.ltb_spec start stop) as [Hlt|Hge].
    + destruct k as [|k]; cbn [lookup list_lookup].
      * rewrite Nat.add_0_r. by destruct (Nat.ltb_spec start stop); [|lia].
      * rewrite IH by lia.
        replace (start + step + k * step) with (start + S k * step) by lia.
        done.
    + destruct (Nat.ltb_spec (start + k * step) stop); [lia|done].
Qed.

Lemma range_lookup (n step k : nat) :
  0 < step ->
  range 0 n step !! k = if k * step <? n then Some (k * step) else None.
Proof.
  intros Hstep. unfold range. rewrite range_from_lookup by lia. done.
Qed.

Lemma range_length (n step : nat) :
  0 < step -> List.length (range 0 n step) = (n + step - 1) / step.
Proof.
  intros Hstep. set (L := List.length (range 0 n step)).
  assert (n <= L * step) as Hup.
  { pose proof (lookup_ge_None_2 (range 0 n step) L (le_n _)) as H.
    rewrite range_lookup in H by done.
    by destruct (Nat.ltb_spec (L * step) n). }
  assert (L = 0 \/ (L - 1) * step < n) as Hlow.
  { destruct L as [|L'] eqn:HL; [by left|right].
    assert (L' < List.length (range 0 n step)) as Hlt by (fold L; lia).
    apply lookup_lt_is_Some_2 in Hlt as [x Hx].
    rewrite range_lookup in Hx by done.
    replace (S L' - 1) with L' by lia.
    by destruct (Nat.ltb_spec (L' * step) n). }
  apply Nat.div_unique with (r := n + step - 1 - L * step);
    destruct Hlow as [HL|Hlow]; try rewrite HL in *; nia.
Qed.

Lemma slice_from (A : Type) (l : list A) (i c : nat) :
  slice l i (i + c) = take c (drop i l).
Proof. unfold slice. f_equal. lia. Qed.

Section Chunker.
Variables chunk_size overlap : nat.
Hypothesis overlap_lt : overlap < chunk_size.
Variable words : list string.

Local Abbreviation step := (chunk_size - overlap).
Local Abbreviation chunks := (chunk_words words chunk_size overlap).

Lemma chunk_words_lookup (k : nat) :
  chunks !! k
  = if k * step <? List.length words
    then Some (take chunk_size (drop (k * step) words))
    else None.
Proof.
  unfold chunk_words. rewrite list_lookup_fmap, range_lookup by lia.
  destruct (k * step <? List.length words); [|done].
  cbn. by rewrite slice_from.
Qed.

Lemma chunk_words_length :
  List.length chunks = (List.length words + step - 1) / step.
Proof.
  unfold chunk_words. rewrite length_map. apply range_length. lia.
Qed.

Lemma chunk_words_size (k : nat) (c : list string) :
  chunks !! k = Some c -> 1 <= List.length c <= chunk_size.
Proof.
  rewrite chunk_words_lookup.
  destruct (Nat.ltb_spec (k * step) (List.length words)); [|done].
  intros [= <-]. rewrite length_take, length_drop. lia.
Qed.

(** Every word of the text is in the chunk whose number is the quotient of
    its position by the step. *)
Lemma chunk_words_cover (j : nat) (w : string) :
  words !! j = Some w ->
  exists c, chunks !! (j / step) = Some c /\ c !! (j mod step) = Some w.
Proof.
  intros Hj. pose proof (lookup_lt_Some _ _ _ Hj) as Hlt.
  assert (0 < step) as Hstep by lia.
  pose proof (Nat.div_mod_eq j step) as Hdm.
  pose proof (Nat.mod_upper_bound j step ltac:(lia)) as Hmod.
  eexists. split.
  - rewrite chunk_words_lookup.
    destruct (Nat.ltb_spec (j / step * step) (List.length words)); [done|nia].
  - rewrite lookup_take_lt by lia. rewrite lookup_drop.
    replace (j / step * step + j mod step) with j by nia. exact Hj.
Qed.

(** Two consecutive chunks share the words from the start of the second up
    to the end of the first. *)
Lemma chunk_words_shared (k : nat) (c1 c2 : list string) :
  chunks !! k = Some c1 -> chunks !! S k = Some c2 ->
  drop step c1 = take overlap c2.
Proof.
  rewrite !chunk_words_lookup.
  destruct (Nat.ltb_spec (k * step) (List.length words)); [|done].
  destruct (Nat.ltb_spec (S k * step) (List.length words)); [|done].
  intros [= <-] [= <-].
  rewrite take_take, Nat.min_l by lia.
  replace (take chunk_size (drop (k * step) words))
    with (take (step + overlap) (drop (k * step) words)) by (f_equal; lia).
  rewrite <- take_drop_commute, drop_drop.
  do 2 f_equal. lia.
Qed.

(** ... and these are exactly [overlap] words unless the second chunk is the
    last one, as long as the overlap is not longer than the step. *)
Lemma chunk_words_overlap (k : nat) (c1 c2 : list string) :
  overlap <= step ->
  chunks !! k = Some c1 -> chunks !! S k = Some c2 ->
  S (S k) < List.length chunks ->
  List.length (take overlap c2) = overlap /\ List.length c1 = chunk_size.
Proof.
  intros Hsmall H1 H2 Hlast.
  apply lookup_lt_is_Some_2 in Hlast as [c3 H3].
  rewrite chunk_words_lookup in H1, H2, H3.
  destruct (Nat.ltb_spec (k * step) (List.length words)); [|done].
  destruct (Nat.ltb_spec (S k * step) (List.length words)); [|done].
  destruct (Nat.ltb_spec (S (S k) * step) (List.length words)); [|done].
  injection H1 as <-. injection H2 as <-.
  rewrite !length_take, !length_drop. nia.
Qed.

End Chunker.

(** ** Splitting and joining words *)

Lemma chars_app (s1 s2 : string) : chars (s1 ++ s2) = (chars s1 ++ chars s2)%list.
Proof.
  unfold chars. induction s1 as [|c s1 IH]; [done|].
  unfold String.append; fold String.append. cbn. by f_equal.
Qed.

Lemma split_from_word (u cur l : list ascii) :
  Forall (fun c => is_space c = false) u ->
  split_from cur (u ++ l) = split_from (rev u ++ cur) l.
Proof.
  intros Hu. revert cur. induction Hu as [|c u Hc Hu IH]; intros cur; [done|].
  cbn [app split_from]. rewrite Hc, IH. cbn [rev]. by rewrite <- app_assoc.
Qed.

Lemma split_from_tokens (cur l : list ascii) :
  Forall (fun c => is_space c = false) cur ->
  Forall is_token (split_from cur l).
Proof.
  revert cur. induction l as [|c l IH]; intros cur Hcur.
  - destruct cur as [|a cur]; cbn [split_from]; [constructor|].
    repeat constructor; unfold chars;
      rewrite list_ascii_of_string_of_list_ascii.
    + cbn [rev]. by destruct (rev cur).
    + by apply Forall_rev.
  - cbn [split_from]. destruct (is_space c) eqn:Hc.
    + destruct cur as [|a cur]; [by apply IH|].
      constructor; [|by apply IH].
      split; unfold chars; rewrite list_ascii_of_string_of_list_ascii.
      * cbn [rev]. by destruct (rev cur).
      * by apply Forall_rev.
    + apply IH. by constructor.
Qed.

Lemma split_tokens (s : string) : Forall is_token (split s).
Proof. by apply split_from_tokens. Qed.

(** Splitting the words joined by single blanks gives the words back. *)
Lemma split_join (ws : list string) :
  Forall is_token ws -> split (join " " ws) = ws.
Proof.
  unfold split, join. induction 1 as [|w ws [Hne Hw] Hws IH]; [done|].
  destruct ws as [|w' ws].
  - change (String.concat " " [w]) with w.
    rewrite <- (app_nil_r (chars w)), split_from_word by done.
    cbn [split_from]. rewrite app_nil_r.
    destruct (rev (chars w)) eqn:Hr.
    + apply (f_equal (@rev _)) in Hr. by rewrite rev_involutive in Hr.
    + rewrite <- Hr, rev_involutive. unfold chars.
      by rewrite string_of_list_ascii_of_string.
  - change (String.concat " " (w :: w' :: ws))
      with (w ++ " " ++ String.concat " " (w' :: ws))%string.
    rewrite chars_app, split_from_word by done.
    rewrite chars_app. cbn [chars list_ascii_of_string app split_from].
    change (is_space " ") with true. cbv iota. rewrite app_nil_r.
    destruct (rev (chars w)) eqn:Hr.
    + apply (f_equal (@rev _)) in Hr. by rewrite rev_involutive in Hr.
    + rewrite <- Hr, rev_involutive. unfold chars at 1.
      rewrite string_of_list_ascii_of_string. f_equal. exact IH.
Qed.

Lemma chunk_words_tokens (words : list string) (chunk_size overlap : nat) :
  Forall is_token words ->
  Forall (Forall is_token) (chunk_words words chunk_size overlap).
Proof.
  intros Hw. unfold chunk_words. apply Forall_fmap, Forall_forall.
  intros i _. cbn. unfold slice. by apply Forall_take, Forall_drop.
Qed.

(** The chunks of a text, read back as words, are the slices of its words. *)
Lemma _chunk_text_words (text : string) (chunk_size overlap : nat) :
  map split (_chunk_text_sized text chunk_size overlap)
  = chunk_words (split text) chunk_size overlap.
Proof.
  unfold _chunk_text_sized.
  pose proof (chunk_words_tokens (split text) chunk_size overlap (split_tokens text)) as Ht.
  destruct (split text) as [|w ws] eqn:Hs; [done|].
  rewrite map_map. revert Ht. generalize (chunk_words (w :: ws) chunk_size overlap).
  induction 1 as [|c cs Hc Hcs IH]; [done|].
  cbn [map]. by rewrite split_join, IH.
Qed.

(** C4, as stated, fails on the count: a text of 300 words is cut into two
    chunks (words 0..299 and words 250..299) where the formula gives one,
    and a text of one word into one chunk where the formula gives none. *)
Lemma chunk_count_not_claimed :
  List.length (split (text_of_words 300)) = 300
  /\ Z.of_nat (List.length (_chunk_text (text_of_words 300))) = 2%Z
  /\ claimed_chunk_count 300 = 1%Z
  /\ Z.of_nat (List.length (_chunk_text (text_of_words 300)))
     <> claimed_chunk_count (List.length (split (text_of_words 300)))
  /\ Z.of_nat (List.length (_chunk_text "hello"))
     <> claimed_chunk_count (List.length (split "hello")).
Proof. vm_compute. split_and!; try reflexivity; discriminate. Qed.

(** C4, amended. With chunk size 300 and overlap 50 the chunker cuts the
    words of [T] into [ceil(words(T) / 250)] chunks; chunk [k] holds the
    words from position [250 * k] on, at least one and at most 300 of them;
    every word of [T] lies in a chunk; two consecutive chunks share the end
    of the first and the start of the second, and these are exactly 50 words
    when the second one is not the last chunk. *)
Theorem chunk_text_correct (T : string) :
  List.length (_chunk_text T) = (List.length (split T) + 249) / 250
  /\ (forall k c, map split (_chunk_text T) !! k = Some c ->
        c = take 300 (drop (250 * k) (split T)) /\ 1 <= List.length c <= 300)
  /\ (forall j w, split T !! j = Some w ->
        exists c, map split (_chunk_text T) !! (j / 250) = Some c
                  /\ c !! (j mod 250) = Some w)
  /\ (forall k c1 c2,
        map split (_chunk_text T) !! k = Some c1 ->
        map split (_chunk_text T) !! S k = Some c2 ->
        drop 250 c1 = take 50 c2
        /\ (S (S k) < List.length (_chunk_text T) ->
            List.length (take 50 c2) = 50 /\ List.length c1 = 300)).
Proof.
  assert (List.length (_chunk_text T)
          = List.length (chunk_words (split T) 300 50)) as Hlen.
  { rewrite <- (_chunk_text_words T 300 50). by rewrite length_map. }
  unfold _chunk_text in *. rewrite _chunk_text_words, Hlen.
  split_and!.
  - rewrite chunk_words_length by lia. f_equal; lia.
  - intros k c Hk.
    split; [|exact (chunk_words_size 300 50 ltac:(lia) (split T) k c Hk)].
    rewrite chunk_words_lookup in Hk by lia.
    destruct (k * (300 - 50) <? List.length (split T)); [|done].
    injection Hk as <-. do 2 f_equal. lia.
  - intros j w Hj. by apply (chunk_words_cover 300 50 ltac:(lia)) in Hj.
  - intros k c1 c2 H1 H2. split.
    + by apply (chunk_words_shared 300 50 ltac:(lia) (split T) k).
    + intros Hlast.
      by apply (chunk_words_overlap 300 50 ltac:(lia) (split T) k c1 c2 ltac:(lia)).
Qed.

(** A text of 501 words: three chunks, the first two filled and sharing
    words 250..299. *)
Lemma chunk_text_correct_witness :
  List.length (_chunk_text (text_of_words 501)) = 3
  /\ (exists c1 c2,
        map split (_chunk_text (text_of_words 501)) !! 0 = Some c1
        /\ map split (_chunk_text (text_of_words 501)) !! 1 = Some c2
        /\ c1 = take 300 (drop (250 * 0) (split (text_of_words 501)))
        /\ drop 250 c1 = take 50 c2
        /\ List.length (take 50 c2) = 50 /\ List.length c1 = 300)
  /\ (exists c, map split (_chunk_text (text_of_words 501)) !! (500 / 250) = Some c
                /\ c !! (500 mod 250) = Some "w").
Proof.
  destruct (chunk_text_correct (text_of_words 501)) as (Hn & Hk & Hj & Ho).
  split; [exact Hn|]. split.
  - eexists _, _.
    assert (map split (_chunk_text (text_of_words 501)) !! 0
            = Some (replicate 300 "w")) as H0 by (vm_compute; reflexivity).
    assert (map split (_chunk_text (text_of_words 501)) !! 1
            = Some (replicate 251 "w")) as H1 by (vm_compute; reflexivity).
    split; [exact H0|]. split; [exact H1|].
    split; [exact (proj1 (Hk 0 _ H0))|].
    destruct (Ho 0 _ _ H0 H1) as [Hshared Hfull].
    split; [exact Hshared|].
    apply Hfull. rewrite Hn. vm_compute. lia.
  - apply (Hj 500 "w"). vm_compute. reflexivity.
Defined.

(** ** Transcription order *)

Lemma completion_order_complete (finish : nat -> nat) (n i : nat) :
  i < n -> i ∈ completion_order finish n.
Proof.
  intros Hi. unfold completion_order. rewrite sort_by_Permutation.
  apply elem_of_seq. lia.
Qed.

(** When no task fails, the futures of the tasks that have finished hold
    their texts and the others are untouched. *)
Lemma run_tasks_all_ok (texts : list string) (order : list nat)
  (futures : list (option string)) :
  List.length futures = List.length texts ->
  exists futures',
    run_tasks (map Ok texts) order futures = Ok futures'
    /\ List.length futures' = List.length texts
    /\ forall i, futures' !! i
         = if decide (i ∈ order) then Some <$> texts !! i else futures !! i.
Proof.
  revert futures. induction order as [|i0 order IH]; intros futures Hlen.
  - exists futures. split_and!; [done..|]. intros i.
    destruct (decide (i ∈ [])) as [Hin|]; [|done]. by apply elem_of_nil in Hin.
  - cbn [run_tasks]. rewrite list_lookup_fmap.
    destruct (texts !! i0) as [t|] eqn:Ht; cbn [fmap option_fmap option_map].
    + destruct (IH (<[i0 := Some t]> futures)) as (futures' & Hrun & Hlen' & Hget).
      { by rewrite length_insert. }
      exists futures'. split_and!; [done..|]. intros i. rewrite Hget.
      destruct (decide (i ∈ order)) as [Hin|Hnin].
      * rewrite decide_True; [done|]. by apply list_elem_of_further.
      * destruct (decide (i = i0)) as [->|Hne].
        -- rewrite decide_True by apply list_elem_of_here.
           rewrite list_lookup_insert_eq, Ht; [done|].
           rewrite Hlen. by eapply lookup_lt_Some.
        -- rewrite list_lookup_insert_ne by done.
           rewrite decide_False; [done|].
           rewrite elem_of_cons. by intros [?|?].
    + destruct (IH futures Hlen) as (futures' & Hrun & Hlen' & Hget).
      exists futures'. split_and!; [done..|]. intros i. rewrite Hget.
      destruct (decide (i ∈ order)) as [Hin|Hnin].
      * rewrite decide_True; [done|]. by apply list_elem_of_further.
      * destruct (decide (i = i0)) as [->|Hne].
        -- rewrite decide_True by apply list_elem_of_here.
           rewrite Ht. cbn. apply lookup_ge_None_2.
           apply lookup_ge_None_1 in Ht. lia.
        -- rewrite decide_False; [done|].
           rewrite elem_of_cons. by intros [?|?].
Qed.

Lemma read_futures_done (texts : list string) :
  read_futures (map Some texts) = Ok texts.
Proof. induction texts as [|t texts IH]; cbn; [done|]. by rewrite IH. Qed.

(** Whatever the finishing times, [gather] returns the texts in the order
    in which the tasks were given. *)
Lemma gather_all_ok (finish : nat -> nat) (texts : list string) :
  gather finish (map Ok texts) = Ok texts.
Proof.
  unfold gather. rewrite length_map.
  destruct (run_tasks_all_ok texts
              (completion_order finish (List.length texts))
              (replicate (List.length texts) None))
    as (futures' & -> & Hlen & Hget).
  { by rewrite length_replicate. }
  cbn [rbind]. replace futures' with (map Some texts); [apply read_futures_done|].
  apply list_eq. intros i. rewrite Hget, list_lookup_fmap.
  destruct (decide (i ∈ _)) as [Hin|Hnin]; [done|].
  destruct (decide (i < List.length texts)) as [Hlt|Hge].
  - by apply (completion_order_complete finish) in Hlt.
  - rewrite (lookup_ge_None_2 texts) by lia. cbn.
    symmetry. apply lookup_replicate_None. lia.
Qed.

(** C5. When every segment is transcribed, the transcript is the decoded
    texts of the segments in the order of the segments, separated by single
    blanks, whatever the order in which the tasks finish. *)
Theorem transcribe_keeps_order (E : env) (filepath : string)
  (segments texts : list string) :
  split_audio E filepath = Ok segments ->
  map (_transcribe_chunk E) segments = map Ok texts ->
  transcribe_result E filepath = Ok (join " " texts)
  /\ forall finish : nat -> nat, gather finish (map Ok texts) = Ok texts.
Proof.
  intros Hsplit Htexts. split; [|intros finish; apply gather_all_ok].
  unfold transcribe_result. rewrite Hsplit. cbn [rbind].
  by rewrite Htexts, gather_all_ok.
Qed.

(** Segments S0, S1, S2 where S1 finishes first, then S0, then S2. *)
Lemma transcribe_keeps_order_witness :
  completion_order (finish_time sample_env) 3 = [1; 0; 2]
  /\ transcribe_result sample_env "uploads/a.mp3"
     = Ok "we meet on monday at noon"
  /\ forall finish : nat -> nat,
       gather finish (map Ok ["we meet"; "on monday"; "at noon"])
       = Ok ["we meet"; "on monday"; "at noon"].
Proof.
  split; [reflexivity|].
  exact (transcribe_keeps_order sample_env "uploads/a.mp3"
           ["wav0"; "wav1"; "wav2"] ["we meet"; "on monday"; "at noon"]
           eq_refl eq_refl).
Defined.

(** ** Reasoning about computations *)

Lemma bind_inv {A B} (m : M A) (k : A -> M B) (w : world) (r : result B)
  (w' : world) :
  bind m k w = (r, w') ->
  exists r1 w1, m w = (r1, w1)
    /\ match r1 with
       | Ok a => k a w1 = (r, w')
       | Raise e => r = Raise e /\ w' = w1
       end.
Proof.
  unfold bind. destruct (m w) as [[a|e] w1]; intros H.
  - by exists (Ok a), w1.
  - injection H as <- <-. by exists (Raise e), w1.
Qed.

(** [update_status], call by call: the world after the refresh is the same
    whether the refresh raises or not. *)
Lemma update_status_eq (E : env) (mid : Z) (label : string) (w : world) :
  update_status E mid label w
  = match fault E (tick w) with
    | Some e =>
        (Raise e,
         World (meetings w) (files w) (collection w) (S (tick w)) (log w))
    | None =>
        match get (meetings w) mid with
        | Some m =>
            (match fault E (S (tick w)) with
             | Some e => Raise e
             | None => Ok (Some (with_status label m))
             end,
             World (alter_row (with_status label) mid (meetings w)) (files w)
               (collection w) (S (S (tick w))) (log w ++ [EStatus mid label]))
        | None =>
            (Ok None,
             World (meetings w) (files w) (collection w) (S (tick w)) (log w))
        end
    end.
Proof.
  destruct w as [ms fs cs t l].
  cbv [update_status external bind clock rows set_rows emit ret raise].
  cbn [tick meetings files collection log].
  destruct (fault E t); cbn [tick meetings files collection log]; [done|].
  destruct (get ms mid); [|done]. cbn [tick meetings files collection log].
  by destruct (fault E (S t)).
Qed.

Section Appends.
Context (ok : event -> bool).

Lemma appends_ret {A} (a : A) : appends ok (ret a).
Proof. intros w r w' [= <- <-]. split_and!; [done..|]. exists []. by rewrite app_nil_r. Qed.

Lemma appends_raise {A} (e : exn) : appends ok (@raise A e).
Proof. intros w r w' [= <- <-]. split_and!; [done..|]. exists []. by rewrite app_nil_r. Qed.

Lemma appends_lift {A} (x : result A) : appends ok (lift x).
Proof. intros w r w' [= <- <-]. split_and!; [done..|]. exists []. by rewrite app_nil_r. Qed.

Lemma appends_clock : appends ok clock.
Proof. intros w r w' [= <- <-]. split_and!; [done..|]. exists []. by rewrite app_nil_r. Qed.

Lemma appends_entries : appends ok entries.
Proof. intros w r w' [= <- <-]. split_and!; [done..|]. exists []. by rewrite app_nil_r. Qed.

Lemma appends_set_entries (es : list entry) : appends ok (set_entries es).
Proof. intros w r w' [= <- <-]. split_and!; [done..|]. exists []. by rewrite app_nil_r. Qed.

Lemma appends_emit (e : event) : ok e = true -> appends ok (emit e).
Proof.
  intros He w r w' [= <- <-]. split_and!; [done..|]. exists [e]. cbn.
  by rewrite He.
Qed.

Lemma appends_bind {A B} (m : M A) (k : A -> M B) :
  appends ok m -> (forall a, appends ok (k a)) -> appends ok (bind m k).
Proof.
  intros Hm Hk w r w' (r1 & w1 & H1 & H2)%bind_inv.
  destruct (Hm _ _ _ H1) as (Hms & Hfs & evs1 & Hlog1 & Hok1).
  destruct r1 as [a|e].
  - destruct (Hk a _ _ _ H2) as (Hms' & Hfs' & evs2 & Hlog2 & Hok2).
    split_and!; [congruence..|]. exists (evs1 ++ evs2)%list.
    rewrite Hlog2, Hlog1, <- app_assoc, forallb_app, Hok1, Hok2. done.
  - destruct H2 as [-> ->]. split_and!; [done..|]. by exists evs1.
Qed.

Lemma appends_external (E : env) : appends ok (external E).
Proof.
  apply appends_bind; [apply appends_clock|]. intros t.
  destruct (fault E t); [apply appends_raise|apply appends_ret].
Qed.

End Appends.

Lemma appends_weaken {A} (ok ok' : event -> bool) (m : M A) :
  (forall e, ok e = true -> ok' e = true) -> appends ok m -> appends ok' m.
Proof.
  intros Hsub Hm w r w' H. destruct (Hm _ _ _ H) as (? & ? & evs & ? & Hok).
  split_and!; [done..|]. exists evs. split; [done|].
  rewrite forallb_forall in *. auto.
Qed.

(** ** What the services add to the log *)

Lemma transcribe_appends (E : env) (filepath : string) :
  appends transcription_event (transcribe E filepath).
Proof.
  apply appends_bind; [by apply appends_emit|]. intros _. apply appends_lift.
Qed.

Lemma extract_appends (E : env) (transcript : string) :
  appends analysis_event (extract E transcript).
Proof.
  apply appends_bind; [apply appends_clock|]. intros t.
  apply appends_bind; [by apply appends_emit|]. intros _.
  destruct (extract_response _ _ _) as [v|e]; [apply appends_ret|].
  destruct (caught e); [apply appends_ret|apply appends_raise].
Qed.

Lemma _get_embedding_appends (E : env) (text : string) :
  appends analysis_event (_get_embedding E text).
Proof.
  apply appends_bind; [apply appends_clock|]. intros t.
  apply appends_bind; [by apply appends_emit|]. intros _.
  destruct (embedding_response _ _) as [v|e]; [apply appends_ret|].
  destruct (embedding_caught e); [apply appends_ret|apply appends_raise].
Qed.

Lemma embed_chunks_appends (E : env) (chunks : list string) :
  appends analysis_event (embed_chunks E chunks).
Proof.
  induction chunks as [|c chunks IH]; [apply appends_ret|].
  cbn [embed_chunks].
  apply appends_bind; [apply _get_embedding_appends|]. intros probe.
  destruct (is_none probe); [exact IH|].
  apply appends_bind; [apply _get_embedding_appends|]. intros e.
  apply appends_bind; [exact IH|]. intros es. apply appends_ret.
Qed.

Lemma collection_add_appends (E : env) (embeddings : list json)
  (documents : list string) (metadatas : list Z) (ids : list string) :
  appends analysis_event (collection_add E embeddings documents metadatas ids).
Proof.
  apply appends_bind; [by apply appends_emit|]. intros _.
  apply appends_bind; [apply appends_external|]. intros _.
  destruct (_ && _); [|apply appends_raise].
  apply appends_bind; [apply appends_entries|]. intros es.
  apply appends_set_entries.
Qed.

Lemma add_transcript_appends (E : env) (meeting_id : Z) (transcript : string) :
  appends analysis_event (add_transcript E meeting_id transcript).
Proof.
  unfold add_transcript. destruct (_chunk_text transcript) as [|c cs];
    [apply appends_ret|].
  apply appends_bind; [apply embed_chunks_appends|]. intros [|e es];
    [apply appends_ret|].
  apply appends_bind; [apply appends_lift|]. intros vs.
  apply collection_add_appends.
Qed.

(** ** The monitor *)

Lemma job_trace_ok_app (mid : Z) (cur : string) (evs1 evs2 : list event) :
  job_trace_ok mid cur (evs1 ++ evs2)
  = job_trace_ok mid cur evs1 && job_trace_ok mid (last_label cur evs1) evs2.
Proof.
  revert cur. induction evs1 as [|e evs1 IH]; intros cur; [done|].
  destruct e; cbn [app job_trace_ok last_label]; rewrite IH;
    by rewrite ?andb_assoc.
Qed.

Lemma last_label_app (cur : string) (evs1 evs2 : list event) :
  last_label cur (evs1 ++ evs2) = last_label (last_label cur evs1) evs2.
Proof.
  revert cur. induction evs1 as [|e evs1 IH]; intros cur; [done|].
  destruct e; cbn [app last_label]; by rewrite IH.
Qed.

Lemma fitting_events (mid : Z) (cur : string) (evs : list event) :
  forallb (event_fits cur) evs = true ->
  job_trace_ok mid cur evs = true /\ last_label cur evs = cur
  /\ forallb (fun e => negb (is_cleanup e)) evs = true.
Proof.
  induction evs as [|e evs IH]; [done|]. cbn [forallb].
  intros [He Hevs]%andb_prop. destruct (IH Hevs) as (IH1 & IH2 & IH3).
  unfold event_fits, service_event in He.
  apply andb_prop in He as [[Hs Hc]%andb_prop Hp].
  destruct e; try discriminate; cbn [job_trace_ok last_label forallb];
    by rewrite ?Hp, ?IH1, ?IH2, ?IH3, ?Hc.
Qed.

(** ** The table *)

Lemma get_alter_row (f : Meeting -> Meeting) (mid : Z) (ms : list Meeting) :
  (forall m, id (f m) = id m) ->
  get (alter_row f mid ms) mid = f <$> get ms mid.
Proof.
  intros Hid. unfold get. induction ms as [|m ms IH]; [done|].
  cbn [alter_row List.find]. destruct (id m =? mid)%Z eqn:Hm.
  - cbn [List.find]. by rewrite Hid, Hm.
  - cbn [List.find]. by rewrite Hm.
Qed.

(** ** The invariant of a run *)

Section Run.
Variables (E : env) (mid : Z) (w0 : world).

Lemma invariant_start :
  status_of w0 mid = Some "processing" -> run_invariant mid w0 "processing" w0.
Proof.
  intros H. split_and!; [done..|]. exists []. by rewrite app_nil_r.
Qed.

Lemma invariant_appends {A} (ok : event -> bool) (m : M A) (cur : string)
  (w : world) (r : result A) (w' : world) :
  appends ok m -> (forall e, ok e = true -> event_fits cur e = true) ->
  run_invariant mid w0 cur w -> m w = (r, w') -> run_invariant mid w0 cur w'.
Proof.
  intros Hm Hok (Hf & Hs & evs & Hlog & Htr & Hlast & Hnc) Hrun.
  destruct (Hm _ _ _ Hrun) as (Hms & Hfs & evs' & Hlog' & Hevs').
  assert (forallb (event_fits cur) evs' = true) as Hfit.
  { rewrite forallb_forall in *. auto. }
  destruct (fitting_events mid cur evs' Hfit) as (F1 & F2 & F3).
  split_and!.
  - congruence.
  - unfold status_of in *. by rewrite Hms.
  - exists (evs ++ evs')%list. split_and!.
    + by rewrite Hlog', Hlog, app_assoc.
    + by rewrite job_trace_ok_app, Htr, Hlast, F1.
    + by rewrite last_label_app, Hlast, F2.
    + by rewrite forallb_app, Hnc, F3.
Qed.

Lemma invariant_update_status (cur label : string) (w : world)
  (r : result (option Meeting)) (w' : world) :
  run_invariant mid w0 cur w -> job_step cur label = true ->
  update_status E mid label w = (r, w') ->
  match r with
  | Ok _ => run_invariant mid w0 label w'
  | Raise _ => run_invariant mid w0 cur w' \/ run_invariant mid w0 label w'
  end.
Proof.
  intros (Hf & Hs & evs & Hlog & Htr & Hlast & Hnc) Hstep.
  unfold status_of in Hs. destruct w as [ms fs cs t l].
  cbv [update_status external bind clock rows set_rows emit ret raise].
  cbn [tick meetings files collection log] in *.
  destruct (fault E t) as [e|]; cbn [tick meetings files collection log].
  - intros [= <- <-]. left. split_and!; [done..|]. by exists evs.
  - destruct (get ms mid) as [m|] eqn:Hget; [|done].
    assert (run_invariant mid w0 label
              (World (alter_row (with_status label) mid ms) fs cs (S (S t))
                 (l ++ [EStatus mid label]))) as Hstored.
    { split_and!; [done|..].
      + unfold status_of. cbn [meetings]. rewrite get_alter_row by done.
        by rewrite Hget.
      + exists (evs ++ [EStatus mid label])%list. cbn [log]. split_and!.
        * by rewrite Hlog, app_assoc.
        * rewrite job_trace_ok_app, Htr, Hlast. cbn [job_trace_ok].
          by rewrite Z.eqb_refl, Hstep.
        * by rewrite last_label_app.
        * by rewrite forallb_app, Hnc. }
    cbn [tick meetings files collection log].
    destruct (fault E (S t)) as [e|]; intros [= <- <-]; [by right|done].
Qed.

Lemma invariant_update_transcript (cur text : string) (w : world)
  (r : result (option Meeting)) (w' : world) :
  run_invariant mid w0 cur w ->
  update_transcript E mid text w = (r, w') -> run_invariant mid w0 cur w'.
Proof.
  intros (Hf & Hs & evs & Hlog & Htr & Hlast & Hnc).
  unfold status_of in Hs. destruct w as [ms fs cs t l].
  cbv [update_transcript external bind clock rows set_rows emit ret raise].
  cbn [tick meetings files collection log] in *.
  destruct (fault E t) as [e|]; cbn [tick meetings files collection log].
  - intros [= <- <-]. split_and!; [done..|]. by exists evs.
  - destruct (get ms mid) as [m|] eqn:Hget; [|done].
    intros [= <- <-]. split_and!; [done| |by exists evs].
    unfold status_of. cbn [meetings]. rewrite get_alter_row by done.
    by rewrite Hget.
Qed.

Lemma invariant_update_insights (cur : string) (insights : json) (w : world)
  (r : result (option Meeting)) (w' : world) :
  run_invariant mid w0 cur w ->
  update_insights E mid insights w = (r, w') -> run_invariant mid w0 cur w'.
Proof.
  intros (Hf & Hs & evs & Hlog & Htr & Hlast & Hnc).
  unfold status_of in Hs. destruct w as [ms fs cs t l].
  cbv [update_insights external bind clock rows set_rows emit ret raise lift].
  cbn [tick meetings files collection log] in *.
  destruct (fault E t) as [e|]; cbn [tick meetings files collection log].
  - intros [= <- <-]. split_and!; [done..|]. by exists evs.
  - destruct (get ms mid) as [m|] eqn:Hget; [|done].
    assert (run_invariant mid w0 cur (World ms fs cs (S t) l)) as Hsame.
    { split_and!; [done| |by exists evs]. unfold status_of. cbn [meetings].
      by rewrite Hget. }
    destruct (get_default insights "summary" JNull); [|by intros [= <- <-]].
    destruct (get_default insights "action_items" (JArr [])); [|by intros [= <- <-]].
    destruct (get_default insights "decisions" (JArr [])); [|by intros [= <- <-]].
    destruct (get_default insights "keywords" (JArr [])); [|by intros [= <- <-]].
    destruct (get_default insights "participants" (JArr [])); [|by intros [= <- <-]].
    destruct (get_default insights "sentiment" JNull); [|by intros [= <- <-]].
    intros [= <- <-]. split_and!; [done| |by exists evs].
    unfold status_of. cbn [meetings]. rewrite get_alter_row by done.
    by rewrite Hget.
Qed.

End Run.

Lemma transcription_fits (e : event) :
  transcription_event e = true -> event_fits "transcribing" e = true.
Proof. by destruct e. Qed.

Lemma analysis_fits (e : event) :
  analysis_event e = true -> event_fits "analyzing" e = true.
Proof. destruct e as [| |[]| | | | |]; done. Qed.

Section RunBody.
Variables (E : env) (mid : Z) (filepath : string) (w0 : world).

(** The [try] block ends under [completed] when it returns; when it
    raises, the label is one that is not final, or [completed] when the
    exception came after the commit of [completed]. *)
Lemma run_body_invariant (w : world) (r : result unit) (w' : world) :
  run_invariant mid w0 "processing" w ->
  run_body E mid filepath w = (r, w') ->
  match r with
  | Ok _ => run_invariant mid w0 "completed" w'
  | Raise _ => exists cur, not_failed cur /\ run_invariant mid w0 cur w'
  end.
Proof.
  intros Hinv Hrun. unfold run_body in Hrun. unfold not_failed, running.
  apply bind_inv in Hrun as (r1 & w1 & H1 & Hrun).
  pose proof (invariant_update_status E mid w0 _ "transcribing" _ _ _
                Hinv eq_refl H1) as I1.
  destruct r1 as [v1|e1];
    [|destruct Hrun as [-> ->]; destruct I1; eauto 8].
  apply bind_inv in Hrun as (r2 & w2 & H2 & Hrun).
  pose proof (invariant_appends mid w0 _ _ _ _ _ _
                (transcribe_appends E filepath) transcription_fits I1 H2) as I2.
  destruct r2 as [text|e2]; [|destruct Hrun as [-> ->]; eauto 8].
  apply bind_inv in Hrun as (r3 & w3 & H3 & Hrun).
  pose proof (invariant_update_transcript E mid w0 _ _ _ _ _ I2 H3) as I3.
  destruct r3 as [v3|e3]; [|destruct Hrun as [-> ->]; eauto 8].
  apply bind_inv in Hrun as (r4 & w4 & H4 & Hrun).
  pose proof (invariant_update_status E mid w0 _ "analyzing" _ _ _
                I3 eq_refl H4) as I4.
  destruct r4 as [v4|e4];
    [|destruct Hrun as [-> ->]; destruct I4; eauto 8].
  apply bind_inv in Hrun as (r5 & w5 & H5 & Hrun).
  pose proof (invariant_appends mid w0 _ _ _ _ _ _
                (extract_appends E text) analysis_fits I4 H5) as I5.
  destruct r5 as [insights|e5]; [|destruct Hrun as [-> ->]; eauto 8].
  apply bind_inv in Hrun as (r6 & w6 & H6 & Hrun).
  pose proof (invariant_update_insights E mid w0 _ _ _ _ _ I5 H6) as I6.
  destruct r6 as [v6|e6]; [|destruct Hrun as [-> ->]; eauto 8].
  apply bind_inv in Hrun as (r7 & w7 & H7 & Hrun).
  pose proof (invariant_appends mid w0 _ _ _ _ _ _
                (add_transcript_appends E mid text) analysis_fits I6 H7) as I7.
  destruct r7 as [v7|e7]; [|destruct Hrun as [-> ->]; eauto 8].
  apply bind_inv in Hrun as (r8 & w8 & H8 & Hrun).
  pose proof (invariant_update_status E mid w0 _ "completed" _ _ _
                I7 eq_refl H8) as I8.
  destruct r8 as [v8|e8];
    [|destruct Hrun as [-> ->]; destruct I8; eauto 8].
  by injection Hrun as <- <-.
Qed.

(** After the [except] block the label is final when the run returns; when
    the handler itself raises, it is any label of the job. *)
Lemma run_guarded_invariant (w : world) (r : result unit) (w' : world) :
  run_invariant mid w0 "processing" w ->
  try_except (run_body E mid filepath)
    (fun _ => update_status E mid "failed";; ret tt) w = (r, w') ->
  match r with
  | Ok _ => run_invariant mid w0 "completed" w'
            \/ run_invariant mid w0 "failed" w'
  | Raise _ => exists cur, job_label cur /\ run_invariant mid w0 cur w'
  end.
Proof.
  intros Hinv. unfold try_except.
  destruct (run_body E mid filepath w) as [[[]|e] wb] eqn:Hb;
    pose proof (run_body_invariant _ _ _ Hinv Hb) as Ib.
  - intros [= <- <-]. by left.
  - destruct Ib as (cur & Hcur & Ib). intros Hh.
    apply bind_inv in Hh as (r1 & w1 & H1 & Hh).
    assert (job_step cur "failed" = true) as Hstep.
    { by destruct Hcur as [[->|[->| ->]]| ->]. }
    pose proof (invariant_update_status E mid w0 _ "failed" _ _ _
                  Ib Hstep H1) as I1.
    destruct r1 as [v1|e1].
    + injection Hh as <- <-. by right.
    + destruct Hh as [-> ->]. unfold job_label.
      destruct I1 as [I1|I1]; [|eauto 8].
      exists cur. split; [|done]. destruct Hcur as [?| ->]; auto.
Qed.

Lemma run_cleanup_spec (w : world) :
  exists w', run_cleanup filepath w = (Ok tt, w')
    /\ meetings w' = meetings w
    /\ files w' = files w ∖ {[filepath]}
    /\ log w' = (log w ++ cleanup_events filepath (files w))%list.
Proof.
  destruct w as [ms fs cs t l].
  cbv [run_cleanup bind path_exists remove close emit ret cleanup_events].
  cbn [tick meetings files collection log].
  destruct (bool_decide_reflect (filepath ∈ fs)) as [Hin|Hnin];
    cbn [tick meetings files collection log].
  - eexists. split_and!; [done..|]. by rewrite <- app_assoc.
  - eexists. split_and!; [done..| |done]. set_solver.
Qed.

End RunBody.

(** ** Files *)

Lemma appends_keeps_files {A} (ok : event -> bool) (m : M A) :
  (forall e, ok e = true -> not_cleanup e = true) ->
  appends ok m -> keeps_files m.
Proof.
  intros Hok Hm w r w' H. destruct (Hm _ _ _ H) as (_ & Hf & evs & Hlog & Hevs).
  split; [done|]. exists evs. split; [done|].
  rewrite forallb_forall in *. auto.
Qed.

Lemma keeps_files_ret {A} (a : A) : keeps_files (ret a).
Proof. intros w r w' [= <- <-]. split; [done|]. exists []. by rewrite app_nil_r. Qed.

Lemma keeps_files_bind {A B} (m : M A) (k : A -> M B) :
  keeps_files m -> (forall a, keeps_files (k a)) -> keeps_files (bind m k).
Proof.
  intros Hm Hk w r w' (r1 & w1 & H1 & H2)%bind_inv.
  destruct (Hm _ _ _ H1) as (Hfs & evs1 & Hlog1 & Hok1).
  destruct r1 as [a|e].
  - destruct (Hk a _ _ _ H2) as (Hfs' & evs2 & Hlog2 & Hok2).
    split; [congruence|]. exists (evs1 ++ evs2)%list.
    rewrite Hlog2, Hlog1, <- app_assoc, forallb_app, Hok1, Hok2. done.
  - destruct H2 as [-> ->]. split; [done|]. by exists evs1.
Qed.

Lemma keeps_files_try_except {A} (m : M A) (h : exn -> M A) :
  keeps_files m -> (forall e, keeps_files (h e)) -> keeps_files (try_except m h).
Proof.
  intros Hm Hh w r w'. unfold try_except.
  destruct (m w) as [[a|e] w1] eqn:H1;
    destruct (Hm _ _ _ H1) as (Hfs & evs1 & Hlog1 & Hok1).
  - intros [= <- <-]. split; [done|]. by exists evs1.
  - intros H2. destruct (Hh e _ _ _ H2) as (Hfs' & evs2 & Hlog2 & Hok2).
    split; [congruence|]. exists (evs1 ++ evs2)%list.
    rewrite Hlog2, Hlog1, <- app_assoc, forallb_app, Hok1, Hok2. done.
Qed.

Lemma update_status_keeps_files (E : env) (mid : Z) (label : string) :
  keeps_files (update_status E mid label).
Proof.
  intros w r w'. rewrite update_status_eq.
  destruct (fault E (tick w)).
  - intros [= <- <-]. split; [done|]. exists []. by rewrite app_nil_r.
  - destruct (get (meetings w) mid); intros [= <- <-]; (split; [done|]).
    + by exists [EStatus mid label].
    + exists []. by rewrite app_nil_r.
Qed.

Lemma update_transcript_keeps_files (E : env) (mid : Z) (text : string) :
  keeps_files (update_transcript E mid text).
Proof.
  intros [ms fs cs t l] r w'.
  cbv [update_transcript external bind clock rows set_rows emit ret raise].
  cbn [tick meetings files collection log].
  destruct (fault E t); cbn [tick meetings files collection log].
  - intros [= <- <-]. split; [done|]. exists []. by rewrite app_nil_r.
  - destruct (get ms mid); intros [= <- <-]; (split; [done|]);
      exists []; by rewrite app_nil_r.
Qed.

Lemma update_insights_keeps_files (E : env) (mid : Z) (insights : json) :
  keeps_files (update_insights E mid insights).
Proof.
  intros [ms fs cs t l] r w'.
  cbv [update_insights external bind clock rows set_rows emit ret raise lift].
  cbn [tick meetings files collection log].
  destruct (fault E t); cbn [tick meetings files collection log].
  - intros [= <- <-]. split; [done|]. exists []. by rewrite app_nil_r.
  - destruct (get ms mid); [|intros [= <- <-]; split; [done|];
                               exists []; by rewrite app_nil_r].
    destruct (get_default insights "summary" JNull);
      [|intros [= <- <-]; split; [done|]; exists []; by rewrite app_nil_r].
    destruct (get_default insights "action_items" (JArr []));
      [|intros [= <- <-]; split; [done|]; exists []; by rewrite app_nil_r].
    destruct (get_default insights "decisions" (JArr []));
      [|intros [= <- <-]; split; [done|]; exists []; by rewrite app_nil_r].
    destruct (get_default insights "keywords" (JArr []));
      [|intros [= <- <-]; split; [done|]; exists []; by rewrite app_nil_r].
    destruct (get_default insights "participants" (JArr []));
      [|intros [= <- <-]; split; [done|]; exists []; by rewrite app_nil_r].
    destruct (get_default insights "sentiment" JNull);
      intros [= <- <-]; (split; [done|]); exists []; by rewrite app_nil_r.
Qed.

Lemma transcription_not_cleanup (e : event) :
  transcription_event e = true -> not_cleanup e = true.
Proof. by destruct e. Qed.

Lemma analysis_not_cleanup (e : event) :
  analysis_event e = true -> not_cleanup e = true.
Proof. by destruct e. Qed.

Lemma run_guarded_keeps_files (E : env) (mid : Z) (filepath : string) :
  keeps_files
    (try_except (run_body E mid filepath)
       (fun _ => update_status E mid "failed";; ret tt)).
Proof.
  apply keeps_files_try_except.
  - unfold run_body.
    repeat first
      [ apply keeps_files_ret
      | apply update_status_keeps_files
      | apply update_transcript_keeps_files
      | apply update_insights_keeps_files
      | apply (appends_keeps_files _ _ transcription_not_cleanup),
          transcribe_appends
      | apply (appends_keeps_files _ _ analysis_not_cleanup), extract_appends
      | apply (appends_keeps_files _ _ analysis_not_cleanup),
          add_transcript_appends
      | apply keeps_files_bind
      | intros ? ].
  - intros _. apply keeps_files_bind; [apply update_status_keeps_files|].
    intros _. apply keeps_files_ret.
Qed.

Lemma no_remove_among (filepath : string) (evs : list event) :
  forallb not_cleanup evs = true -> List.filter (is_remove filepath) evs = [].
Proof.
  induction evs as [|e evs IH]; [done|]. cbn [forallb List.filter].
  intros [He Hevs]%andb_prop. rewrite (IH Hevs). by destruct e.
Qed.

(** ** The run as a whole *)

Lemma cleanup_events_trace (mid : Z) (cur filepath : string) (fs : gset string) :
  job_trace_ok mid cur (cleanup_events filepath fs) = true
  /\ last_label cur (cleanup_events filepath fs) = cur.
Proof. unfold cleanup_events. by destruct (bool_decide _). Qed.

Lemma job_step_spec (a b : string) :
  job_step a b = true
  <-> spec_job_step a b = true \/ (a = "completed" /\ b = "failed").
Proof.
  unfold job_step. rewrite orb_true_iff, andb_true_iff, !String.eqb_eq. done.
Qed.

Lemma spec_job_step_cases (a b : string) :
  spec_job_step a b = true ->
  (a = "processing" /\ b = "transcribing")
  \/ (a = "transcribing" /\ b = "analyzing")
  \/ (a = "analyzing" /\ b = "completed")
  \/ (running a /\ b = "failed").
Proof.
  unfold spec_job_step, running. intros H.
  repeat match type of H with
         | (_ || _) = true => apply orb_prop in H as [H|H]
         | (_ && _) = true => apply andb_prop in H as [? H]
         end;
    repeat match goal with
           | H : String.eqb _ _ = true |- _ => apply String.eqb_eq in H; subst
           | H : (_ || _) = true |- _ => apply orb_prop in H as [H|H]
           end;
    tauto.
Qed.

Lemma job_step_cases (a b : string) :
  job_step a b = true ->
  (a = "processing" /\ b = "transcribing")
  \/ (a = "transcribing" /\ b = "analyzing")
  \/ (a = "analyzing" /\ b = "completed")
  \/ (not_failed a /\ b = "failed").
Proof.
  unfold not_failed. intros [H|[-> ->]]%job_step_spec; [|tauto].
  apply spec_job_step_cases in H. tauto.
Qed.

(** Every step of the machine goes forward, and none leaves [failed]. *)
Lemma job_step_forward (a b : string) :
  job_step a b = true -> not_failed a /\ label_rank a < label_rank b.
Proof.
  intros H. apply job_step_cases in H.
  unfold not_failed, running in *.
  destruct H as [[-> ->]|[[-> ->]|[[-> ->]|[[[->|[->| ->]]| ->] ->]]]];
    (split; [tauto|vm_compute; lia]).
Qed.

Lemma job_trace_labels (mid : Z) (cur : string) (evs : list event) :
  job_trace_ok mid cur evs = true -> label_path cur (labels evs) = true.
Proof.
  revert cur. induction evs as [|e evs IH]; intros cur; [done|].
  destruct e; cbn [job_trace_ok labels label_path];
    intros H; repeat (apply andb_prop in H as [? H]); auto.
  match goal with H0 : (_ && _) = true |- _ => apply andb_prop in H0 as [_ ->] end.
  by rewrite IH.
Qed.

Local Ltac next_label H :=
  let H' := fresh "Hstep" in
  cbn [label_path] in H; apply andb_prop in H as [H' H];
  apply job_step_cases in H' as [[? ?]|[[? ?]|[[? ?]|[[[?|[?|?]]|?] ?]]]];
  subst; try discriminate.

(** The paths of the state machine from [processing]. *)
Lemma label_path_processing (ls : list string) :
  label_path "processing" ls = true -> In ls run_label_sequences.
Proof.
  unfold run_label_sequences, spec_label_sequences. intros H.
  destruct ls as [|l1 ls]; [cbn; tauto|]. next_label H.
  - destruct ls as [|l2 ls]; [cbn; tauto|]. next_label H.
    + destruct ls as [|l3 ls]; [cbn; tauto|]. next_label H.
      * destruct ls as [|l4 ls]; [cbn; tauto|]. next_label H.
        destruct ls as [|l5 ls]; [cbn; tauto|]. next_label H.
      * destruct ls as [|l4 ls]; [cbn; tauto|]. next_label H.
    + destruct ls as [|l3 ls]; [cbn; tauto|]. next_label H.
  - destruct ls as [|l2 ls]; [cbn; tauto|]. next_label H.
Qed.

Lemma labels_app (evs1 evs2 : list event) :
  labels (evs1 ++ evs2) = (labels evs1 ++ labels evs2)%list.
Proof.
  induction evs1 as [|e evs1 IH]; [done|].
  destruct e; cbn [app labels]; by rewrite IH.
Qed.

Lemma last_cons_default {A} (x : A) (l : list A) (d : A) :
  List.last (x :: l) d = List.last l x.
Proof.
  revert x d. induction l as [|y l IH]; intros x d; [done|].
  change (List.last (x :: y :: l) d) with (List.last (y :: l) d).
  by rewrite !IH.
Qed.

Lemma last_label_labels (cur : string) (evs : list event) :
  last_label cur evs = List.last (labels evs) cur.
Proof.
  revert cur. induction evs as [|e evs IH]; intros cur; [done|].
  destruct e; cbn [last_label labels]; rewrite IH; try done.
  symmetry. apply last_cons_default.
Qed.

Lemma cleanup_labels (filepath : string) (fs : gset string) :
  labels (cleanup_events filepath fs) = [].
Proof. unfold cleanup_events. by destruct (bool_decide _). Qed.

(** The labels that the guarded body commits when the session never
    raises: a path of the machine of the specification. *)
Lemma run_guarded_no_fault (E : env) (mid : Z) (filepath : string)
  (w : world) (r : result unit) (w' : world) :
  (forall t, fault E t = None) ->
  status_of w mid = Some "processing" ->
  try_except (run_body E mid filepath)
    (fun _ => update_status E mid "failed";; ret tt) w = (r, w') ->
  exists evs, log w' = (log w ++ evs)%list
    /\ In (labels evs) spec_label_sequences.
Proof.
  intros Hno Hstart. unfold try_except.
  destruct (run_body E mid filepath w) as [[[]|e] wb] eqn:Hb;
    pose proof (run_body_invariant E mid filepath w _ _ _
                  (invariant_start mid w Hstart) Hb) as Ib.
  - intros [= _ <-]. destruct Ib as (_ & _ & evs & Hl & Htr & Hlast & _).
    exists evs. split; [done|].
    pose proof (label_path_processing _ (job_trace_labels _ _ _ Htr)) as Hin.
    rewrite last_label_labels in Hlast.
    unfold run_label_sequences, spec_label_sequences in *. cbn [app In] in Hin.
    repeat (destruct Hin as [Hin|Hin]); try done;
      rewrite <- Hin in *; cbn in Hlast; try discriminate; cbn; tauto.
  - destruct Ib as (cur & Hcur & _ & Hs & evs & Hl & Htr & Hlast & _).
    assert (running cur) as Hrunning.
    { destruct Hcur as [?| ->]; [done|]. exfalso.
      (* the body raised under [completed]: the refresh of the last update *)
      revert Hb. unfold run_body.
      intros (r1 & w1 & H1 & Hb)%bind_inv.
      destruct r1 as [v1|e1].
      2:{ destruct Hb as [_ ->]. revert H1. rewrite update_status_eq, !Hno.
          by destruct (get (meetings w) mid). }
      apply bind_inv in Hb as (r2 & w2 & H2 & Hb).
      destruct r2 as [text|e2].
      2:{ destruct Hb as [_ ->].
          pose proof (invariant_update_status E mid w _ "transcribing" _ _ _
                        (invariant_start mid w Hstart) eq_refl H1) as I1.
          pose proof (invariant_appends mid w _ _ _ _ _ _
                        (transcribe_appends E filepath) transcription_fits
                        I1 H2) as (_ & Hs2 & _).
          congruence. }
      pose proof (invariant_update_status E mid w _ "transcribing" _ _ _
                    (invariant_start mid w Hstart) eq_refl H1) as I1.
      pose proof (invariant_appends mid w _ _ _ _ _ _
                    (transcribe_appends E filepath) transcription_fits
                    I1 H2) as I2.
      apply bind_inv in Hb as (r3 & w3 & H3 & Hb).
      pose proof (invariant_update_transcript E mid w _ _ _ _ _ I2 H3) as I3.
      destruct r3 as [v3|e3];
        [|destruct Hb as [_ ->]; destruct I3 as (_ & Hs3 & _); congruence].
      apply bind_inv in Hb as (r4 & w4 & H4 & Hb).
      pose proof (invariant_update_status E mid w _ "analyzing" _ _ _
                    I3 eq_refl H4) as I4.
      destruct r4 as [v4|e4].
      2:{ destruct Hb as [_ ->]. revert H4. rewrite update_status_eq, !Hno.
          by destruct (get (meetings w3) mid). }
      apply bind_inv in Hb as (r5 & w5 & H5 & Hb).
      pose proof (invariant_appends mid w _ _ _ _ _ _
                    (extract_appends E text) analysis_fits I4 H5) as I5.
      destruct r5 as [insights|e5];
        [|destruct Hb as [_ ->]; destruct I5 as (_ & Hs5 & _); congruence].
      apply bind_inv in Hb as (r6 & w6 & H6 & Hb).
      pose proof (invariant_update_insights E mid w _ _ _ _ _ I5 H6) as I6.
      destruct r6 as [v6|e6];
        [|destruct Hb as [_ ->]; destruct I6 as (_ & Hs6 & _); congruence].
      apply bind_inv in Hb as (r7 & w7 & H7 & Hb).
      pose proof (invariant_appends mid w _ _ _ _ _ _
                    (add_transcript_appends E mid text) analysis_fits I6 H7)
        as I7.
      destruct r7 as [v7|e7];
        [|destruct Hb as [_ ->]; destruct I7 as (_ & Hs7 & _); congruence].
      apply bind_inv in Hb as (r8 & w8 & H8 & Hb).
      destruct r8 as [v8|e8]; [done|].
      revert H8. rewrite update_status_eq, !Hno.
      by destruct (get (meetings w7) mid). }
    pose proof (label_path_processing _ (job_trace_labels _ _ _ Htr)) as Hin.
    rewrite last_label_labels in Hlast.
    assert (In (labels evs) [[]; ["transcribing"]; ["transcribing"; "analyzing"]])
      as Hbody.
    { unfold run_label_sequences, spec_label_sequences in Hin.
      cbn [app In] in Hin. unfold running in Hrunning. rewrite <- Hlast in Hrunning.
      repeat (destruct Hin as [Hin|Hin]); try done;
        rewrite <- Hin in *; cbn in Hrunning |- *;
        first [tauto|destruct Hrunning as [?|[?|?]]; discriminate]. }
    unfold bind. rewrite update_status_eq, !Hno.
    unfold status_of in Hs. destruct (get (meetings wb) mid) as [m|]; [|done].
    unfold ret. intros [= _ <-]. cbn [log].
    exists (evs ++ [EStatus mid "failed"])%list.
    rewrite Hl, app_assoc, labels_app. split; [done|].
    unfold spec_label_sequences. cbn [In] in Hbody.
    repeat (destruct Hbody as [Hbody|Hbody]); try done;
      rewrite <- Hbody; cbn; tauto.
Qed.

Lemma failed_is_reachable : failed_reachable.
Proof. unfold failed_reachable. split_and!; vm_compute; reflexivity. Qed.

(** C7 fails on [completed].  When the refresh of the row raises after the
    commit of [completed], the handler of the run commits [failed]: the
    run returns, the labels committed are transcribing, analyzing,
    completed, failed, which is no path of the machine of the
    specification, and the meeting that was completed is stored as
    failed.  In the run of the sample the calls are numbered from 0: the
    commit and the refresh of [transcribing] (0, 1), the commit of the
    transcript (2), the commit and the refresh of [analyzing] (3, 4), the
    language model (5), the commit of the insights (6), the two requests
    for the embedding of the one chunk (7, 8), the index (9), the commit of
    [completed] (10) and its refresh (11). *)
Lemma completed_not_terminal :
  labels (log (run (with_fault (session_fails_at 11) sample_env) 1
                 "uploads/a.mp3" sample_world).2)
  = ["transcribing"; "analyzing"; "completed"; "failed"]
  /\ (run (with_fault (session_fails_at 11) sample_env) 1 "uploads/a.mp3"
        sample_world).1 = Ok tt
  /\ status_of (run (with_fault (session_fails_at 11) sample_env) 1
                  "uploads/a.mp3" sample_world).2 1
     = Some "failed"
  /\ spec_job_step "completed" "failed" = false
  /\ ~ In (labels (log (run (with_fault (session_fails_at 11) sample_env) 1
                          "uploads/a.mp3" sample_world).2))
          spec_label_sequences.
Proof.
  split_and!; try (vm_compute; reflexivity).
  vm_compute. intros H. repeat destruct H as [H|H]; discriminate || done.
Qed.

(** C7, amended.  In every run on a meeting stored as [processing], the
    events pass the monitor of the job state machine of the runs: the
    committed labels follow processing, transcribing, analyzing, completed,
    with [failed] after any label but [failed] itself, and nothing after
    [failed] (the labels committed are one of eight sequences); each phase
    event happens after its label was committed and before the next one,
    and the stored status is always the last committed label.  The machine
    is the one of the specification with one more step, from [completed] to
    [failed]; a run takes it only when the session raises: when the
    session never raises, the labels committed are a path of the machine of
    the specification.  Every step goes forward, none leaves [failed], and
    [failed] is reached from each of the three labels that are not
    final. *)
Theorem run_status_order (E : env) (mid : Z) (filepath : string) (w : world)
  (r : result unit) (w' : world) :
  status_of w mid = Some "processing" ->
  run E mid filepath w = (r, w') ->
  (exists evs, log w' = (log w ++ evs)%list
     /\ job_trace_ok mid "processing" evs = true
     /\ In (labels evs) run_label_sequences
     /\ status_of w' mid = Some (last_label "processing" evs)
     /\ (r = Ok tt -> last_label "processing" evs = "completed"
                      \/ last_label "processing" evs = "failed")
     /\ ((forall t, fault E t = None) -> In (labels evs) spec_label_sequences))
  /\ (forall a b, job_step a b = true
        <-> spec_job_step a b = true \/ (a = "completed" /\ b = "failed"))
  /\ (forall a b, job_step a b = true ->
        not_failed a /\ label_rank a < label_rank b)
  /\ failed_reachable.
Proof.
  intros Hstart Hrun.
  split; [|split_and!;
             [apply job_step_spec|apply job_step_forward|apply failed_is_reachable]].
  unfold run, try_finally in Hrun.
  destruct (try_except _ _ w) as [rg wg] eqn:Hg.
  pose proof (run_guarded_invariant E mid filepath w w rg wg
                (invariant_start mid w Hstart) Hg) as Ig.
  destruct (run_cleanup_spec filepath wg) as (wc & Hc & Hms & Hfs & Hlog).
  rewrite Hc in Hrun. injection Hrun as <- <-.
  assert (exists cur, run_invariant mid w cur wg
            /\ (rg = Ok tt -> cur = "completed" \/ cur = "failed"))
    as (cur & (_ & Hs & evs & Hl & Htr & Hlast & _) & Hfinal).
  { destruct rg as [[]|e].
    - destruct Ig as [Ig|Ig]; eauto.
    - destruct Ig as (cur & _ & Ig). by exists cur. }
  destruct (cleanup_events_trace mid cur filepath (files wg)) as [C1 C2].
  assert (job_trace_ok mid "processing"
            (evs ++ cleanup_events filepath (files wg)) = true) as Hok
    by (by rewrite job_trace_ok_app, Htr, Hlast, C1).
  exists (evs ++ cleanup_events filepath (files wg))%list. split_and!.
  - by rewrite Hlog, Hl, app_assoc.
  - exact Hok.
  - by apply label_path_processing, (job_trace_labels mid).
  - rewrite last_label_app, Hlast, C2. unfold status_of in *. by rewrite Hms.
  - rewrite last_label_app, Hlast, C2. exact Hfinal.
  - intros Hno.
    destruct (run_guarded_no_fault E mid filepath w rg wg Hno Hstart Hg)
      as (evs' & Hl' & Hspec).
    rewrite Hl in Hl'. apply app_inv_head in Hl'. subst evs'.
    by rewrite labels_app, cleanup_labels, app_nil_r.
Qed.

(** The run of the sample: transcribing, analyzing, completed. *)
Lemma run_status_order_witness :
  labels (log (run sample_env 1 "uploads/a.mp3" sample_world).2)
  = ["transcribing"; "analyzing"; "completed"]
  /\ exists evs,
       log (run sample_env 1 "uploads/a.mp3" sample_world).2
       = (log sample_world ++ evs)%list
       /\ job_trace_ok 1 "processing" evs = true
       /\ In (labels evs) run_label_sequences
       /\ status_of (run sample_env 1 "uploads/a.mp3" sample_world).2 1
          = Some (last_label "processing" evs)
       /\ ((run sample_env 1 "uploads/a.mp3" sample_world).1 = Ok tt ->
           last_label "processing" evs = "completed"
           \/ last_label "processing" evs = "failed")
       /\ ((forall t, fault sample_env t = None) ->
           In (labels evs) spec_label_sequences).
Proof.
  split; [vm_compute; reflexivity|].
  exact (proj1 (run_status_order sample_env 1 "uploads/a.mp3" sample_world
                  _ _ eq_refl (surjective_pairing _))).
Defined.

(** C8. Every run on a file that exists removes it exactly once, in the
    [finally] block at its end, whatever happened before: the events of the
    run are events of the body and of the handler, none of them a removal,
    followed by the removal of the file and the closing of the session; the
    file is gone afterwards and no other file is touched. *)
Theorem run_removes_file_once (E : env) (mid : Z) (filepath : string)
  (w : world) (r : result unit) (w' : world) :
  filepath ∈ files w ->
  run E mid filepath w = (r, w') ->
  (filepath ∉ files w')
  /\ files w' = files w ∖ {[filepath]}
  /\ exists pre,
       log w' = (log w ++ pre ++ [ERemove filepath; EClose])%list
       /\ forallb not_cleanup pre = true
       /\ List.filter (is_remove filepath) (pre ++ [ERemove filepath; EClose])
          = [ERemove filepath].
Proof.
  intros Hin Hrun. unfold run, try_finally in Hrun.
  destruct (try_except _ _ w) as [rg wg] eqn:Hg.
  destruct (run_guarded_keeps_files E mid filepath _ _ _ Hg)
    as (Hfg & pre & Hlg & Hpre).
  destruct (run_cleanup_spec filepath wg) as (wc & Hc & Hms & Hfs & Hlog).
  rewrite Hc in Hrun. injection Hrun as <- <-.
  rewrite Hfg in Hfs, Hlog. unfold cleanup_events in Hlog.
  rewrite bool_decide_eq_true_2 in Hlog by done.
  split_and!.
  - rewrite Hfs. set_solver.
  - exact Hfs.
  - exists pre. split_and!.
    + by rewrite Hlog, Hlg, app_assoc.
    + exact Hpre.
    + rewrite List.filter_app, (no_remove_among filepath pre Hpre).
      cbn. by rewrite String.eqb_refl.
Qed.

(** A file that is not there any more is not removed: the [finally] block
    only closes the session. *)
Lemma run_without_file (E : env) (mid : Z) (filepath : string) (w : world) :
  filepath ∉ files w ->
  files (run E mid filepath w).2 = files w
  /\ List.filter (is_remove filepath) (log (run E mid filepath w).2)
     = List.filter (is_remove filepath) (log w).
Proof.
  intros Hnin. unfold run, try_finally.
  destruct (try_except _ _ w) as [rg wg] eqn:Hg.
  destruct (run_guarded_keeps_files E mid filepath _ _ _ Hg)
    as (Hfg & pre & Hlg & Hpre).
  destruct (run_cleanup_spec filepath wg) as (wc & Hc & Hms & Hfs & Hlog).
  rewrite Hc. cbn [snd]. rewrite Hfg in Hfs, Hlog.
  unfold cleanup_events in Hlog. rewrite bool_decide_eq_false_2 in Hlog by done.
  split; [rewrite Hfs; set_solver|].
  rewrite Hlog, Hlg, !List.filter_app, (no_remove_among filepath pre Hpre).
  cbn. by rewrite !app_nil_r.
Qed.

(** The file of the sample is removed once both when the run completes and
    when it fails in the speech model. *)
Lemma run_removes_file_once_witness :
  (labels (log (run sample_env 1 "uploads/a.mp3" sample_world).2)
   = ["transcribing"; "analyzing"; "completed"]
   /\ ("uploads/a.mp3" ∉ files (run sample_env 1 "uploads/a.mp3" sample_world).2))
  /\ (labels (log (run (with_whisper no_speech sample_env) 1 "uploads/a.mp3"
                     sample_world).2)
      = ["transcribing"; "failed"]
      /\ ("uploads/a.mp3"
          ∉ files (run (with_whisper no_speech sample_env) 1 "uploads/a.mp3"
                     sample_world).2)).
Proof.
  assert ("uploads/a.mp3" ∈ files sample_world) as Hin.
  { vm_compute. reflexivity. }
  split; (split; [vm_compute; reflexivity|]).
  - exact (proj1 (run_removes_file_once sample_env 1 "uploads/a.mp3"
                    sample_world _ _ Hin (surjective_pairing _))).
  - exact (proj1 (run_removes_file_once (with_whisper no_speech sample_env) 1
                    "uploads/a.mp3" sample_world _ _ Hin (surjective_pairing _))).
Defined.

(** ** Insight extraction *)

Lemma extract_eq (E : env) (T : string) (w : world) :
  extract E T w
  = (match extract_response E T (llm E (tick w) (InsightPrompt T)) with
     | Ok insights => Ok insights
     | Raise e => if caught e then Ok error_insights else Raise e
     end,
     World (meetings w) (files w) (collection w) (S (tick w))
       (log w ++ [ELLM (InsightPrompt T)])).
Proof.
  destruct w as [ms fs cs t l]. cbv [extract bind clock emit].
  cbn [tick meetings files collection log].
  destruct (extract_response _ _ _) as [v|e]; [done|]. by destruct (caught e).
Qed.

Lemma unusable_response_caught (E : env) (T : string) (s : http_stream) :
  unusable_response E s ->
  exists e, extract_response E T s = Raise e /\ caught e = true.
Proof.
  unfold extract_response.
  intros [->|[(ls & text & -> & Hl)|[(ls & b & -> & Hl)|(ls & text & -> & Hl & Hj)]]];
    cbn [read_stream]; rewrite ?Hl; cbn [rbind]; rewrite ?Hj; eauto.
Qed.

Lemma extract_unusable (E : env) (T : string) (w : world) :
  unusable_response E (llm E (tick w) (InsightPrompt T)) ->
  (extract E T w).1 = Ok error_insights.
Proof.
  intros (e & He & Hc)%(unusable_response_caught E T).
  by rewrite extract_eq, He, Hc.
Qed.

(** The loop over the keywords raises on a keyword that is not a [str],
    and this is not an exception that [extract] handles. *)
Lemma frequencies_raises (ks : list json) (tl : string) (e : exn) :
  frequencies ks tl = Raise e -> e = AttributeError.
Proof.
  induction ks as [|k ks IH]; [done|].
  destruct k; cbn [frequencies]; try by intros [= <-].
  destruct (frequencies ks tl) as [fs|e']; [done|].
  cbn [rbind]. intros [= <-]. by apply IH.
Qed.

(** What [extract] returns for an answer that parses to an object. *)
Lemma extract_object (E : env) (T : string) (w : world) (text : string)
  (fields : list (string * json)) :
  read_stream E (llm E (tick w) (InsightPrompt T)) = Ok text ->
  json_loads E text = Some (JObj fields) ->
  (extract E T w).1
  = match dict_get "keywords" fields with
    | Some (JArr ks) =>
        match _calculate_keyword_frequency ks T with
        | Ok fs => Ok (JObj (dict_set "keywords" (JArr (map frequency_json fs)) fields))
        | Raise e => Raise e
        end
    | _ => Ok (JObj fields)
    end.
Proof.
  intros Hs Hj. rewrite extract_eq. cbn [fst].
  unfold extract_response. rewrite Hs. cbn [rbind]. rewrite Hj.
  unfold annotate, contains, getitem. cbn [rbind].
  destruct (dict_get "keywords" fields) as [v|] eqn:Hk.
  - rewrite bool_decide_eq_true_2 by eauto. cbn [rbind].
    destruct v; try done.
    unfold _calculate_keyword_frequency.
    destruct (frequencies items (lower T)) as [fs|e] eqn:Hf; [done|].
    by rewrite (frequencies_raises _ _ _ Hf).
  - rewrite bool_decide_eq_false_2; [done|]. by intros [? ?].
Qed.

(** An answer that parses to a list is returned as it is; the run then
    fails when the fields of the insights are read. *)
Example run_fails_on_list_answer :
  (extract (with_llm (llm_says "[]") sample_env) "we meet on monday at noon"
     sample_world).1 = Ok (JArr [])
  /\ labels (log (run (with_llm (llm_says "[]") sample_env) 1 "uploads/a.mp3"
                    sample_world).2)
     = ["transcribing"; "analyzing"; "failed"].
Proof. vm_compute. split; reflexivity. Qed.

(** C10. For an answer of the model that parses to an object, [extract]
    returns the object unchanged when it has no key [keywords] or when the
    value of that key is not a list; only a list is replaced, and a list of
    keyword strings is replaced by its frequency entries (counted, ordered
    by count, at most seven). *)
Theorem extract_annotates_lists_only (E : env) (T : string) (w : world)
  (text : string) (fields : list (string * json)) :
  read_stream E (llm E (tick w) (InsightPrompt T)) = Ok text ->
  json_loads E text = Some (JObj fields) ->
  (dict_get "keywords" fields = None -> (extract E T w).1 = Ok (JObj fields))
  /\ (forall v, dict_get "keywords" fields = Some v ->
        (forall ks, v <> JArr ks) -> (extract E T w).1 = Ok (JObj fields))
  /\ (forall K, dict_get "keywords" fields = Some (JArr (map JStr K)) ->
        exists sorted,
          (extract E T w).1
          = Ok (JObj (dict_set "keywords"
                        (JArr (map frequency_json (take 7 sorted))) fields))
          /\ Permutation sorted (occurring_keywords K T)
          /\ StronglySorted by_count_desc sorted).
Proof.
  intros Hs Hj. pose proof (extract_object E T w text fields Hs Hj) as H.
  split_and!.
  - intros Hk. by rewrite H, Hk.
  - intros v Hk Hv. rewrite H, Hk. destruct v; try done. by destruct (Hv items).
  - intros K Hk. exists (sort_desc (occurring_keywords K T)). split_and!.
    + rewrite H, Hk. unfold _calculate_keyword_frequency.
      by rewrite frequencies_strings.
    + apply sort_by_Permutation.
    + apply sort_desc_sorted.
Qed.

(** The model answers [{"keywords": "budget"}]: the object comes back as it
    is, its keywords a string and not a list of counted entries. *)
Lemma extract_annotates_lists_only_witness :
  (extract (with_llm (llm_says keywords_text) sample_env)
     "we meet on monday at noon" sample_world).1
  = Ok (JObj [("keywords", JStr "budget")]).
Proof.
  refine (proj1 (proj2
    (extract_annotates_lists_only (with_llm (llm_says keywords_text) sample_env)
       "we meet on monday at noon" sample_world keywords_text
       [("keywords", JStr "budget")] eq_refl eq_refl))
    (JStr "budget") eq_refl _).
  intros ks. discriminate.
Defined.

(** The model answers [{"keywords": ["noon", "budget", "Monday"]}]: the
    list is replaced by the entries of the keywords that occur. *)
Example extract_counts_keyword_list :
  (extract (with_llm (llm_says keyword_list_text) sample_env)
     "we meet on monday at noon" sample_world).1
  = Ok (JObj [("keywords",
               JArr [JObj [("keyword", JStr "noon"); ("count", JNum 1)];
                     JObj [("keyword", JStr "Monday"); ("count", JNum 1)]])]).
Proof. vm_compute. reflexivity. Qed.

(** ** A run without faults *)

Section NoFault.
Variables (E : env) (mid : Z).
Hypothesis no_fault : forall t, fault E t = None.

Lemma update_status_returns (label : string) (w : world)
  (r : result (option Meeting)) (w' : world) :
  update_status E mid label w = (r, w') -> exists v, r = Ok v.
Proof.
  rewrite update_status_eq, !no_fault.
  destruct (get (meetings w) mid); intros [= <- <-]; eauto.
Qed.

Lemma update_transcript_returns (text : string) (w : world)
  (r : result (option Meeting)) (w' : world) :
  update_transcript E mid text w = (r, w') -> exists v, r = Ok v.
Proof.
  destruct w as [ms fs cs t l].
  cbv [update_transcript external bind clock rows set_rows emit ret raise].
  cbn [tick meetings files collection log]. rewrite no_fault.
  cbn [tick meetings files collection log].
  destruct (get ms mid); intros [= <- <-]; eauto.
Qed.

Lemma update_insights_returns (fields : list (string * json)) (w : world)
  (r : result (option Meeting)) (w' : world) :
  update_insights E mid (JObj fields) w = (r, w') -> exists v, r = Ok v.
Proof.
  destruct w as [ms fs cs t l].
  cbv [update_insights external bind clock rows set_rows emit ret raise lift
       get_default].
  cbn [tick meetings files collection log]. rewrite no_fault.
  cbn [tick meetings files collection log].
  destruct (get ms mid); [|intros [= <- <-]; eauto].
  repeat match goal with
         | |- context [dict_get ?k fields] => destruct (dict_get k fields)
         end;
    intros [= <- <-]; eauto.
Qed.

(** When the speech model, the extraction and the indexing return, the run
    returns under [completed]. *)
Lemma run_completes (filepath T : string) (w : world) :
  status_of w mid = Some "processing" ->
  transcribe_result E filepath = Ok T ->
  (forall w1, exists fields, (extract E T w1).1 = Ok (JObj fields)) ->
  (forall w1, (add_transcript E mid T w1).1 = Ok tt) ->
  (run E mid filepath w).1 = Ok tt
  /\ status_of (run E mid filepath w).2 mid = Some "completed".
Proof.
  intros Hstart HT Hex Hadd.
  destruct (run_body E mid filepath w) as [rb wb] eqn:Hb.
  assert (rb = Ok tt) as ->.
  { unfold run_body in Hb.
    apply bind_inv in Hb as (r1 & w1 & H1 & Hb).
    destruct (update_status_returns _ _ _ _ H1) as [v1 ->].
    apply bind_inv in Hb as (r2 & w2 & H2 & Hb).
    assert (r2 = Ok T) as ->.
    { destruct w1. cbv [transcribe bind emit lift] in H2. rewrite HT in H2.
      by injection H2 as <- _. }
    apply bind_inv in Hb as (r3 & w3 & H3 & Hb).
    destruct (update_transcript_returns _ _ _ _ H3) as [v3 ->].
    apply bind_inv in Hb as (r4 & w4 & H4 & Hb).
    destruct (update_status_returns _ _ _ _ H4) as [v4 ->].
    apply bind_inv in Hb as (r5 & w5 & H5 & Hb).
    destruct (Hex w4) as [fields Hfields]. rewrite H5 in Hfields.
    cbn [fst] in Hfields. subst r5.
    apply bind_inv in Hb as (r6 & w6 & H6 & Hb).
    destruct (update_insights_returns _ _ _ _ H6) as [v6 ->].
    apply bind_inv in Hb as (r7 & w7 & H7 & Hb).
    pose proof (Hadd w6) as Hadd6. rewrite H7 in Hadd6. cbn [fst] in Hadd6.
    subst r7.
    apply bind_inv in Hb as (r8 & w8 & H8 & Hb).
    destruct (update_status_returns _ _ _ _ H8) as [v8 ->].
    by injection Hb as <- _. }
  pose proof (run_body_invariant E mid filepath w w (Ok tt) wb
                (invariant_start mid w Hstart) Hb) as (_ & Hs & _).
  destruct (run_cleanup_spec filepath wb) as (wc & Hc & Hms & _).
  unfold run, try_finally, try_except. rewrite Hb, Hc. cbn [fst snd].
  split; [done|]. unfold status_of in *. by rewrite Hms.
Qed.

End NoFault.

(** C2, as stated, fails twice.  A model answer that parses to an object
    without the expected fields, here [{}], is returned as it is and not
    replaced by the error record.  And after an answer that is not JSON,
    for which [extract] does return the error record, the run still ends
    under [failed] when the embedding endpoint answers with an error
    status, although the transcription succeeded. *)
Lemma extract_not_always_recovered :
  ((extract sample_env "we meet on monday at noon" sample_world).1
   = Ok (JObj [])
   /\ (extract sample_env "we meet on monday at noon" sample_world).1
      <> Ok error_insights)
  /\ (transcribe_result garbled_env_down "uploads/a.mp3"
      = Ok "we meet on monday at noon"
      /\ (forall w, (extract garbled_env_down "we meet on monday at noon" w).1
                    = Ok error_insights)
      /\ status_of (run garbled_env_down 1 "uploads/a.mp3" sample_world).2 1
         = Some "failed"
      /\ status_of (run garbled_env_down 1 "uploads/a.mp3" sample_world).2 1
         <> Some "completed").
Proof.
  split; [split; [vm_compute; reflexivity|vm_compute; discriminate]|].
  split_and!.
  - vm_compute. reflexivity.
  - intros w. by rewrite extract_eq.
  - vm_compute. reflexivity.
  - vm_compute. discriminate.
Qed.

(** C2, amended.  When the answer of the language model cannot be read as
    a document (the connection fails, the stream breaks, a line or the
    assembled text is not JSON), [extract] returns the error record and
    raises nothing; an answer that parses to an object is returned even
    when fields are missing.  After the error record the run ends under
    [completed] when the transcription succeeded and neither the SQL
    session nor the indexing raises. *)
Theorem extract_recovers_locally (E : env) (T : string) :
  (forall w, unusable_response E (llm E (tick w) (InsightPrompt T)) ->
     (extract E T w).1 = Ok error_insights)
  /\ (forall w text fields,
        read_stream E (llm E (tick w) (InsightPrompt T)) = Ok text ->
        json_loads E text = Some (JObj fields) ->
        dict_get "keywords" fields = None ->
        (extract E T w).1 = Ok (JObj fields))
  /\ (forall mid filepath w,
        status_of w mid = Some "processing" ->
        (forall t, fault E t = None) ->
        transcribe_result E filepath = Ok T ->
        (forall t, unusable_response E (llm E t (InsightPrompt T))) ->
        (forall w1, (add_transcript E mid T w1).1 = Ok tt) ->
        (run E mid filepath w).1 = Ok tt
        /\ status_of (run E mid filepath w).2 mid = Some "completed").
Proof.
  split; [intros w; apply extract_unusable|]. split.
  { intros w text fields Hs Hj Hk.
    by rewrite (extract_object E T w text fields Hs Hj), Hk. }
  intros mid filepath w Hstart Hfault HT Hllm Hadd.
  apply (run_completes E mid Hfault filepath T w Hstart HT); [|exact Hadd].
  intros w1. eexists. by apply extract_unusable.
Qed.

(** The model garbles its answer and the embedding endpoint cannot be
    reached: the insights are the error record and the run completes. *)
Lemma extract_recovers_locally_witness :
  (extract garbled_env_unreachable "we meet on monday at noon" sample_world).1
  = Ok error_insights
  /\ (extract sample_env "we meet on monday at noon" sample_world).1
     = Ok (JObj [])
  /\ (run garbled_env_unreachable 1 "uploads/a.mp3" sample_world).1 = Ok tt
  /\ status_of (run garbled_env_unreachable 1 "uploads/a.mp3" sample_world).2 1
     = Some "completed".
Proof.
  assert (forall t, unusable_response garbled_env_unreachable
                      (llm garbled_env_unreachable t
                         (InsightPrompt "we meet on monday at noon")))
    as Hllm.
  { intros t. right. right. left. by exists ["not json"], false. }
  destruct (extract_recovers_locally garbled_env_unreachable
              "we meet on monday at noon") as (Hx & _ & Hrun).
  split; [apply Hx, Hllm|]. split.
  { exact (proj1 (proj2 (extract_recovers_locally sample_env
                           "we meet on monday at noon"))
             sample_world "{}" [] eq_refl eq_refl eq_refl). }
  apply (Hrun 1%Z "uploads/a.mp3" sample_world); done.
Defined.

(** ** Indexing *)

Lemma _get_embedding_eq (E : env) (text : string) (w : world) :
  _get_embedding E text w
  = (embedding_of E (tick w) text,
     World (meetings w) (files w) (collection w) (S (tick w))
       (log w ++ [EEmbed text])).
Proof.
  destruct w as [ms fs cs t l]. cbv [_get_embedding bind clock emit embedding_of].
  cbn [tick meetings files collection log].
  destruct (embedding_response _ _) as [v|e]; [done|].
  by destruct (embedding_caught e).
Qed.

Lemma embed_chunks_unchanged_index (E : env) (chunks : list string) :
  unchanged_index (embed_chunks E chunks).
Proof.
  induction chunks as [|c chunks IH]; intros w; [done|].
  cbn [embed_chunks]. unfold bind at 1. rewrite _get_embedding_eq.
  destruct (embedding_of E (tick w) c) as [probe|e]; [|done].
  destruct (is_none probe); [by rewrite IH|].
  unfold bind at 1. rewrite _get_embedding_eq. cbn [tick].
  destruct (embedding_of E (S (tick w)) c) as [v|e]; [|done].
  unfold bind at 1.
  match goal with |- context [embed_chunks E chunks ?w1] =>
    pose proof (IH w1) as IH1; destruct (embed_chunks E chunks w1) as [[es|e] w2]
  end; cbn in *; exact IH1.
Qed.

(** With an endpoint that gives each chunk one answer, whenever it is
    asked, the list [embeddings] holds the answers that are not [None]. *)
Lemma embed_chunks_deterministic (E : env) (emb : string -> json)
  (chunks : list string) (w : world) :
  (forall t c, In c chunks -> embedding_of E t c = Ok (emb c)) ->
  (embed_chunks E chunks w).1 = Ok (List.filter embedded (map emb chunks)).
Proof.
  revert w. induction chunks as [|c chunks IH]; intros w Hemb; [done|].
  cbn [embed_chunks map List.filter]. unfold bind at 1.
  rewrite _get_embedding_eq, (Hemb _ c) by (by left).
  unfold embedded at 1. destruct (is_none (emb c)); cbn [negb].
  - apply IH. intros t c' Hc'. apply Hemb. by right.
  - unfold bind at 1. rewrite _get_embedding_eq, (Hemb _ c) by (by left).
    unfold bind at 1.
    match goal with |- context [embed_chunks E chunks ?w1] =>
      pose proof (IH w1) as IH1; destruct (embed_chunks E chunks w1) as [r w2]
    end.
    cbn [fst] in IH1. rewrite IH1; [done|].
    intros t c' Hc'. apply Hemb. by right.
Qed.

(** [embeddings[i]] for the position of the last chunk at the latest is
    past the end of a list shorter than the list of chunks. *)
Lemma valid_chunks_index_error (chunks : list string) (embeddings : list json)
  (i : nat) :
  i <= List.length embeddings ->
  List.length embeddings < i + List.length chunks ->
  valid_chunks_from i chunks embeddings = Raise IndexError.
Proof.
  revert i. induction chunks as [|c chunks IH]; intros i Hi Hlen.
  - cbn in Hlen. lia.
  - cbn [valid_chunks_from]. destruct (embeddings !! i) as [e|] eqn:He; [|done].
    apply lookup_lt_Some in He. rewrite IH; [done|lia|cbn in Hlen; lia].
Qed.

Lemma filter_embedded_length (emb : string -> json) (chunks : list string) :
  (exists c, In c chunks /\ emb c = JNull) ->
  List.length (List.filter embedded (map emb chunks)) < List.length chunks.
Proof.
  intros (c & Hc & Hnull). induction chunks as [|c' chunks IH]; [done|].
  cbn [map List.filter List.length]. pose proof (filter_length_le embedded (map emb chunks)) as Hle.
  rewrite length_map in Hle.
  destruct Hc as [->|Hc].
  - unfold embedded at 1. rewrite Hnull. cbn. lia.
  - specialize (IH Hc). destruct (embedded (emb c')); cbn [List.length]; lia.
Qed.

Lemma filter_embedded_nonempty (emb : string -> json) (chunks : list string) :
  (exists c, In c chunks /\ emb c <> JNull) ->
  List.filter embedded (map emb chunks) <> [].
Proof.
  intros (c & Hc & Hsome) Hnil.
  assert (In (emb c) (List.filter embedded (map emb chunks))) as Hin.
  { apply filter_In. split; [by apply in_map|]. unfold embedded.
    by destruct (emb c). }
  by rewrite Hnil in Hin.
Qed.

Lemma add_transcript_unfold (E : env) (mid : Z) (T : string) (w : world)
  (emb : string -> json) :
  (forall t c, In c (_chunk_text T) -> embedding_of E t c = Ok (emb c)) ->
  _chunk_text T <> [] ->
  add_transcript E mid T w
  = let w1 := (embed_chunks E (_chunk_text T) w).2 in
    match List.filter embedded (map emb (_chunk_text T)) with
    | [] => (Ok tt, w1)
    | e :: es =>
        match valid_chunks_from 0 (_chunk_text T) (e :: es) with
        | Ok vs =>
            collection_add E (e :: es) vs (map (fun _ => mid) vs)
              (map (doc_id mid) (seq 0 (List.length vs))) w1
        | Raise x => (Raise x, w1)
        end
    end.
Proof.
  intros Hemb Hne. unfold add_transcript.
  destruct (_chunk_text T) as [|c cs] eqn:Hc; [done|].
  unfold bind at 1.
  pose proof (embed_chunks_deterministic E emb (c :: cs) w Hemb) as Hd.
  destruct (embed_chunks E (c :: cs) w) as [r w1]. cbn [fst snd] in *.
  subst r. cbv zeta.
  destruct (List.filter embedded (map emb (c :: cs))) as [|e es]; [done|].
  unfold bind at 1, lift.
  by destruct (valid_chunks_from 0 (c :: cs) (e :: es)).
Qed.

(** An empty transcript, or one of white space only, is not indexed. *)
Lemma add_transcript_no_words (E : env) (mid : Z) (T : string) (w : world) :
  split T = [] -> add_transcript E mid T w = (Ok tt, w).
Proof.
  intros Hs. unfold add_transcript, _chunk_text, _chunk_text_sized.
  by rewrite Hs.
Qed.

(** When the embedding of every chunk fails, nothing is stored and nothing
    is raised. *)
Lemma add_transcript_all_fail (E : env) (mid : Z) (T : string) (w : world) :
  (forall t c, In c (_chunk_text T) -> embedding_of E t c = Ok JNull) ->
  (add_transcript E mid T w).1 = Ok tt
  /\ collection (add_transcript E mid T w).2 = collection w.
Proof.
  intros Hemb. destruct (_chunk_text T) as [|c cs] eqn:Hc.
  - unfold add_transcript. by rewrite Hc.
  - rewrite (add_transcript_unfold E mid T w (fun _ => JNull));
      [|by rewrite Hc|by rewrite Hc].
    cbv zeta. replace (List.filter embedded (map (fun _ => JNull) (_chunk_text T)))
      with (@nil json).
    + split; [done|]. apply embed_chunks_unchanged_index.
    + generalize (_chunk_text T). intros l. by induction l.
Qed.

(** C3 fails on its last part.  When the embedding fails for some chunks
    and succeeds for others, the list [embeddings] is shorter than the list
    of chunks, [embeddings[i]] is read past its end, and [add_transcript]
    raises [IndexError]: no chunk is dropped silently and none is stored. *)
Theorem add_transcript_partial_failure (E : env) (mid : Z) (T : string)
  (w : world) (emb : string -> json) :
  (forall t c, In c (_chunk_text T) -> embedding_of E t c = Ok (emb c)) ->
  (exists c, In c (_chunk_text T) /\ emb c = JNull) ->
  (exists c, In c (_chunk_text T) /\ emb c <> JNull) ->
  (add_transcript E mid T w).1 = Raise IndexError
  /\ collection (add_transcript E mid T w).2 = collection w.
Proof.
  intros Hemb Hfail Hsome.
  assert (_chunk_text T <> []) as Hne.
  { destruct Hfail as (c & Hc & _). by destruct (_chunk_text T). }
  rewrite (add_transcript_unfold E mid T w emb Hemb Hne). cbv zeta.
  pose proof (filter_embedded_length emb _ Hfail) as Hlen.
  pose proof (filter_embedded_nonempty emb _ Hsome) as Hnil.
  destruct (List.filter embedded (map emb (_chunk_text T))) as [|e es]; [done|].
  rewrite valid_chunks_index_error by (cbn [List.length] in *; lia).
  split; [done|]. apply embed_chunks_unchanged_index.
Qed.

(** A transcript of 251 words has two chunks, the second one the single
    word [w]; the embedding endpoint fails on that chunk only.  Indexing
    raises, and the run of the pipeline ends under [failed]. *)
Lemma add_transcript_partial_failure_witness :
  List.length (_chunk_text (text_of_words 251)) = 2
  /\ (add_transcript (with_embedder embedder_fails_on_w sample_env) 1
        (text_of_words 251) sample_world).1 = Raise IndexError
  /\ collection (add_transcript (with_embedder embedder_fails_on_w sample_env) 1
                   (text_of_words 251) sample_world).2 = [].
Proof.
  split; [vm_compute; reflexivity|].
  apply (add_transcript_partial_failure
           (with_embedder embedder_fails_on_w sample_env) 1
           (text_of_words 251) sample_world sample_embedding).
  - intros t c Hc. unfold embedding_of, sample_embedding.
    cbn [embedder with_embedder]. unfold embedder_fails_on_w.
    destruct (String.eqb c "w"); reflexivity.
  - exists "w". split; [|reflexivity]. vm_compute. tauto.
  - exists (text_of_words 251). split; [|vm_compute; discriminate].
    vm_compute. tauto.
Defined.

Lemma valid_chunks_all (emb : string -> json) (pre : list json)
  (chunks : list string) :
  Forall (fun c => embedded (emb c) = true) chunks ->
  valid_chunks_from (List.length pre) chunks (pre ++ map emb chunks) = Ok chunks.
Proof.
  intros Hall. revert pre. induction Hall as [|c chunks Hc Hall IH]; intros pre; [done|].
  cbn [valid_chunks_from map]. rewrite list_lookup_middle by done.
  replace (pre ++ emb c :: map emb chunks)%list
    with ((pre ++ [emb c]) ++ map emb chunks)%list by by rewrite <- app_assoc.
  replace (S (List.length pre)) with (List.length (pre ++ [emb c])%list)
    by (rewrite length_app; cbn; lia).
  rewrite IH. cbn [rbind]. unfold embedded in Hc.
  by destruct (is_none (emb c)).
Qed.

Lemma filter_embedded_all (emb : string -> json) (chunks : list string) :
  Forall (fun c => embedded (emb c) = true) chunks ->
  List.filter embedded (map emb chunks) = map emb chunks.
Proof.
  induction 1 as [|c chunks Hc Hall IH]; [done|].
  cbn [map List.filter]. by rewrite Hc, IH.
Qed.

Lemma collection_add_result (E : env) (embeddings : list json)
  (documents : list string) (metadatas : list Z) (ids : list string) (w : world) :
  collection (collection_add E embeddings documents metadatas ids w).2
  = collection w
  \/ collection (collection_add E embeddings documents metadatas ids w).2
     = (collection w
        ++ List.filter (fun e => negb (has_id (collection w) (entry_id e)))
             (zip_entries ids embeddings documents metadatas))%list.
Proof.
  destruct w as [ms fs cs t l].
  cbv [collection_add external bind clock entries set_entries emit ret raise].
  cbn [tick meetings files collection log].
  destruct (fault E t); cbn [tick meetings files collection log snd]; [by left|].
  destruct (_ && _); cbn [snd collection]; [by right|by left].
Qed.

Lemma collection_add_no_fault (E : env) (embeddings : list json)
  (documents : list string) (metadatas : list Z) (ids : list string) (w : world) :
  (forall t, fault E t = None) ->
  List.length embeddings = List.length ids ->
  List.length documents = List.length ids ->
  List.length metadatas = List.length ids ->
  (collection_add E embeddings documents metadatas ids w).1 = Ok tt
  /\ collection (collection_add E embeddings documents metadatas ids w).2
     = (collection w
        ++ List.filter (fun e => negb (has_id (collection w) (entry_id e)))
             (zip_entries ids embeddings documents metadatas))%list.
Proof.
  intros Hf H1 H2 H3. destruct w as [ms fs cs t l].
  cbv [collection_add external bind clock entries set_entries emit ret raise].
  cbn [tick meetings files collection log]. rewrite Hf.
  cbn [tick meetings files collection log snd].
  by rewrite H1, H2, H3, !Nat.eqb_refl.
Qed.

Lemma zip_entries_tagged (mid : Z) (embeddings : list json) (vs : list string)
  (n : nat) (e : entry) :
  In e (zip_entries (map (doc_id mid) (seq n (List.length vs))) embeddings vs
          (map (fun _ => mid) vs)) ->
  tagged mid e.
Proof.
  revert n embeddings. induction vs as [|v vs IH]; intros n embeddings; [done|].
  cbn [List.length seq map zip_entries]. destruct embeddings as [|x xs]; [done|].
  intros [<-|Hin].
  - split; [done|]. by exists n.
  - by apply (IH (S n) xs).
Qed.

(** Whatever the collaborators do, the entries that [add_transcript] adds
    for a meeting carry the tag and the identifiers of that meeting. *)
Lemma add_transcript_tagged (E : env) (mid : Z) (T : string) (w : world)
  (e : entry) :
  In e (collection (add_transcript E mid T w).2) ->
  In e (collection w) \/ tagged mid e.
Proof.
  unfold add_transcript. destruct (_chunk_text T) as [|c cs]; [by left|].
  unfold bind at 1.
  pose proof (embed_chunks_unchanged_index E (c :: cs) w) as Hu.
  destruct (embed_chunks E (c :: cs) w) as [[embeddings|x] w1];
    cbn [snd] in *; [|rewrite Hu; by left].
  destruct embeddings as [|e0 es]; [unfold ret; cbn [snd]; rewrite Hu; by left|].
  unfold bind at 1, lift.
  destruct (valid_chunks_from 0 (c :: cs) (e0 :: es)) as [vs|x];
    [|cbn [snd]; rewrite Hu; by left].
  destruct (collection_add_result E (e0 :: es) vs (map (fun _ => mid) vs)
              (map (doc_id mid) (seq 0 (List.length vs))) w1) as [-> | ->];
    rewrite Hu; [by left|].
  rewrite in_app_iff, filter_In. intros [Hin|[Hin _]]; [by left|right].
  by apply zip_entries_tagged in Hin.
Qed.

(** When the embedding of every chunk succeeds and the index does not
    raise, every chunk is stored with its own embedding, the tag of the
    meeting and the identifier made of the meeting and its position. *)
Lemma add_transcript_all_succeed (E : env) (mid : Z) (T : string) (w : world)
  (emb : string -> json) :
  (forall t c, In c (_chunk_text T) -> embedding_of E t c = Ok (emb c)) ->
  Forall (fun c => embedded (emb c) = true) (_chunk_text T) ->
  (forall t, fault E t = None) ->
  (add_transcript E mid T w).1 = Ok tt
  /\ collection (add_transcript E mid T w).2
     = (collection w
        ++ List.filter (fun e => negb (has_id (collection w) (entry_id e)))
             (chunk_entries mid emb (_chunk_text T)))%list.
Proof.
  intros Hemb Hall Hfault. destruct (_chunk_text T) as [|c cs] eqn:Hc.
  - unfold add_transcript. rewrite Hc. cbn. by rewrite app_nil_r.
  - rewrite (add_transcript_unfold E mid T w emb); rewrite ?Hc; [|done..].
    cbv zeta. rewrite (filter_embedded_all emb _ Hall).
    pose proof (valid_chunks_all emb [] (c :: cs) Hall) as Hv.
    cbn [List.length app] in Hv. cbn [map] in *. rewrite Hv.
    pose proof (embed_chunks_unchanged_index E (c :: cs) w) as Hu.
    destruct (collection_add_no_fault E (emb c :: map emb cs) (c :: cs)
                (map (fun _ => mid) (c :: cs))
                (map (doc_id mid) (seq 0 (List.length (c :: cs))))
                (embed_chunks E (c :: cs) w).2 Hfault) as [Hr Hcol].
    { cbn [List.length]. by rewrite !length_map, length_seq. }
    { by rewrite !length_map, length_seq. }
    { by rewrite !length_map, length_seq. }
    split; [exact Hr|]. rewrite Hcol, Hu. done.
Qed.

(** ** Search *)

Lemma nearest_scoped (E : env) (q : json) (n : nat) (A : Z) (es : list entry) :
  Forall (fun x => In x es /\ meeting_tag x = A) (nearest E q n A es).
Proof.
  apply List.Forall_forall. intros x Hx. unfold nearest in Hx.
  match type of Hx with In _ (take _ ?l) =>
    assert (In x l) as Hx'
      by (rewrite <- (take_drop n l); apply in_or_app; by left)
  end.
  clear Hx. rename Hx' into Hx.
  apply (Permutation_in _ (sort_by_Permutation _ _)) in Hx.
  apply filter_In in Hx as [Hin Htag]. by apply Z.eqb_eq in Htag.
Qed.

Lemma generate_eq (E : env) (results : list entry) (query : string) (w : world) :
  generate E results query w
  = (match read_stream E (llm E (tick w) (AnswerPrompt (context_of results) query)) with
     | Ok full_text => Ok full_text
     | Raise e => if caught e then Ok generation_error_answer else Raise e
     end,
     World (meetings w) (files w) (collection w) (S (tick w))
       (log w ++ [ELLM (AnswerPrompt (context_of results) query)])).
Proof.
  destruct w as [ms fs cs t l]. cbv [generate bind clock emit].
  cbn [tick meetings files collection log].
  destruct (read_stream _ _) as [v|e]; [done|]. by destruct (caught e).
Qed.

Lemma collection_query_eq (E : env) (q : json) (n : nat) (A : Z) (w : world) :
  collection_query E q n A w
  = (match fault E (tick w) with
     | Some e => Raise e
     | None => Ok (nearest E q n A (collection w))
     end,
     World (meetings w) (files w) (collection w) (S (tick w))
       (log w ++ [EIndexQuery A n])).
Proof.
  destruct w as [ms fs cs t l].
  cbv [collection_query external bind clock entries emit ret raise].
  cbn [tick meetings files collection log]. by destruct (fault E t).
Qed.

(** [search], step by step. *)
Lemma search_eq (E : env) (A : Z) (query : string) (n : nat) (w : world) :
  search_n E A query n w
  = let w1 := World (meetings w) (files w) (collection w) (S (tick w))
                (log w ++ [EEmbed query]) in
    match embedding_of E (tick w) query with
    | Raise e => (Raise e, w1)
    | Ok v =>
        if truthy v then
          let w2 := World (meetings w) (files w) (collection w) (S (S (tick w)))
                      ((log w ++ [EEmbed query]) ++ [EIndexQuery A n]) in
          match fault E (S (tick w)) with
          | Some e => (Raise e, w2)
          | None =>
              match nearest E v n A (collection w) with
              | [] => (Ok no_context_answer, w2)
              | x :: xs => generate E (x :: xs) query w2
              end
          end
        else (Ok no_embedding_answer, w1)
    end.
Proof.
  unfold search_n, retrieve. unfold bind at 1 2. rewrite _get_embedding_eq.
  cbv zeta. destruct (embedding_of E (tick w) query) as [v|e]; [|done].
  destruct (truthy v); cbn [negb]; [|done].
  unfold bind at 1. rewrite collection_query_eq.
  cbn [tick meetings files collection log].
  destruct (fault E (S (tick w))); [done|].
  by destruct (nearest E v n A (collection w)).
Qed.

(** C9. A search for meeting [A] queries the index with the filter
    [meeting_id = A] only, and the context it retrieves and sends to the
    language model is made of stored entries tagged [A]: an entry tagged
    with another meeting [B] is never part of it, whatever its text.
    Indexing, on its side, tags every entry it adds with its meeting. *)
Theorem search_scoped_to_meeting (E : env) (A : Z) (query : string) (w : world) :
  (exists evs, log (search E A query w).2 = (log w ++ evs)%list
     /\ Forall (scoped_event A (collection w)) evs)
  /\ (forall results, (retrieve E A query 3 w).1 = Ok (inr results) ->
        Forall (fun x => In x (collection w) /\ meeting_tag x = A) results
        /\ forall B x, B <> A -> meeting_tag x = B -> ~ In x results)
  /\ (forall B T w0 x, In x (collection (add_transcript E B T w0).2) ->
        In x (collection w0) \/ tagged B x).
Proof.
  split_and!.
  - unfold search. rewrite search_eq. cbv zeta.
    destruct (embedding_of E (tick w) query) as [v|e];
      [|exists [EEmbed query]; split; [done|by repeat constructor]].
    destruct (truthy v);
      [|exists [EEmbed query]; split; [done|by repeat constructor]].
    destruct (fault E (S (tick w))).
    { exists [EEmbed query; EIndexQuery A 3]. cbn [snd log].
      split; [by rewrite <- app_assoc|by repeat constructor]. }
    pose proof (nearest_scoped E v 3 A (collection w)) as Hn.
    destruct (nearest E v 3 A (collection w)) as [|x xs] eqn:Hnear.
    { exists [EEmbed query; EIndexQuery A 3]. cbn [snd log].
      split; [by rewrite <- app_assoc|by repeat constructor]. }
    rewrite generate_eq. cbn [snd log].
    exists [EEmbed query; EIndexQuery A 3;
            ELLM (AnswerPrompt (context_of (x :: xs)) query)].
    split; [by rewrite <- !app_assoc|].
    repeat constructor. by exists (x :: xs).
  - intros results. unfold retrieve. unfold bind at 1.
    rewrite _get_embedding_eq.
    destruct (embedding_of E (tick w) query) as [v|e]; [|done].
    destruct (truthy v); cbn [negb]; [|done].
    unfold bind at 1. rewrite collection_query_eq.
    cbn [tick meetings files collection log].
    destruct (fault E (S (tick w))); [done|].
    pose proof (nearest_scoped E v 3 A (collection w)) as Hn.
    destruct (nearest E v 3 A (collection w)) as [|x xs]; [done|].
    intros [= <-]. split; [exact Hn|].
    intros B y HB Hy Hin. rewrite List.Forall_forall in Hn.
    destruct (Hn y Hin) as [_ Htag]. congruence.
  - intros B T w0 x. apply add_transcript_tagged.
Qed.

(** The same text is indexed for meetings 1 and 2; a search for meeting 1
    retrieves the entry of meeting 1 only. *)
Example search_two_meetings :
  collection two_meetings_world = [sample_entry 1; sample_entry 2]
  /\ (retrieve sample_env 1 "when do we meet" 3 two_meetings_world).1
     = Ok (inr [sample_entry 1])
  /\ (search sample_env 1 "when do we meet" two_meetings_world).1 = Ok "Monday.".
Proof. vm_compute. split_and!; reflexivity. Qed.

Lemma search_scoped_to_meeting_witness :
  Forall (fun x => In x (collection two_meetings_world) /\ meeting_tag x = 1%Z)
    [sample_entry 1]
  /\ ~ In (sample_entry 2) [sample_entry 1].
Proof.
  destruct (proj1 (proj2 (search_scoped_to_meeting sample_env 1 "when do we meet"
                            two_meetings_world))
              [sample_entry 1] eq_refl) as [H1 H2].
  split; [exact H1|]. apply (H2 2%Z); [discriminate|reflexivity].
Defined.

(** C6, as stated, fails: [search] raises when the embedding endpoint or
    the language-model endpoint answers with an error status. *)
Lemma search_raises :
  (search (with_embedder embedder_down sample_env) 1 "when do we meet"
     indexed_world).1 = Raise HTTPStatusError
  /\ (search (with_llm llm_down sample_env) 1 "when do we meet"
        indexed_world).1 = Raise HTTPStatusError.
Proof. vm_compute. split; reflexivity. Qed.

(** C6, amended.  When the embedding of the query fails with a request
    error, or comes back empty, [search] returns "Could not process your
    query." after the embedding call alone, with no call to the index or to
    the language model.  When the index returns no entry for the meeting,
    it returns the "couldn't find" sentence without calling the language
    model.  When the call to the language model fails with a request error
    or with text that is not JSON, it returns "There was an error
    generating an answer.".  An exception leaves [search] only if the
    embedding call, the index or the call to the language model raised one
    that is none of those handled. *)
Theorem search_answers (E : env) (A : Z) (query : string) (w : world) :
  (embedder E (tick w) query = PostFailed ->
     (search E A query w).1 = Ok no_embedding_answer
     /\ log (search E A query w).2 = (log w ++ [EEmbed query])%list)
  /\ (forall v, embedding_of E (tick w) query = Ok v -> truthy v = false ->
        (search E A query w).1 = Ok no_embedding_answer
        /\ log (search E A query w).2 = (log w ++ [EEmbed query])%list)
  /\ (forall v, embedding_of E (tick w) query = Ok v -> truthy v = true ->
        fault E (S (tick w)) = None ->
        nearest E v 3 A (collection w) = [] ->
        (search E A query w).1 = Ok no_context_answer
        /\ log (search E A query w).2
           = (log w ++ [EEmbed query; EIndexQuery A 3])%list)
  /\ (forall v e, embedding_of E (tick w) query = Ok v -> truthy v = true ->
        fault E (S (tick w)) = None ->
        nearest E v 3 A (collection w) <> [] ->
        read_stream E
          (llm E (S (S (tick w)))
             (AnswerPrompt (context_of (nearest E v 3 A (collection w))) query))
        = Raise e ->
        caught e = true ->
        (search E A query w).1 = Ok generation_error_answer)
  /\ (forall e, (search E A query w).1 = Raise e ->
        embedding_of E (tick w) query = Raise e
        \/ fault E (S (tick w)) = Some e
        \/ (caught e = false
            /\ exists results,
                 read_stream E
                   (llm E (S (S (tick w))) (AnswerPrompt (context_of results) query))
                 = Raise e)).
Proof.
  unfold search. rewrite search_eq. cbv zeta. split_and!.
  - intros Hpost. unfold embedding_of. by rewrite Hpost.
  - intros v -> ->. done.
  - intros v -> -> -> ->. cbn [fst snd log]. by rewrite <- app_assoc.
  - intros v e -> -> -> Hne Hs Hc.
    destruct (nearest E v 3 A (collection w)) as [|x xs]; [done|].
    rewrite generate_eq. cbn [tick fst]. by rewrite Hs, Hc.
  - intros e. destruct (embedding_of E (tick w) query) as [v|e0];
      [|intros [= ->]; by left].
    destruct (truthy v); [|done].
    destruct (fault E (S (tick w))) as [e1|]; [intros [= ->]; by right; left|].
    destruct (nearest E v 3 A (collection w)) as [|x xs]; [done|].
    rewrite generate_eq. cbn [tick fst].
    destruct (read_stream _ _) as [s|e2] eqn:Hs; [done|].
    destruct (caught e2) eqn:Hc; [done|]. intros [= ->].
    right; right. split; [done|]. by exists (x :: xs).
Qed.

(** The three fixed answers on the sample: the embedding endpoint cannot
    be reached; nothing is indexed for the meeting; the language model
    garbles its answer. *)
Lemma search_answers_witness :
  ((search (with_embedder embedder_unreachable sample_env) 1 "when do we meet"
      indexed_world).1 = Ok "Could not process your query."
   /\ log (search (with_embedder embedder_unreachable sample_env) 1
             "when do we meet" indexed_world).2
      = (log indexed_world ++ [EEmbed "when do we meet"])%list)
  /\ ((search sample_env 1 "when do we meet" sample_world).1
      = Ok "I couldn't find any information related to your query in this meeting's transcript."
      /\ log (search sample_env 1 "when do we meet" sample_world).2
         = (log sample_world
            ++ [EEmbed "when do we meet"; EIndexQuery 1 3])%list)
  /\ (search (with_llm llm_garbles sample_env) 1 "when do we meet"
        indexed_world).1 = Ok "There was an error generating an answer.".
Proof.
  split; [|split].
  - exact (proj1 (search_answers (with_embedder embedder_unreachable sample_env)
                    1 "when do we meet" indexed_world) eq_refl).
  - exact (proj1 (proj2 (proj2 (search_answers sample_env 1 "when do we meet"
                                   sample_world)))
             (JArr [JNum 1; JNum 2]) eq_refl eq_refl eq_refl eq_refl).
  - refine (proj1 (proj2 (proj2 (proj2
              (search_answers (with_llm llm_garbles sample_env) 1
                 "when do we meet" indexed_world))))
              (JArr [JNum 1; JNum 2]) JSONDecodeError eq_refl eq_refl eq_refl
              _ eq_refl eq_refl).
    vm_compute. discriminate.
Defined.


(** * Further properties of the code *)

(** ** A segment that fails *)

Lemma run_tasks_raises (outcomes : list (result string)) (order : list nat)
  (futures : list (option string)) :
  (exists i e, In i order /\ outcomes !! i = Some (Raise e)) ->
  exists j e', run_tasks outcomes order futures = Raise e'
    /\ In j order /\ outcomes !! j = Some (Raise e').
Proof.
  revert futures. induction order as [|i0 order IH]; intros futures (i & e & Hi & He).
  - destruct Hi.
  - cbn [run_tasks]. destruct (outcomes !! i0) as [[text|e0]|] eqn:H0.
    + destruct Hi as [->|Hi]; [congruence|].
      destruct (IH (<[i0 := Some text]> futures)) as (j & e' & Hr & Hj & He');
        [by exists i, e|].
      exists j, e'. split_and!; [done|by right|done].
    + exists i0, e0. split_and!; [done|by left|done].
    + destruct Hi as [->|Hi]; [congruence|].
      destruct (IH futures) as (j & e' & Hr & Hj & He'); [by exists i, e|].
      exists j, e'. split_and!; [done|by right|done].
Qed.

(** [gather] raises as soon as one task fails, with the exception of a task
    that failed: no text is returned for the tasks that succeeded. *)
Lemma gather_raises (finish : nat -> nat) (outcomes : list (result string))
  (i : nat) (e : exn) :
  outcomes !! i = Some (Raise e) ->
  exists j e', gather finish outcomes = Raise e'
    /\ outcomes !! j = Some (Raise e').
Proof.
  intros He. unfold gather.
  destruct (run_tasks_raises outcomes
              (completion_order finish (List.length outcomes))
              (replicate (List.length outcomes) None))
    as (j & e' & Hr & _ & He').
  { exists i, e. split; [|done]. apply list_elem_of_In.
    apply completion_order_complete. by eapply lookup_lt_Some. }
  exists j, e'. by rewrite Hr.
Qed.

(** X1. When the speech model fails on one segment of a file, [transcribe]
    raises the exception of a segment that failed, whatever the other
    segments gave and whatever the order in which the tasks finish: there is
    no partial transcript. *)
Theorem transcribe_fails_whole (E : env) (filepath : string)
  (segments : list string) (i : nat) (segment : string) (e : exn) :
  split_audio E filepath = Ok segments ->
  segments !! i = Some segment ->
  whisper E segment = Raise e ->
  exists j segment' e',
    transcribe_result E filepath = Raise e'
    /\ segments !! j = Some segment'
    /\ whisper E segment' = Raise e'.
Proof.
  intros Hsplit Hi He. unfold transcribe_result. rewrite Hsplit. cbn [rbind].
  destruct (gather_raises (finish_time E) (map (_transcribe_chunk E) segments) i e)
    as (j & e' & Hg & Hj).
  { rewrite list_lookup_fmap, Hi. cbn. unfold _transcribe_chunk. by rewrite He. }
  rewrite list_lookup_fmap in Hj.
  destruct (segments !! j) as [segment'|] eqn:Hsj; [|done].
  cbn in Hj. unfold _transcribe_chunk in Hj.
  destruct (whisper E segment') as [texts|e''] eqn:Hw; [done|].
  cbn [rbind] in Hj. injection Hj as ->.
  exists j, segment', e'. by rewrite Hg.
Qed.

(** The second of three segments fails. *)
Lemma transcribe_fails_whole_witness :
  exists j segment' e',
    transcribe_result (with_whisper whisper_fails_on_wav1 sample_env)
      "uploads/a.mp3" = Raise e'
    /\ ["wav0"; "wav1"; "wav2"] !! j = Some segment'
    /\ whisper (with_whisper whisper_fails_on_wav1 sample_env) segment' = Raise e'.
Proof.
  exact (transcribe_fails_whole (with_whisper whisper_fails_on_wav1 sample_env)
           "uploads/a.mp3" ["wav0"; "wav1"; "wav2"] 1 "wav1"
           (ExternalError "RuntimeError") eq_refl eq_refl eq_refl).
Defined.

(** ** The table, call by call *)

Lemma get_alter_row_other (f : Meeting -> Meeting) (mid other : Z)
  (ms : list Meeting) :
  (forall m, id (f m) = id m) -> other <> mid ->
  get (alter_row f mid ms) other = get ms other.
Proof.
  intros Hid Hne. unfold get. induction ms as [|m ms IH]; [done|].
  cbn [alter_row]. destruct (id m =? mid)%Z eqn:Hm.
  - cbn [List.find]. rewrite Hid. apply Z.eqb_eq in Hm.
    destruct (id m =? other)%Z eqn:Ho; [|done].
    apply Z.eqb_eq in Ho. congruence.
  - cbn [List.find]. by rewrite IH.
Qed.

Lemma alter_row_length (f : Meeting -> Meeting) (mid : Z) (ms : list Meeting) :
  List.length (alter_row f mid ms) = List.length ms.
Proof.
  induction ms as [|m ms IH]; [done|]. cbn [alter_row].
  destruct (id m =? mid)%Z; cbn [List.length]; by rewrite ?IH.
Qed.

Lemma alter_row_missing (f : Meeting -> Meeting) (mid : Z) (ms : list Meeting) :
  get ms mid = None -> alter_row f mid ms = ms.
Proof.
  unfold get. induction ms as [|m ms IH]; [done|]. cbn [alter_row List.find].
  destruct (id m =? mid)%Z; [done|]. intros H. by rewrite IH.
Qed.

Lemma update_transcript_eq (E : env) (mid : Z) (text : string) (w : world) :
  update_transcript E mid text w
  = match fault E (tick w) with
    | Some e =>
        (Raise e,
         World (meetings w) (files w) (collection w) (S (tick w)) (log w))
    | None =>
        match get (meetings w) mid with
        | Some m =>
            (Ok (Some (with_transcript text m)),
             World (alter_row (with_transcript text) mid (meetings w)) (files w)
               (collection w) (S (tick w)) (log w))
        | None =>
            (Ok None,
             World (meetings w) (files w) (collection w) (S (tick w)) (log w))
        end
    end.
Proof.
  destruct w as [ms fs cs t l].
  cbv [update_transcript external bind clock rows set_rows emit ret raise].
  cbn [tick meetings files collection log].
  destruct (fault E t); cbn [tick meetings files collection log]; [done|].
  by destruct (get ms mid).
Qed.

Lemma update_insights_eq (E : env) (mid : Z) (insights : json) (w : world) :
  update_insights E mid insights w
  = let w1 := World (meetings w) (files w) (collection w) (S (tick w)) (log w) in
    match fault E (tick w) with
    | Some e => (Raise e, w1)
    | None =>
        match get (meetings w) mid with
        | Some m =>
            match insights with
            | JObj fields =>
                (Ok (Some (insights_row fields m)),
                 World (alter_row (insights_row fields) mid (meetings w))
                   (files w) (collection w) (S (tick w)) (log w))
            | _ => (Raise AttributeError, w1)
            end
        | None => (Ok None, w1)
        end
    end.
Proof.
  destruct w as [ms fs cs t l].
  cbv [update_insights external bind clock rows set_rows emit ret raise lift].
  cbn [tick meetings files collection log].
  destruct (fault E t); cbn [tick meetings files collection log]; [done|].
  destruct (get ms mid); [|done].
  destruct insights; try done. cbv [get_default insights_row field_or].
  repeat match goal with
         | |- context [dict_get ?k fields] => destruct (dict_get k fields)
         end; done.
Qed.

(** X2. [update_status], when the query and the commit do not raise: the
    row of the meeting is read back with the new status and all its other
    columns as they were, the rows of the other meetings are read back as
    before and no row is added or removed; for an identifier that has no
    row, [None] is returned, the table is left as it is and nothing is
    committed.  The row is returned when the refresh does not raise either;
    when the refresh raises, its exception leaves [update_status] with the
    new status stored. *)
Theorem update_status_round_trip (E : env) (mid : Z) (label : string) (w : world) :
  fault E (tick w) = None ->
  (fault E (S (tick w)) = None \/ get (meetings w) mid = None ->
     (update_status E mid label w).1
     = Ok (with_status label <$> get (meetings w) mid))
  /\ (forall m e, get (meetings w) mid = Some m ->
        fault E (S (tick w)) = Some e ->
        (update_status E mid label w).1 = Raise e)
  /\ get (meetings (update_status E mid label w).2) mid
     = with_status label <$> get (meetings w) mid
  /\ (forall m, get (meetings w) mid = Some m ->
        exists m', get (meetings (update_status E mid label w).2) mid = Some m'
          /\ status m' = label /\ id m' = mid /\ filename m' = filename m
          /\ transcript m' = transcript m /\ summary m' = summary m
          /\ action_items m' = action_items m /\ decisions m' = decisions m
          /\ keywords m' = keywords m /\ participants m' = participants m
          /\ sentiment m' = sentiment m)
  /\ (forall other, other <> mid ->
        get (meetings (update_status E mid label w).2) other
        = get (meetings w) other)
  /\ List.length (meetings (update_status E mid label w).2)
     = List.length (meetings w)
  /\ (get (meetings w) mid = None ->
        meetings (update_status E mid label w).2 = meetings w
        /\ log (update_status E mid label w).2 = log w).
Proof.
  intros Hf. rewrite update_status_eq, Hf.
  destruct (get (meetings w) mid) as [m|] eqn:Hg;
    cbn [fst snd meetings log fmap option_fmap option_map].
  - split_and!.
    + by intros [->|?].
    + by intros ? e _ ->.
    + by rewrite get_alter_row, Hg.
    + intros ? [= <-]. exists (with_status label m).
      rewrite get_alter_row, Hg by done. split_and!; try done.
      unfold get in Hg. apply find_some in Hg as [_ Hid].
      by apply Z.eqb_eq in Hid.
    + intros other Hne. by apply get_alter_row_other.
    + apply alter_row_length.
    + done.
  - split_and!; done.
Qed.

(** The row of meeting 1 passes from [processing] to [transcribing]. *)
Lemma update_status_round_trip_witness :
  (update_status sample_env 1 "transcribing" sample_world).1
  = Ok (Some (with_status "transcribing" sample_meeting))
  /\ get (meetings (update_status sample_env 1 "transcribing" sample_world).2) 1
     = Some (with_status "transcribing" sample_meeting).
Proof.
  destruct (update_status_round_trip sample_env 1 "transcribing" sample_world
              eq_refl) as (H1 & _ & H2 & _).
  exact (conj (H1 (or_introl eq_refl)) H2).
Defined.

(** X3. [update_insights], when the session does not raise and the meeting
    has a row: for a dict, each of the six insight columns receives the
    value of its key, [None] for a missing [summary] or [sentiment] and the
    empty list for a missing list, while the identifier, the file name, the
    status and the transcript stay as they were; the record that [extract]
    returns after an error is stored with an empty list of participants.
    For a value that is not a dict, [AttributeError] is raised and the table
    is left as it is. *)
Theorem update_insights_defaults (E : env) (mid : Z) (insights : json)
  (w : world) (m : Meeting) :
  fault E (tick w) = None ->
  get (meetings w) mid = Some m ->
  (forall fields, insights = JObj fields ->
     exists m',
       (update_insights E mid insights w).1 = Ok (Some m')
       /\ get (meetings (update_insights E mid insights w).2) mid = Some m'
       /\ summary m' = field_or fields "summary" JNull
       /\ action_items m' = field_or fields "action_items" (JArr [])
       /\ decisions m' = field_or fields "decisions" (JArr [])
       /\ keywords m' = field_or fields "keywords" (JArr [])
       /\ participants m' = field_or fields "participants" (JArr [])
       /\ sentiment m' = field_or fields "sentiment" JNull
       /\ id m' = id m /\ filename m' = filename m
       /\ status m' = status m /\ transcript m' = transcript m)
  /\ (insights = error_insights ->
        exists m',
          get (meetings (update_insights E mid insights w).2) mid = Some m'
          /\ summary m' = JStr "Error extracting insights."
          /\ sentiment m' = JStr "Unknown"
          /\ action_items m' = JArr [] /\ decisions m' = JArr []
          /\ keywords m' = JArr [] /\ participants m' = JArr [])
  /\ ((forall fields, insights <> JObj fields) ->
        (update_insights E mid insights w).1 = Raise AttributeError
        /\ meetings (update_insights E mid insights w).2 = meetings w)
  /\ (forall other, other <> mid ->
        get (meetings (update_insights E mid insights w).2) other
        = get (meetings w) other).
Proof.
  intros Hf Hg. rewrite update_insights_eq, Hf, Hg. cbv zeta.
  split_and!.
  - intros fields ->. exists (insights_row fields m). cbn [fst snd meetings].
    rewrite get_alter_row, Hg by done. by split_and!.
  - intros ->. unfold error_insights. exists (insights_row
      [("summary", JStr "Error extracting insights."); ("action_items", JArr []);
       ("decisions", JArr []); ("keywords", JArr []);
       ("sentiment", JStr "Unknown")] m).
    cbn [fst snd meetings]. rewrite get_alter_row, Hg by done. by split_and!.
  - intros Hno. destruct insights; try done. by destruct (Hno fields).
  - intros other Hne. destruct insights; try done. cbn [snd meetings].
    by apply get_alter_row_other.
Qed.

(** The empty dict is stored for meeting 1: [None] and empty lists. *)
Lemma update_insights_defaults_witness :
  exists m',
    (update_insights sample_env 1 (JObj []) sample_world).1 = Ok (Some m')
    /\ get (meetings (update_insights sample_env 1 (JObj []) sample_world).2) 1
       = Some m'
    /\ summary m' = JNull /\ action_items m' = JArr []
    /\ participants m' = JArr [] /\ status m' = "processing".
Proof.
  destruct (update_insights_defaults sample_env 1 (JObj []) sample_world
              sample_meeting eq_refl eq_refl) as (H & _).
  destruct (H [] eq_refl)
    as (m' & H1 & H2 & H3 & H4 & _ & _ & H7 & _ & _ & _ & H11 & _).
  exists m'. split_and!; done.
Defined.

(** ** One row at a time *)

Lemma alter_row_same (mid : Z) (ms : list Meeting) :
  alter_row (fun m => m) mid ms = ms.
Proof.
  induction ms as [|m ms IH]; [done|]. cbn [alter_row].
  destruct (id m =? mid)%Z; by rewrite ?IH.
Qed.

Lemma alter_row_then (f g : Meeting -> Meeting) (mid : Z) (ms : list Meeting) :
  (forall m, id (f m) = id m) ->
  alter_row g mid (alter_row f mid ms) = alter_row (fun m => g (f m)) mid ms.
Proof.
  intros Hid. induction ms as [|m ms IH]; [done|]. cbn [alter_row].
  destruct (id m =? mid)%Z eqn:Hm; cbn [alter_row].
  - by rewrite Hid, Hm.
  - by rewrite Hm, IH.
Qed.

Lemma alter_row_ext (f g : Meeting -> Meeting) (mid : Z) (ms : list Meeting) :
  (forall m, f m = g m) -> alter_row f mid ms = alter_row g mid ms.
Proof.
  intros Hfg. induction ms as [|m ms IH]; [done|]. cbn [alter_row].
  by rewrite Hfg, IH.
Qed.

Section Rows.
Context (keeps : (Meeting -> Meeting) -> Prop) (mid : Z).
Hypothesis keeps_id : forall f, keeps f -> forall m, id (f m) = id m.
Hypothesis keeps_same : keeps (fun m => m).
Hypothesis keeps_then :
  forall f g, keeps f -> keeps g -> keeps (fun m => g (f m)).

Lemma alters_row_same {A} (m : M A) :
  (forall w r w', m w = (r, w') -> meetings w' = meetings w) ->
  alters_row keeps mid m.
Proof.
  intros Hm w r w' H. exists (fun m => m). split; [done|].
  by rewrite alter_row_same, (Hm _ _ _ H).
Qed.

Lemma alters_row_appends {A} (ok : event -> bool) (m : M A) :
  appends ok m -> alters_row keeps mid m.
Proof.
  intros Hm. apply alters_row_same. intros w r w' H.
  by destruct (Hm _ _ _ H) as (? & _).
Qed.

Lemma alters_row_ret {A} (a : A) : alters_row keeps mid (ret a).
Proof. apply alters_row_same. by intros w r w' [= _ <-]. Qed.

Lemma alters_row_bind {A B} (m : M A) (k : A -> M B) :
  alters_row keeps mid m -> (forall a, alters_row keeps mid (k a)) ->
  alters_row keeps mid (bind m k).
Proof.
  intros Hm Hk w r w' (r1 & w1 & H1 & H2)%bind_inv.
  destruct (Hm _ _ _ H1) as (f & Hf & Hms).
  destruct r1 as [a|e].
  - destruct (Hk a _ _ _ H2) as (g & Hg & Hms').
    exists (fun m => g (f m)). split; [by apply keeps_then|].
    rewrite Hms', Hms. apply alter_row_then. by apply keeps_id.
  - destruct H2 as [_ ->]. by exists f.
Qed.

Lemma alters_row_try_except {A} (m : M A) (h : exn -> M A) :
  alters_row keeps mid m -> (forall e, alters_row keeps mid (h e)) ->
  alters_row keeps mid (try_except m h).
Proof.
  intros Hm Hh w r w'. unfold try_except.
  destruct (m w) as [[a|e] w1] eqn:H1; destruct (Hm _ _ _ H1) as (f & Hf & Hms).
  - intros [= _ <-]. by exists f.
  - intros H2. destruct (Hh e _ _ _ H2) as (g & Hg & Hms').
    exists (fun m => g (f m)). split; [by apply keeps_then|].
    rewrite Hms', Hms. apply alter_row_then. by apply keeps_id.
Qed.

Lemma alters_row_try_finally {A} (m : M A) (c : M unit) :
  alters_row keeps mid m -> alters_row keeps mid c ->
  alters_row keeps mid (try_finally m c).
Proof.
  intros Hm Hc w r w'. unfold try_finally.
  destruct (m w) as [r1 w1] eqn:H1. destruct (Hm _ _ _ H1) as (f & Hf & Hms).
  destruct (c w1) as [rc w2] eqn:H2. destruct (Hc _ _ _ H2) as (g & Hg & Hms').
  assert (meetings w2 = alter_row (fun m => g (f m)) mid (meetings w)) as Hw2.
  { rewrite Hms', Hms. apply alter_row_then. by apply keeps_id. }
  destruct rc; intros [= _ <-]; exists (fun m => g (f m));
    (split; [by apply keeps_then|done]).
Qed.

Lemma alters_row_update_status (E : env) (label : string) :
  keeps (with_status label) -> alters_row keeps mid (update_status E mid label).
Proof.
  intros Hk w r w'. rewrite update_status_eq.
  destruct (fault E (tick w));
    [intros [= _ <-]; exists (fun m => m); by rewrite alter_row_same|].
  destruct (get (meetings w) mid);
    intros [= _ <-]; [by exists (with_status label)|].
  exists (fun m => m); by rewrite alter_row_same.
Qed.

Lemma alters_row_update_transcript (E : env) (text : string) :
  keeps (with_transcript text) ->
  alters_row keeps mid (update_transcript E mid text).
Proof.
  intros Hk w r w'. rewrite update_transcript_eq.
  destruct (fault E (tick w));
    [intros [= _ <-]; exists (fun m => m); by rewrite alter_row_same|].
  destruct (get (meetings w) mid);
    intros [= _ <-]; [by exists (with_transcript text)|].
  exists (fun m => m); by rewrite alter_row_same.
Qed.

Lemma alters_row_update_insights (E : env) (insights : json) :
  (forall fields, keeps (insights_row fields)) ->
  alters_row keeps mid (update_insights E mid insights).
Proof.
  intros Hk w r w'. rewrite update_insights_eq. cbv zeta.
  destruct (fault E (tick w));
    [intros [= _ <-]; exists (fun m => m); by rewrite alter_row_same|].
  destruct (get (meetings w) mid);
    [|intros [= _ <-]; exists (fun m => m); by rewrite alter_row_same].
  destruct insights; intros [= _ <-];
    try (exists (fun m => m); by rewrite alter_row_same).
  by exists (insights_row fields).
Qed.

Lemma alters_row_cleanup (filepath : string) :
  alters_row keeps mid (run_cleanup filepath).
Proof.
  apply alters_row_same. intros w r w' H.
  destruct (run_cleanup_spec filepath w) as (wc & Hc & Hms & _).
  rewrite Hc in H. by injection H as _ <-.
Qed.

(** The steps of a run after the transcript has been stored. *)
Lemma alters_row_analysis (E : env) (T : string) :
  (forall label, keeps (with_status label)) ->
  (forall fields, keeps (insights_row fields)) ->
  alters_row keeps mid
    (update_status E mid "analyzing";;
     do insights <- extract E T;
     update_insights E mid insights;;
     add_transcript E mid T;;
     update_status E mid "completed";;
     ret tt).
Proof.
  intros Hs Hi.
  repeat first
    [ apply alters_row_ret
    | apply alters_row_update_status, Hs
    | apply alters_row_update_insights, Hi
    | apply (alters_row_appends _ _ (extract_appends _ _))
    | apply (alters_row_appends _ _ (add_transcript_appends _ _ _))
    | apply alters_row_bind
    | intros ? ].
Qed.

Lemma alters_row_run (E : env) (filepath : string) :
  (forall label, keeps (with_status label)) ->
  (forall text, keeps (with_transcript text)) ->
  (forall fields, keeps (insights_row fields)) ->
  alters_row keeps mid (run E mid filepath).
Proof.
  intros Hs Ht Hi. unfold run.
  apply alters_row_try_finally; [|apply alters_row_cleanup].
  apply alters_row_try_except.
  - unfold run_body.
    apply alters_row_bind; [apply alters_row_update_status, Hs|]. intros _.
    apply alters_row_bind;
      [apply (alters_row_appends _ _ (transcribe_appends _ _))|]. intros T.
    apply alters_row_bind; [apply alters_row_update_transcript, Ht|]. intros _.
    by apply alters_row_analysis.
  - intros _. apply alters_row_bind; [apply alters_row_update_status, Hs|].
    intros _. apply alters_row_ret.
Qed.

End Rows.

Lemma keeps_identity_then (f g : Meeting -> Meeting) :
  keeps_identity f -> keeps_identity g -> keeps_identity (fun m => g (f m)).
Proof.
  intros Hf Hg m. destruct (Hf m) as [? ?], (Hg (f m)) as [? ?].
  split; congruence.
Qed.

Lemma keeps_transcript_then (f g : Meeting -> Meeting) :
  keeps_transcript f -> keeps_transcript g ->
  keeps_transcript (fun m => g (f m)).
Proof.
  intros Hf Hg m. destruct (Hf m) as [? ?], (Hg (f m)) as [? ?].
  split; congruence.
Qed.

(** X4. A run for one meeting changes at most the row of that meeting,
    whatever the collaborators do: the table keeps its length, the row of
    every other identifier is read back as before, and the row of the
    meeting keeps its identifier and its file name. *)
Theorem run_touches_one_row (E : env) (mid : Z) (filepath : string) (w : world) :
  (exists f, keeps_identity f
     /\ meetings (run E mid filepath w).2 = alter_row f mid (meetings w))
  /\ List.length (meetings (run E mid filepath w).2) = List.length (meetings w)
  /\ (forall other, other <> mid ->
        get (meetings (run E mid filepath w).2) other = get (meetings w) other)
  /\ id <$> get (meetings (run E mid filepath w).2) mid
     = id <$> get (meetings w) mid
  /\ filename <$> get (meetings (run E mid filepath w).2) mid
     = filename <$> get (meetings w) mid.
Proof.
  destruct (alters_row_run keeps_identity mid (fun f Hf m => proj1 (Hf m))
              (fun m => conj eq_refl eq_refl) keeps_identity_then E filepath
              (fun _ _ => conj eq_refl eq_refl)
              (fun _ _ => conj eq_refl eq_refl)
              (fun _ _ => conj eq_refl eq_refl)
              w _ _ (surjective_pairing _)) as (f & Hf & Hms).
  assert (forall m, id (f m) = id m) as Hid by (intros m; apply Hf).
  split_and!.
  - by exists f.
  - rewrite Hms. apply alter_row_length.
  - intros other Hne. rewrite Hms. by apply get_alter_row_other.
  - rewrite Hms, get_alter_row by done.
    destruct (get (meetings w) mid) as [m|]; [|done]. cbn. by rewrite Hid.
  - rewrite Hms, get_alter_row by done.
    destruct (get (meetings w) mid) as [m|]; [|done]. cbn.
    by rewrite (proj2 (Hf m)).
Qed.

(** ** What a run stores *)

Lemma transcribe_eq (E : env) (filepath : string) (w : world) :
  transcribe E filepath w
  = (transcribe_result E filepath,
     World (meetings w) (files w) (collection w) (tick w)
       (log w ++ [ETranscribe filepath])).
Proof. by destruct w. Qed.

(** X5. Once the speech model has returned the transcript and the session
    has stored it (its first three calls, the commit and the refresh of
    [transcribing] and the commit of the transcript, do not raise), the
    transcript stays in the row of the meeting whatever happens afterwards:
    the extraction, the indexing and every later call to the session may
    fail, and the run may end under [failed], the row read back after the
    run still holds the transcript. *)
Theorem run_keeps_transcript (E : env) (mid : Z) (filepath : string)
  (w : world) (m : Meeting) (T : string) :
  (forall t, tick w <= t < tick w + 3 -> fault E t = None) ->
  get (meetings w) mid = Some m ->
  transcribe_result E filepath = Ok T ->
  transcript <$> get (meetings (run E mid filepath w).2) mid = Some (Some T).
Proof.
  intros Hno Hg HT.
  assert (fault E (tick w) = None) as Hf0 by (apply Hno; lia).
  assert (fault E (S (tick w)) = None) as Hf1 by (apply Hno; lia).
  assert (fault E (S (S (tick w))) = None) as Hf2 by (apply Hno; lia).
  set (rest := (update_status E mid "analyzing";;
                do insights <- extract E T;
                update_insights E mid insights;;
                add_transcript E mid T;;
                update_status E mid "completed";;
                ret tt) : M unit).
  set (handler := (fun _ : exn => update_status E mid "failed";; ret tt) : exn -> M unit).
  set (w3 := World (alter_row (with_transcript T) mid
                      (alter_row (with_status "transcribing") mid (meetings w)))
               (files w) (collection w) (S (S (S (tick w))))
               ((log w ++ [EStatus mid "transcribing"]) ++ [ETranscribe filepath])).
  assert (run E mid filepath w
          = try_finally (try_except rest handler) (run_cleanup filepath) w3) as ->.
  { unfold run, try_finally, try_except, run_body.
    unfold bind at 1. rewrite update_status_eq, Hf0, Hg, Hf1.
    unfold bind at 1. rewrite transcribe_eq, HT.
    cbn [meetings files collection tick log].
    unfold bind at 1. rewrite update_transcript_eq.
    cbn [meetings files collection tick log]. rewrite Hf2.
    rewrite get_alter_row, Hg by done. cbn [fmap option_fmap option_map].
    done. }
  assert (alters_row keeps_transcript mid
            (try_finally (try_except rest handler) (run_cleanup filepath))) as Ha.
  { pose proof (fun f (Hf : keeps_transcript f) m => proj1 (Hf m)) as Kid.
    pose proof (fun m : Meeting => conj (@eq_refl _ (id m)) (@eq_refl _ (transcript m)))
      as Ksame.
    apply alters_row_try_finally; try done; try apply keeps_transcript_then.
    - apply alters_row_try_except; try done; try apply keeps_transcript_then.
      + apply alters_row_analysis; try done; try apply keeps_transcript_then.
      + intros e. unfold handler.
        apply alters_row_bind; try done; try apply keeps_transcript_then.
        * by apply alters_row_update_status.
        * intros _. by apply alters_row_ret.
    - by apply alters_row_cleanup. }
  destruct (Ha w3 _ _ (surjective_pairing _)) as (f & Hf & Hms).
  rewrite Hms, get_alter_row by (intros x; apply Hf).
  subst w3. cbn [meetings]. rewrite !get_alter_row, Hg by done.
  cbn [fmap option_fmap option_map]. by rewrite (proj2 (Hf _)).
Qed.

(** The embedding endpoint is down: the run ends under [failed], and the
    transcript is in the row. *)
Lemma run_keeps_transcript_witness :
  labels (log (run (with_embedder embedder_down sample_env) 1 "uploads/a.mp3"
                 sample_world).2)
  = ["transcribing"; "analyzing"; "failed"]
  /\ transcript
       <$> get (meetings (run (with_embedder embedder_down sample_env) 1
                            "uploads/a.mp3" sample_world).2) 1
     = Some (Some "we meet on monday at noon").
Proof.
  split; [vm_compute; reflexivity|].
  exact (run_keeps_transcript (with_embedder embedder_down sample_env) 1
           "uploads/a.mp3" sample_world sample_meeting
           "we meet on monday at noon" (fun _ _ => eq_refl) eq_refl eq_refl).
Defined.

(** X6. When the audio cannot be decoded or the speech model fails, and the
    session works (its four calls, the commit and the refresh of each of
    the two status updates, do not raise), the run returns normally and all
    it has done is this: the status of the meeting was committed as
    [transcribing] and then as [failed], the row keeping its other columns,
    so no transcript and no insight is stored; the language model, the
    embedding endpoint and the index were not called; the index is as
    before; the upload was removed and the session closed. *)
Theorem run_transcription_fails (E : env) (mid : Z) (filepath : string)
  (w : world) (m : Meeting) (e : exn) :
  (forall t, tick w <= t < tick w + 4 -> fault E t = None) ->
  get (meetings w) mid = Some m ->
  transcribe_result E filepath = Raise e ->
  (run E mid filepath w).1 = Ok tt
  /\ get (meetings (run E mid filepath w).2) mid = Some (with_status "failed" m)
  /\ meetings (run E mid filepath w).2
     = alter_row (with_status "failed") mid (meetings w)
  /\ collection (run E mid filepath w).2 = collection w
  /\ files (run E mid filepath w).2 = files w ∖ {[filepath]}
  /\ tick (run E mid filepath w).2 = tick w + 4
  /\ log (run E mid filepath w).2
     = (log w ++ [EStatus mid "transcribing"; ETranscribe filepath;
                  EStatus mid "failed"]
          ++ cleanup_events filepath (files w))%list.
Proof.
  intros Hf Hg He.
  assert (fault E (tick w) = None) as Hf0 by (apply Hf; lia).
  assert (fault E (S (tick w)) = None) as Hf1 by (apply Hf; lia).
  assert (fault E (S (S (tick w))) = None) as Hf2 by (apply Hf; lia).
  assert (fault E (S (S (S (tick w)))) = None) as Hf3 by (apply Hf; lia).
  set (w3 := World (alter_row (with_status "failed") mid
                      (alter_row (with_status "transcribing") mid (meetings w)))
               (files w) (collection w) (S (S (S (S (tick w)))))
               (((log w ++ [EStatus mid "transcribing"])
                   ++ [ETranscribe filepath]) ++ [EStatus mid "failed"])).
  assert (try_except (run_body E mid filepath)
            (fun _ => update_status E mid "failed";; ret tt) w = (Ok tt, w3))
    as Hguard.
  { unfold try_except, run_body.
    unfold bind at 1. rewrite update_status_eq, Hf0, Hg, Hf1.
    unfold bind at 1. rewrite transcribe_eq, He.
    unfold bind at 1. rewrite update_status_eq.
    cbn [meetings files collection tick log]. rewrite Hf2, Hf3.
    rewrite get_alter_row, Hg by done. cbn [fmap option_fmap option_map].
    done. }
  destruct (run_cleanup_spec filepath w3) as (wc & Hc & Hms & Hfs & Hlog).
  unfold run, try_finally. rewrite Hguard, Hc. cbn [fst snd].
  assert (meetings w3 = alter_row (with_status "failed") mid (meetings w)) as Hrow.
  { subst w3. cbn [meetings]. rewrite alter_row_then by done.
    by apply alter_row_ext. }
  split_and!.
  - done.
  - by rewrite Hms, Hrow, get_alter_row, Hg.
  - by rewrite Hms.
  - destruct w3 as [ms3 fs3 cs3 t3 l3] eqn:Hw3.
    revert Hc. subst w3.
    cbv [run_cleanup bind path_exists remove close emit ret].
    cbn [tick meetings files collection log].
    injection Hw3 as _ _ <- _ _.
    by destruct (bool_decide _); intros [= <-].
  - by rewrite Hfs.
  - destruct w3 as [ms3 fs3 cs3 t3 l3] eqn:Hw3.
    revert Hc. subst w3.
    cbv [run_cleanup bind path_exists remove close emit ret].
    cbn [tick meetings files collection log].
    injection Hw3 as _ _ _ <- _.
    destruct (bool_decide _); intros [= <-]; cbn [tick]; lia.
  - rewrite Hlog. subst w3. cbn [log files]. by rewrite <- !app_assoc.
Qed.

(** The speech model fails on every segment of the upload of meeting 1. *)
Lemma run_transcription_fails_witness :
  (run (with_whisper no_speech sample_env) 1 "uploads/a.mp3" sample_world).1
  = Ok tt
  /\ get (meetings (run (with_whisper no_speech sample_env) 1 "uploads/a.mp3"
                      sample_world).2) 1
     = Some (with_status "failed" sample_meeting)
  /\ log (run (with_whisper no_speech sample_env) 1 "uploads/a.mp3"
            sample_world).2
     = [EStatus 1 "transcribing"; ETranscribe "uploads/a.mp3";
        EStatus 1 "failed"; ERemove "uploads/a.mp3"; EClose].
Proof.
  destruct (run_transcription_fails (with_whisper no_speech sample_env) 1
              "uploads/a.mp3" sample_world sample_meeting
              (ExternalError "RuntimeError") (fun _ _ => eq_refl) eq_refl
              eq_refl)
    as (H1 & H2 & _ & _ & _ & _ & H7).
  split; [exact H1|]. split; [exact H2|]. rewrite H7. vm_compute. reflexivity.
Defined.

(** ** What a search leaves alone *)

(** X7. A search reads and never writes: whatever the collaborators answer,
    and whether it returns or raises, the table of meetings, the files and
    the index are after the search what they were before it.  It calls the
    embedding endpoint once, then at most once the index, then at most once
    the language model, and nothing else. *)
Theorem search_read_only (E : env) (A : Z) (query : string) (w : world) :
  meetings (search E A query w).2 = meetings w
  /\ files (search E A query w).2 = files w
  /\ collection (search E A query w).2 = collection w
  /\ exists evs,
       log (search E A query w).2 = (log w ++ evs)%list
       /\ tick (search E A query w).2 = tick w + List.length evs
       /\ (evs = [EEmbed query]
           \/ evs = [EEmbed query; EIndexQuery A 3]
           \/ exists context_str,
                evs = [EEmbed query; EIndexQuery A 3;
                       ELLM (AnswerPrompt context_str query)]).
Proof.
  unfold search. rewrite search_eq. cbv zeta.
  destruct (embedding_of E (tick w) query) as [v|e];
    cbn [snd meetings files collection log tick].
  2:{ split_and!; try done. exists [EEmbed query]. cbn [List.length].
      split_and!; [done|lia|by left]. }
  destruct (truthy v); cbn [snd meetings files collection log tick].
  2:{ split_and!; try done. exists [EEmbed query]. cbn [List.length].
      split_and!; [done|lia|by left]. }
  destruct (fault E (S (tick w))); cbn [snd meetings files collection log tick].
  { split_and!; try done. exists [EEmbed query; EIndexQuery A 3].
    cbn [List.length]. rewrite <- app_assoc.
    split_and!; [done|lia|right; by left]. }
  destruct (nearest E v 3 A (collection w)) as [|x xs] eqn:Hn;
    cbn [snd meetings files collection log tick].
  { split_and!; try done. exists [EEmbed query; EIndexQuery A 3].
    cbn [List.length]. rewrite <- app_assoc.
    split_and!; [done|lia|right; by left]. }
  rewrite generate_eq. cbn [snd meetings files collection log tick].
  split_and!; try done.
  exists [EEmbed query; EIndexQuery A 3;
          ELLM (AnswerPrompt (context_of (x :: xs)) query)].
  cbn [List.length]. rewrite <- !app_assoc.
  split_and!; [done|lia|right; right; by eexists].
Qed.

(** ** Segments of the audio *)

Lemma split_audio_from {A} (audio : list A) (c fuel start : nat) :
  0 < c -> List.length audio <= fuel + start ->
  concat (map (fun i => slice audio i (i + c))
            (range_from fuel start (List.length audio) c))
  = drop start audio.
Proof.
  intros Hc. revert start.
  induction fuel as [|fuel IH]; intros start Hfuel; cbn [range_from].
  - cbn. symmetry. apply drop_ge. lia.
  - destruct (Nat.ltb_spec start (List.length audio)) as [Hlt|Hge].
    + cbn [map concat]. rewrite IH by lia. rewrite slice_from.
      rewrite <- (take_drop c (drop start audio)) at 2.
      by rewrite drop_drop.
    + cbn. symmetry. apply drop_ge. lia.
Qed.

(** X8. [_split_audio] with a positive segment length cuts the audio into
    consecutive segments that, put end to end, give the audio back: nothing
    is lost, repeated or reordered.  There are [ceil(len / length)] of them;
    segment [k] starts at [k * length]; every segment but the last has the
    full length, the last one is not empty; an empty audio gives no segment
    at all. *)
Theorem split_audio_partition {A} (audio : list A) (chunk_length_ms : nat) :
  0 < chunk_length_ms ->
  concat (_split_audio audio chunk_length_ms) = audio
  /\ List.length (_split_audio audio chunk_length_ms)
     = (List.length audio + chunk_length_ms - 1) / chunk_length_ms
  /\ (forall k seg, _split_audio audio chunk_length_ms !! k = Some seg ->
        seg = take chunk_length_ms (drop (k * chunk_length_ms) audio)
        /\ 1 <= List.length seg <= chunk_length_ms
        /\ (S k < List.length (_split_audio audio chunk_length_ms) ->
            List.length seg = chunk_length_ms))
  /\ (audio = [] -> _split_audio audio chunk_length_ms = []).
Proof.
  intros Hc. unfold _split_audio. split_and!.
  - unfold range. rewrite split_audio_from by lia. apply drop_0.
  - rewrite length_map. by apply range_length.
  - intros k seg Hk. rewrite list_lookup_fmap, range_lookup in Hk by done.
    destruct (Nat.ltb_spec (k * chunk_length_ms) (List.length audio)) as [Hlt|];
      [|done].
    cbn in Hk. injection Hk as <-. rewrite slice_from.
    split; [done|]. rewrite length_take, length_drop. split; [lia|].
    rewrite length_map. intros Hnext.
    apply lookup_lt_is_Some_2 in Hnext as [i Hi].
    rewrite range_lookup in Hi by done.
    destruct (Nat.ltb_spec (S k * chunk_length_ms) (List.length audio));
      [|done].
    lia.
  - by intros ->.
Qed.

(** Five frames in segments of two. *)
Lemma split_audio_partition_witness :
  _split_audio [10; 11; 12; 13; 14] 2 = [[10; 11]; [12; 13]; [14]]
  /\ concat (_split_audio [10; 11; 12; 13; 14] 2) = [10; 11; 12; 13; 14]
  /\ List.length (_split_audio [10; 11; 12; 13; 14] 2) = 3.
Proof.
  destruct (split_audio_partition [10; 11; 12; 13; 14] 2 ltac:(lia))
    as (H1 & H2 & _).
  split; [reflexivity|]. split; [exact H1|exact H2].
Defined.

(** ** What leaves [extract] *)






Lemma frequencies_not_str (ks : list json) (tl : string) :
  (exists k, In k ks /\ forall s, k <> JStr s) ->
  frequencies ks tl = Raise AttributeError.
Proof.
  intros (k & Hin & Hk). induction ks as [|k0 ks IH]; [done|].
  destruct k0; cbn [frequencies]; try done.
  destruct Hin as [<-|Hin]; [by destruct (Hk s)|].
  by rewrite IH.
Qed.

(** X10. When the model's answer is an object whose [keywords] is a list
    with an entry that is not a string (a number, [null], a nested list or
    object), [extract] does not return: counting the keywords raises
    [AttributeError], which the [except] clause does not handle, whatever
    the other keywords and the other fields are. *)
Theorem extract_keyword_not_str (E : env) (T : string) (w : world)
  (text : string) (fields : list (string * json)) (ks : list json) :
  read_stream E (llm E (tick w) (InsightPrompt T)) = Ok text ->
  json_loads E text = Some (JObj fields) ->
  dict_get "keywords" fields = Some (JArr ks) ->
  (exists k, In k ks /\ forall s, k <> JStr s) ->
  (extract E T w).1 = Raise AttributeError
  /\ _calculate_keyword_frequency ks T = Raise AttributeError.
Proof.
  intros Hs Hj Hk Hbad.
  assert (_calculate_keyword_frequency ks T = Raise AttributeError) as Hc.
  { unfold _calculate_keyword_frequency. by rewrite frequencies_not_str. }
  split; [|done]. by rewrite (extract_object E T w text fields Hs Hj), Hk, Hc.
Qed.

(** The keywords are [budget] and the number 7; the run then ends under
    [failed]. *)
Lemma extract_keyword_not_str_witness :
  (extract mixed_keywords_env "the budget" sample_world).1 = Raise AttributeError
  /\ labels (log (run mixed_keywords_env 1 "uploads/a.mp3" sample_world).2)
     = ["transcribing"; "analyzing"; "failed"].
Proof.
  split; [|vm_compute; reflexivity].
  refine (proj1 (extract_keyword_not_str mixed_keywords_env "the budget"
                   sample_world mixed_keywords_text
                   [("keywords", JArr [JStr "budget"; JNum 7])]
                   [JStr "budget"; JNum 7] eq_refl eq_refl eq_refl _)).
  exists (JNum 7). split; [right; by left|discriminate].
Defined.

(** ** The requests for embeddings *)

Lemma embed_chunks_world (E : env) (emb : string -> json)
  (chunks : list string) (w : world) :
  (forall t c, In c chunks -> embedding_of E t c = Ok (emb c)) ->
  (embed_chunks E chunks w).2
  = World (meetings w) (files w) (collection w)
      (tick w + List.length (embedding_requests emb chunks))
      (log w ++ embedding_requests emb chunks).
Proof.
  revert w. induction chunks as [|c chunks IH]; intros w Hemb.
  { destruct w. cbn. by rewrite app_nil_r, Nat.add_0_r. }
  assert (forall t c', In c' chunks -> embedding_of E t c' = Ok (emb c'))
    as Hrest by (intros t c' Hc'; apply Hemb; by right).
  unfold embedding_requests in *. cbn [embed_chunks flat_map].
  unfold bind at 1. rewrite _get_embedding_eq, (Hemb _ c) by (by left).
  unfold embedded at 1 3. destruct (is_none (emb c)); cbn [negb].
  - rewrite IH by done. cbn [meetings files collection tick log].
    rewrite <- app_assoc. cbn [List.length app]. f_equal. lia.
  - unfold bind at 1. rewrite _get_embedding_eq, (Hemb _ c) by (by left).
    cbn [meetings files collection tick log]. unfold bind at 1.
    match goal with |- context [embed_chunks E chunks ?w1] =>
      pose proof (IH w1 Hrest) as IH1;
      destruct (embed_chunks E chunks w1) as [[es|e] w2]
    end; cbn [snd] in *; rewrite IH1; unfold ret;
      cbn [snd meetings files collection tick log];
      rewrite <- !app_assoc; cbn [List.length app]; f_equal; lia.
Qed.

Lemma embedding_requests_length (emb : string -> json) (chunks : list string) :
  List.length (embedding_requests emb chunks)
  = List.length chunks + List.length (List.filter embedded (map emb chunks)).
Proof.
  unfold embedding_requests.
  induction chunks as [|c chunks IH]; [done|].
  cbn [flat_map map List.filter]. rewrite length_app, IH.
  destruct (embedded (emb c)); cbn [List.length]; lia.
Qed.

(** X11. With an endpoint that gives each chunk one answer, whenever it is
    asked, the comprehension that builds [embeddings] asks the endpoint
    twice, one request after the other, for every chunk that has an
    embedding, and once for every chunk that has none; the chunks are asked
    in their order, and the number of requests is the number of chunks plus
    the number of embeddings obtained. *)
Theorem embed_chunks_requests (E : env) (emb : string -> json)
  (chunks : list string) (w : world) :
  (forall t c, In c chunks -> embedding_of E t c = Ok (emb c)) ->
  log (embed_chunks E chunks w).2
  = (log w ++ embedding_requests emb chunks)%list
  /\ tick (embed_chunks E chunks w).2
     = tick w + List.length chunks
       + List.length (List.filter embedded (map emb chunks))
  /\ List.length (embedding_requests emb chunks)
     = List.length chunks
       + List.length (List.filter embedded (map emb chunks)).
Proof.
  intros Hemb. rewrite (embed_chunks_world E emb chunks w Hemb).
  cbn [log tick]. rewrite embedding_requests_length.
  split_and!; [done|lia|done].
Qed.

(** Two chunks, the first without an embedding: three requests. *)
Lemma embed_chunks_requests_witness :
  log (embed_chunks (with_embedder embedder_fails_on_w sample_env)
         ["w"; "we meet"] sample_world).2
  = [EEmbed "w"; EEmbed "we meet"; EEmbed "we meet"]
  /\ tick (embed_chunks (with_embedder embedder_fails_on_w sample_env)
             ["w"; "we meet"] sample_world).2
     = 3.
Proof.
  assert (forall t c, In c ["w"; "we meet"] ->
            embedding_of (with_embedder embedder_fails_on_w sample_env) t c
            = Ok (sample_embedding c)) as H.
  { intros t c [<-|[<-|[]]]; reflexivity. }
  destruct (embed_chunks_requests (with_embedder embedder_fails_on_w sample_env)
              sample_embedding ["w"; "we meet"] sample_world H)
    as (H1 & H2 & _).
  split; [exact H1|exact H2].
Defined.

(** ** The text of a streamed answer *)

Lemma str_app_assoc (a b c : string) : ((a ++ b) ++ c = a ++ (b ++ c))%string.
Proof.
  induction a as [|x a IH]; [done|].
  unfold String.append; fold String.append. by rewrite IH.
Qed.

Lemma str_app_nil_r (a : string) : (a ++ "" = a)%string.
Proof.
  induction a as [|x a IH]; [done|].
  unfold String.append; fold String.append. by rewrite IH.
Qed.

Lemma join_empty_cons (p : string) (ps : list string) :
  join "" (p :: ps) = (p ++ join "" ps)%string.
Proof.
  unfold join. destruct ps as [|q ps]; cbn [String.concat]; [|done].
  by rewrite str_app_nil_r.
Qed.

(** The loop reads the lines one after the other: the lines after a line
    that cannot be read are not looked at. *)
Lemma read_lines_app (E : env) (ls1 ls2 : list string) (acc : string) :
  read_lines E (ls1 ++ ls2) acc
  = let? text := read_lines E ls1 acc in read_lines E ls2 text.
Proof.
  revert acc. induction ls1 as [|line ls1 IH]; intros acc; [done|].
  cbn [app read_lines]. destruct (str_truthy (strip line)); [|apply IH].
  destruct (json_loads E line) as [chunk|]; [|done].
  destruct (get_default chunk "response" (JStr "")) as [part|e]; [|done].
  cbn [rbind]. destruct part; first [done|apply IH].
Qed.

(** X12. The text put together from a streamed answer is the texts under
    [response] of its lines, in the order of the lines and with nothing
    between them: blank lines and lines whose dict has no [response] add
    nothing.  When the stream breaks after these lines, the text read so
    far is lost and a request error is raised. *)
Theorem read_lines_parts (E : env) (ls parts : list string) (acc : string) :
  Forall2 (line_part E) ls parts ->
  read_lines E ls acc = Ok (acc ++ join "" parts)%string
  /\ read_stream E (Lines ls false) = Ok (join "" parts)
  /\ read_stream E (Lines ls true) = Raise RequestError.
Proof.
  intros H.
  assert (forall acc, read_lines E ls acc = Ok (acc ++ join "" parts)%string)
    as Hall.
  { clear acc. induction H as [|line part ls parts Hp _ IH]; intros acc.
    - cbn. by rewrite str_app_nil_r.
    - cbn [read_lines]. unfold line_part in Hp. rewrite join_empty_cons.
      destruct (str_truthy (strip line)).
      + destruct Hp as (fields & -> & Hpart). unfold field_or in Hpart.
        cbn [get_default].
        destruct (dict_get "response" fields) as [v|]; cbn [rbind];
          [subst v|injection Hpart as <-]; rewrite IH;
          by rewrite str_app_assoc.
      + subst part. by rewrite IH. }
  split; [apply Hall|]. cbn [read_stream]. by rewrite !Hall.
Qed.

(** An answer in two pieces with a blank line between them. *)
Lemma read_lines_parts_witness :
  read_stream sample_env
    (Lines [response_line "{}"; " "; response_line "Monday."] false)
  = Ok "{}Monday.".
Proof.
  refine (proj1 (proj2 (read_lines_parts sample_env
            [response_line "{}"; " "; response_line "Monday."]
            ["{}"; ""; "Monday."] "" _))).
  repeat constructor.
  - exists [("response", JStr "{}")]. split; reflexivity.
  - exists [("response", JStr "Monday.")]. split; reflexivity.
Defined.

(** ** The search route *)

Lemma get_row_eq (E : env) (mid : Z) (w : world) :
  get_row E mid w
  = (match fault E (tick w) with
     | Some e => Raise e
     | None => Ok (get (meetings w) mid)
     end, after_call w).
Proof.
  destruct w as [ms fs cs t l].
  cbv [get_row external bind clock rows ret raise after_call].
  cbn [tick meetings files collection log]. by destruct (fault E t).
Qed.

Lemma search_in_meeting_eq (E : env) (mid : Z) (query : string) (w : world) :
  fault E (tick w) = None ->
  search_in_meeting E mid query w
  = match get (meetings w) mid with
    | None => (Ok (HTTPException 404 "Meeting not found"), after_call w)
    | Some m =>
        if String.eqb (status m) "completed" then
          (match (search E mid query (after_call w)).1 with
           | Ok answer => Ok (Body answer)
           | Raise e => Raise e
           end, (search E mid query (after_call w)).2)
        else (Ok (HTTPException 400 "Meeting is still processing."),
              after_call w)
    end.
Proof.
  intros Hf. unfold search_in_meeting. unfold bind at 1.
  rewrite get_row_eq, Hf. destruct (get (meetings w) mid) as [m|]; [|done].
  destruct (String.eqb (status m) "completed"); cbn [negb]; [|done].
  unfold bind. by destruct (search E mid query (after_call w)) as [[a|e] w'].
Qed.

(** X13. The search route after a run that started under [processing]:
    the row of the meeting is still there, so the route never answers 404;
    unless the run has committed [completed], the route answers 400,
    "Meeting is still processing.", also after a run that ended under
    [failed], and it calls neither the embedding endpoint nor the index nor
    the language model; after [completed] its answer is the answer of
    [search]. *)
Theorem search_in_meeting_after_run (E : env) (mid : Z) (filepath query : string)
  (w : world) :
  status_of w mid = Some "processing" ->
  fault E (tick (run E mid filepath w).2) = None ->
  exists label,
    status_of (run E mid filepath w).2 mid = Some label
    /\ (label = "completed" \/ label = "failed" \/ running label)
    /\ ((run E mid filepath w).1 = Ok tt ->
          label = "completed" \/ label = "failed")
    /\ (label <> "completed" ->
          search_in_meeting E mid query (run E mid filepath w).2
          = (Ok (HTTPException 400 "Meeting is still processing."),
             after_call (run E mid filepath w).2))
    /\ (label = "completed" ->
          search_in_meeting E mid query (run E mid filepath w).2
          = (match (search E mid query
                      (after_call (run E mid filepath w).2)).1 with
             | Ok answer => Ok (Body answer)
             | Raise e => Raise e
             end,
             (search E mid query (after_call (run E mid filepath w).2)).2)).
Proof.
  intros Hstart Hf.
  assert (exists label,
            status_of (run E mid filepath w).2 mid = Some label
            /\ (label = "completed" \/ label = "failed" \/ running label)
            /\ ((run E mid filepath w).1 = Ok tt ->
                  label = "completed" \/ label = "failed"))
    as (label & Hs & Hl & Hok).
  { unfold run, try_finally.
    destruct (try_except _ _ w) as [rg wg] eqn:Hg.
    pose proof (run_guarded_invariant E mid filepath w w rg wg
                  (invariant_start mid w Hstart) Hg) as Ig.
    destruct (run_cleanup_spec filepath wg) as (wc & Hc & Hms & _).
    rewrite Hc. cbn [fst snd]. unfold status_of in *. rewrite Hms.
    destruct rg as [[]|e].
    - destruct Ig as [(_ & Hs & _)|(_ & Hs & _)]; eauto 10.
    - destruct Ig as (cur & Hcur & _ & Hs & _). exists cur.
      split_and!; [done|auto|done]. }
  exists label. split_and!; try done.
  - intros Hne. rewrite search_in_meeting_eq by done.
    unfold status_of in Hs.
    destruct (get (meetings (run E mid filepath w).2) mid) as [m|]; [|done].
    injection Hs as Hs. rewrite Hs.
    destruct (String.eqb_spec label "completed"); done.
  - intros ->. rewrite search_in_meeting_eq by done.
    unfold status_of in Hs.
    destruct (get (meetings (run E mid filepath w).2) mid) as [m|]; [|done].
    injection Hs as Hs. by rewrite Hs.
Qed.

(** After the run in which the speech model failed. *)
Lemma search_in_meeting_after_run_witness :
  (search_in_meeting (with_whisper no_speech sample_env) 1 "when do we meet"
     (run (with_whisper no_speech sample_env) 1 "uploads/a.mp3" sample_world).2).1
  = Ok (HTTPException 400 "Meeting is still processing.").
Proof.
  destruct (search_in_meeting_after_run (with_whisper no_speech sample_env) 1
              "uploads/a.mp3" "when do we meet" sample_world eq_refl eq_refl)
    as (label & Hs & _ & _ & Hno & _).
  rewrite Hno; [reflexivity|].
  intros ->. revert Hs. vm_compute. discriminate.
Defined.

(** ** The path of an upload *)

Lemma rfind_from_spec (c : ascii) (l : list ascii) (i : nat) (found : Z) :
  (rfind_from c l i found = found /\ ~ In c l)
  \/ exists k, rfind_from c l i found = Z.of_nat (i + k)
       /\ l !! k = Some c /\ forall j, k < j -> l !! j <> Some c.
Proof.
  revert i found. induction l as [|x l IH]; intros i found;
    [left; split; [done|by intros []]|].
  cbn [rfind_from].
  destruct (Ascii.eqb_spec x c) as [->|Hne].
  - right. destruct (IH (S i) (Z.of_nat i)) as [[-> Hnot]|(k & -> & Hk & Hlast)].
    + exists 0. rewrite Nat.add_0_r. split_and!; [done..|].
      intros [|j] Hj; [lia|]. cbn. intros Hin. apply Hnot.
      by eapply list_elem_of_In, list_elem_of_lookup_2.
    + exists (S k). split_and!; [f_equal; lia|done|].
      intros [|j] Hj; [lia|]. cbn. apply Hlast. lia.
  - destruct (IH (S i) found) as [[-> Hnot]|(k & -> & Hk & Hlast)].
    + left. split; [done|]. intros [?|?]; [done|by apply Hnot].
    + right. exists (S k). split_and!; [f_equal; lia|done|].
      intros [|j] Hj; [lia|]. cbn. apply Hlast. lia.
Qed.

Lemma rfind_spec (c : ascii) (l : list ascii) :
  (rfind c l = (-1)%Z /\ ~ In c l)
  \/ exists k, rfind c l = Z.of_nat k
       /\ l !! k = Some c /\ forall j, k < j -> l !! j <> Some c.
Proof. apply (rfind_from_spec c l 0 (-1)). Qed.

Lemma in_drop_lookup {A} (x : A) (l : list A) (k : nat) :
  In x (drop k l) -> exists j, l !! (k + j) = Some x.
Proof.
  intros Hin. apply list_elem_of_In, list_elem_of_lookup_1 in Hin as [j Hj].
  exists j. by rewrite <- lookup_drop.
Qed.

(** What [splitext] gives: the two parts make the path again; the
    extension is empty or starts at the last dot of the path, has no other
    dot, and has no separator. *)
Lemma splitext_spec (p : string) :
  ((splitext p).1 ++ (splitext p).2)%string = p
  /\ ~ In "/"%char (chars (splitext p).2)
  /\ ((splitext p).2 = ""
      \/ exists rest, (splitext p).2 = String "." rest
           /\ ~ In "."%char (chars rest)).
Proof.
  unfold splitext. cbv zeta.
  destruct (_ && _) eqn:Hc; cbn [fst snd];
    [|split_and!; [apply str_app_nil_r|by intros []|by left]].
  apply andb_prop in Hc as [Hlt _]. apply Z.ltb_lt in Hlt.
  destruct (rfind_spec "." (chars p)) as [[Hd _]|(k & Hd & Hk & Hlast)].
  { destruct (rfind_spec "/" (chars p)) as [[Hs _]|(k' & Hs & _)]; lia. }
  rewrite Hd in *. rewrite Nat2Z.id.
  split_and!.
  - rewrite <- (string_of_list_ascii_of_string (_ ++ _)%string).
    fold (chars (string_of_list_ascii (take k (chars p))
                 ++ string_of_list_ascii (drop k (chars p)))%string).
    rewrite chars_app. unfold chars at 1 2.
    rewrite !list_ascii_of_string_of_list_ascii, take_drop.
    apply string_of_list_ascii_of_string.
  - unfold chars at 1. rewrite list_ascii_of_string_of_list_ascii.
    intros (j & Hj)%in_drop_lookup.
    destruct (rfind_spec "/" (chars p)) as [[_ Hnot]|(k' & Hs & _ & Hlast')].
    + apply Hnot. by eapply list_elem_of_In, list_elem_of_lookup_2.
    + apply (Hlast' (k + j)); [lia|done].
  - right. exists (string_of_list_ascii (drop (S k) (chars p))). split.
    + by rewrite (drop_S _ _ _ Hk).
    + unfold chars at 1. rewrite list_ascii_of_string_of_list_ascii.
      intros (j & Hj)%in_drop_lookup. apply (Hlast (S k + j)); [lia|done].
Qed.

Lemma filter_sep_none (l : list ascii) :
  ~ In "/"%char l -> List.filter (Ascii.eqb "/") l = [].
Proof.
  induction l as [|x l IH]; [done|]. intros Hnot. cbn [List.filter].
  destruct (Ascii.eqb_spec "/" x) as [<-|_]; [destruct Hnot; by left|].
  apply IH. intros ?. apply Hnot. by right.
Qed.

(** X14. The path under which an upload is stored, for an identifier that
    is not empty and has no separator (as the text of a UUID): it is
    [uploads/], the identifier and the extension of the client's file name,
    whatever that name is.  The extension is the end of the name from its
    last dot on, or empty; it has no separator, so the only separator of
    the path is the one after [uploads] and the file lies in that
    directory. *)
Theorem upload_path_safe (uuid4 name : string) :
  uuid4 <> "" ->
  ~ In "/"%char (chars uuid4) ->
  file_path uuid4 name = ("uploads/" ++ uuid4 ++ (splitext name).2)%string
  /\ List.filter (Ascii.eqb "/") (chars (file_path uuid4 name)) = ["/"%char]
  /\ ((splitext name).1 ++ (splitext name).2)%string = name
  /\ ((splitext name).2 = ""
      \/ exists rest, (splitext name).2 = String "." rest
           /\ ~ In "."%char (chars rest) /\ ~ In "/"%char (chars rest)).
Proof.
  intros Hne Hsep.
  destruct (splitext_spec name) as (Hparts & Hext & Hdot).
  assert (file_path uuid4 name
          = ("uploads/" ++ uuid4 ++ (splitext name).2)%string) as Hpath.
  { unfold file_path, path_join. destruct uuid4 as [|c u]; [done|].
    unfold String.append at 1; fold String.append. cbn [starts_with_sep].
    destruct (Ascii.eqb_spec c "/") as [->|_]; [|done].
    destruct Hsep. by left. }
  split_and!; [done| |done|].
  - rewrite Hpath, !chars_app, !List.filter_app.
    rewrite (filter_sep_none _ Hsep), (filter_sep_none _ Hext). done.
  - destruct Hdot as [?|(rest & Hrest & Hnodot)]; [by left|right].
    exists rest. split_and!; [done..|].
    intros Hin. apply Hext. rewrite Hrest. by right.
Qed.

(** A file name that points out of the directory. *)
Lemma upload_path_safe_witness :
  file_path "123e4567" "../../evil.sh" = "uploads/123e4567.sh"
  /\ List.filter (Ascii.eqb "/") (chars (file_path "123e4567" "../../evil.sh"))
     = ["/"%char].
Proof.
  assert (~ In "/"%char (chars "123e4567")) as Hsep.
  { cbn. intros H. repeat destruct H as [H|H]; discriminate || done. }
  destruct (upload_path_safe "123e4567" "../../evil.sh" ltac:(discriminate) Hsep)
    as (H1 & H2 & _).
  split; [rewrite H1; reflexivity|exact H2].
Defined.

(** ** A new row *)

(** [create], call by call: the world after the refresh is the same
    whether the refresh raises or not. *)
Lemma create_eq (E : env) (name : string) (w : world) :
  create E name w
  = match fault E (tick w) with
    | Some e => (Raise e, after_call w)
    | None =>
        (match fault E (S (tick w)) with
         | Some e => Raise e
         | None => Ok (new_meeting (next_id (meetings w)) name)
         end,
         World (meetings w ++ [new_meeting (next_id (meetings w)) name])
           (files w) (collection w) (S (S (tick w))) (log w))
    end.
Proof.
  destruct w as [ms fs cs t l].
  cbv [create external bind clock rows set_rows ret raise after_call].
  cbn [tick meetings files collection log].
  destruct (fault E t); cbn [tick meetings files collection log]; [done|].
  by destruct (fault E (S t)).
Qed.

Lemma next_id_above (ms : list Meeting) (m : Meeting) :
  In m ms -> (id m < next_id ms)%Z.
Proof.
  unfold next_id. induction ms as [|x ms IH]; [done|].
  cbn [map fold_right]. intros [->|Hin]; [lia|]. specialize (IH Hin). lia.
Qed.

Lemma next_id_fresh (ms : list Meeting) : get ms (next_id ms) = None.
Proof.
  unfold get. destruct (List.find _ ms) as [m|] eqn:Hf; [|done].
  apply find_some in Hf as [Hin Hid]. apply Z.eqb_eq in Hid.
  pose proof (next_id_above ms m Hin). lia.
Qed.

Lemma get_app_new (ms : list Meeting) (x : Meeting) (i : Z) :
  get (ms ++ [x]) i
  = match get ms i with
    | Some m => Some m
    | None => if (id x =? i)%Z then Some x else None
    end.
Proof.
  unfold get. induction ms as [|m ms IH]; [done|].
  cbn [app List.find]. by destruct (id m =? i)%Z.
Qed.

(** X15. [create], when the commit does not raise, adds one row at the
    end of the table under an identifier that no row had; the row is read
    back under that identifier with the given file name, the status
    [processing] and no transcript, and every identifier that had a row
    reads back the row it had.  The row is returned when the refresh does
    not raise either; when the refresh raises, its exception leaves
    [create] with the row stored. *)
Theorem create_round_trip (E : env) (name : string) (w : world) :
  fault E (tick w) = None ->
  exists m,
    (fault E (S (tick w)) = None -> (create E name w).1 = Ok m)
    /\ (forall e, fault E (S (tick w)) = Some e ->
          (create E name w).1 = Raise e)
    /\ get (meetings w) (id m) = None
    /\ get (meetings (create E name w).2) (id m) = Some m
    /\ filename m = name /\ status m = "processing" /\ transcript m = None
    /\ meetings (create E name w).2 = (meetings w ++ [m])%list
    /\ (forall other, other <> id m ->
          get (meetings (create E name w).2) other = get (meetings w) other)
    /\ (forall x, In x (meetings w) -> (id x < id m)%Z).
Proof.
  intros Hf. rewrite create_eq, Hf. cbn [fst snd meetings].
  exists (new_meeting (next_id (meetings w)) name). cbn [id new_meeting].
  split_and!; try done.
  - by intros ->.
  - by intros e ->.
  - apply next_id_fresh.
  - rewrite get_app_new, next_id_fresh. cbn [id new_meeting].
    by rewrite Z.eqb_refl.
  - intros other Hne. rewrite get_app_new.
    destruct (get (meetings w) other); [done|]. cbn [id new_meeting].
    destruct (Z.eqb_spec (next_id (meetings w)) other); [congruence|done].
  - intros x Hx. by apply next_id_above.
Qed.

(** A second meeting. *)
Lemma create_round_trip_witness :
  exists m,
    (create sample_env "talk.mp3" sample_world).1 = Ok m
    /\ id m = 2%Z
    /\ get (meetings (create sample_env "talk.mp3" sample_world).2) 2 = Some m
    /\ get (meetings (create sample_env "talk.mp3" sample_world).2) 1
       = Some sample_meeting.
Proof.
  destruct (create_round_trip sample_env "talk.mp3" sample_world eq_refl)
    as (m & H1 & _ & _ & H3 & _ & _ & _ & _ & H8 & _).
  specialize (H1 eq_refl).
  assert (id m = 2%Z) as Hid by (by injection H1 as <-).
  exists m. rewrite Hid in *. split_and!; try done.
Defined.

(** ** The upload route *)

Lemma starts_with_prefix (p s : string) :
  starts_with (chars p) (chars s) = true <-> exists rest, s = (p ++ rest)%string.
Proof.
  revert s. induction p as [|a p IH]; intros s.
  - split; [by exists s|done].
  - destruct s as [|b s].
    + split; [done|]. by intros (rest & ?).
    + unfold chars in *. cbn [list_ascii_of_string starts_with].
      rewrite andb_true_iff, IH. split.
      * intros [->%Ascii.eqb_eq (rest & ->)]. by exists rest.
      * intros (rest & Heq).
        unfold String.append in Heq; fold String.append in Heq.
        injection Heq as -> ->. split; [apply Ascii.eqb_refl|by exists rest].
Qed.

Lemma upload_file_eq (E : env) (uuid4 ct name : string) (w : world) :
  upload_file E uuid4 (Some ct) name w
  = if starts_with (chars "audio/") (chars ct)
       || starts_with (chars "video/") (chars ct)
    then
      match fault E (tick w) with
      | Some e =>
          (Raise e,
           World (meetings w) (files w ∪ {[file_path uuid4 name]})
             (collection w) (S (tick w)) (log w))
      | None =>
          (match fault E (S (tick w)) with
           | Some e => Raise e
           | None =>
               Ok (Body {| body := (next_id (meetings w), "processing", name);
                           task := (next_id (meetings w),
                                    file_path uuid4 name) |})
           end,
           World (meetings w ++ [new_meeting (next_id (meetings w)) name])
             (files w ∪ {[file_path uuid4 name]})
             (collection w) (S (S (tick w))) (log w))
      end
    else (Ok (HTTPException 400 "Invalid file type."), w).
Proof.
  unfold upload_file. destruct (_ || _); cbn [negb]; [|done].
  unfold bind at 1, write_file. unfold bind at 1. rewrite create_eq.
  cbn [tick meetings files collection log].
  destruct (fault E (tick w)); [done|]. by destruct (fault E (S (tick w))).
Qed.

(** X16. The upload route looks at the content type only, by its prefix.
    A content type that starts neither with [audio/] nor with [video/] is
    answered 400, "Invalid file type.", and nothing is written, stored or
    scheduled.  For one that does, the file is written under the upload
    path first; then, when the session works, a row is added for the
    client's file name under [processing] and a run is scheduled for the
    new identifier and that path.  When the commit of the row raises, the
    exception leaves the route with the file written, no row and no run;
    when the refresh of the row raises, it leaves the route with the file
    written and the row stored under [processing], and no run. *)
Theorem upload_file_effect (E : env) (uuid4 ct name : string) (w : world) :
  ((forall rest, ct <> ("audio/" ++ rest)%string) ->
   (forall rest, ct <> ("video/" ++ rest)%string) ->
   upload_file E uuid4 (Some ct) name w
   = (Ok (HTTPException 400 "Invalid file type."), w))
  /\ ((exists rest, ct = ("audio/" ++ rest)%string
                    \/ ct = ("video/" ++ rest)%string) ->
      files (upload_file E uuid4 (Some ct) name w).2
      = files w ∪ {[file_path uuid4 name]}
      /\ (fault E (tick w) = None -> fault E (S (tick w)) = None ->
            (upload_file E uuid4 (Some ct) name w).1
            = Ok (Body {| body := (next_id (meetings w), "processing", name);
                          task := (next_id (meetings w),
                                   file_path uuid4 name) |})
            /\ meetings (upload_file E uuid4 (Some ct) name w).2
               = (meetings w ++ [new_meeting (next_id (meetings w)) name])%list
            /\ get (meetings (upload_file E uuid4 (Some ct) name w).2)
                 (next_id (meetings w))
               = Some (new_meeting (next_id (meetings w)) name))
      /\ (forall e, fault E (tick w) = Some e ->
            (upload_file E uuid4 (Some ct) name w).1 = Raise e
            /\ meetings (upload_file E uuid4 (Some ct) name w).2 = meetings w)
      /\ (forall e, fault E (tick w) = None -> fault E (S (tick w)) = Some e ->
            (upload_file E uuid4 (Some ct) name w).1 = Raise e
            /\ meetings (upload_file E uuid4 (Some ct) name w).2
               = (meetings w ++ [new_meeting (next_id (meetings w)) name])%list
            /\ status_of (upload_file E uuid4 (Some ct) name w).2
                 (next_id (meetings w))
               = Some "processing"))
  /\ upload_file E uuid4 None name w = (Raise AttributeError, w).
Proof.
  rewrite upload_file_eq. split_and!; [| |done].
  - intros Ha Hv.
    destruct (starts_with (chars "audio/") (chars ct)) eqn:H1.
    { apply starts_with_prefix in H1 as (rest & ->). by destruct (Ha rest). }
    destruct (starts_with (chars "video/") (chars ct)) eqn:H2; [|done].
    apply starts_with_prefix in H2 as (rest & ->). by destruct (Hv rest).
  - intros (rest & Hct).
    assert (starts_with (chars "audio/") (chars ct)
            || starts_with (chars "video/") (chars ct) = true) as ->.
    { apply orb_true_iff.
      destruct Hct as [->| ->]; [left|right]; apply starts_with_prefix; eauto. }
    assert (get (meetings w ++ [new_meeting (next_id (meetings w)) name])
              (next_id (meetings w))
            = Some (new_meeting (next_id (meetings w)) name)) as Hnew.
    { rewrite get_app_new, next_id_fresh. cbn [id new_meeting].
      by rewrite Z.eqb_refl. }
    split_and!.
    + by destruct (fault E (tick w)).
    + intros -> ->. cbn [fst snd meetings]. by split_and!.
    + by intros e ->.
    + intros e -> ->. cbn [fst snd meetings]. split_and!; [done..|].
      unfold status_of. cbn [meetings]. by rewrite Hnew.
Qed.

(** A recording is accepted, a text file is not; when the refresh of the
    new row raises, the row is there. *)
Lemma upload_file_effect_witness :
  (upload_file sample_env "u1" (Some "audio/mpeg") "talk.mp3" sample_world).1
  = Ok (Body {| body := (2%Z, "processing", "talk.mp3");
                task := (2%Z, "uploads/u1.mp3") |})
  /\ upload_file sample_env "u1" (Some "text/plain") "talk.mp3" sample_world
     = (Ok (HTTPException 400 "Invalid file type."), sample_world)
  /\ ((upload_file (with_fault (session_fails_at 1) sample_env) "u1"
         (Some "audio/mpeg") "talk.mp3" sample_world).1
      = Raise (ExternalError "OperationalError")
      /\ status_of (upload_file (with_fault (session_fails_at 1) sample_env)
                      "u1" (Some "audio/mpeg") "talk.mp3" sample_world).2 2
         = Some "processing").
Proof.
  destruct (upload_file_effect sample_env "u1" "audio/mpeg" "talk.mp3"
              sample_world) as (_ & H & _).
  destruct H as (_ & H & _); [exists "mpeg"; by left|].
  destruct (H eq_refl eq_refl) as (H1 & _).
  destruct (upload_file_effect sample_env "u1" "text/plain" "talk.mp3"
              sample_world) as (H2 & _).
  destruct (upload_file_effect (with_fault (session_fails_at 1) sample_env)
              "u1" "audio/mpeg" "talk.mp3" sample_world) as (_ & H3 & _).
  destruct H3 as (_ & _ & _ & H3); [exists "mpeg"; by left|].
  destruct (H3 (ExternalError "OperationalError") eq_refl eq_refl)
    as (H4 & _ & H5).
  split; [exact H1|]. split; [apply H2; intros rest; discriminate|].
  split; [exact H4|exact H5].
Defined.

(** The files after a run are the files before it without the upload. *)
Lemma run_files (E : env) (mid : Z) (filepath : string) (w : world) :
  files (run E mid filepath w).2 = files w ∖ {[filepath]}.
Proof.
  unfold run, try_finally.
  destruct (try_except _ _ w) as [rg wg] eqn:Hg.
  destruct (run_guarded_keeps_files E mid filepath _ _ _ Hg) as (Hfg & _).
  destruct (run_cleanup_spec filepath wg) as (wc & Hc & _ & Hfs & _).
  rewrite Hc. cbn [snd]. by rewrite Hfs, Hfg.
Qed.

(** X17. An accepted upload followed by the run that it schedules: when
    the upload path was free, the files after the run are the files before
    the upload, so nothing is left in the upload directory whether the run
    succeeds or not; the rows that existed read back as they were; the new
    row keeps the client's file name, starts under [processing] and ends
    under a label of the job. *)
Theorem upload_then_run (E : env) (uuid4 ct name : string) (w : world)
  (a : accepted) (w1 : world) :
  upload_file E uuid4 (Some ct) name w = (Ok (Body a), w1) ->
  file_path uuid4 name ∉ files w ->
  files (run E (task a).1 (task a).2 w1).2 = files w
  /\ status_of w1 (task a).1 = Some "processing"
  /\ (forall other m, get (meetings w) other = Some m ->
        get (meetings (run E (task a).1 (task a).2 w1).2) other = Some m)
  /\ filename <$> get (meetings (run E (task a).1 (task a).2 w1).2) (task a).1
     = Some name
  /\ exists label,
       status_of (run E (task a).1 (task a).2 w1).2 (task a).1 = Some label
       /\ (label = "completed" \/ label = "failed" \/ running label).
Proof.
  rewrite upload_file_eq. destruct (_ || _); [|done].
  destruct (fault E (tick w)); [done|].
  destruct (fault E (S (tick w))); [done|]. intros [= <- <-] Hfree.
  cbn [task fst snd].
  set (i := next_id (meetings w)).
  set (w1 := World (meetings w ++ [new_meeting i name])
               (files w ∪ {[file_path uuid4 name]}) (collection w)
               (S (S (tick w))) (log w)).
  assert (get (meetings w1) i = Some (new_meeting i name)) as Hnew.
  { subst w1 i. cbn [meetings]. rewrite get_app_new, next_id_fresh.
    cbn [id new_meeting]. by rewrite Z.eqb_refl. }
  assert (status_of w1 i = Some "processing") as Hstart.
  { unfold status_of. by rewrite Hnew. }
  destruct (alters_row_run keeps_identity i (fun f Hf m => proj1 (Hf m))
              (fun m => conj eq_refl eq_refl) keeps_identity_then E
              (file_path uuid4 name)
              (fun _ _ => conj eq_refl eq_refl)
              (fun _ _ => conj eq_refl eq_refl)
              (fun _ _ => conj eq_refl eq_refl)
              w1 _ _ (surjective_pairing _)) as (f & Hf & Hms).
  assert (forall m, id (f m) = id m) as Hid by (intros m; apply Hf).
  split_and!.
  - rewrite run_files. subst w1. cbn [files]. set_solver.
  - done.
  - intros other m Hother. rewrite Hms.
    assert (other <> i) as Hne.
    { intros ->. subst i. by rewrite next_id_fresh in Hother. }
    rewrite get_alter_row_other by done. subst w1. cbn [meetings].
    by rewrite get_app_new, Hother.
  - rewrite Hms, get_alter_row, Hnew by done. cbn.
    by rewrite (proj2 (Hf _)).
  - unfold run, try_finally.
    destruct (try_except _ _ w1) as [rg wg] eqn:Hg.
    pose proof (run_guarded_invariant E i (file_path uuid4 name) w1 w1 rg wg
                  (invariant_start i w1 Hstart) Hg) as Ig.
    destruct (run_cleanup_spec (file_path uuid4 name) wg) as (wc & Hc & Hwc & _).
    rewrite Hc. cbn [snd]. unfold status_of in *. rewrite Hwc.
    destruct rg as [[]|e].
    + destruct Ig as [(_ & Hs & _)|(_ & Hs & _)]; eauto 10.
    + destruct Ig as (cur & Hcur & _ & Hs & _). eauto 10.
Qed.

(** The upload of [talk.mp3] and its run. *)
Lemma upload_then_run_witness :
  files (run sample_env 2 "uploads/u1.mp3"
           (upload_file sample_env "u1" (Some "audio/mpeg") "talk.mp3"
              sample_world).2).2
  = files sample_world.
Proof.
  assert ("uploads/u1.mp3" ∉ files sample_world) as Hfree.
  { cbn [files sample_world]. set_solver. }
  exact (proj1 (upload_then_run sample_env "u1" "audio/mpeg" "talk.mp3"
                  sample_world _ _ (surjective_pairing _) Hfree)).
Defined.

(** ** What a run adds to the index *)

Section Index.
Context (mid : Z).

Lemma extends_index_same {A} (m : M A) :
  (forall w, collection (m w).2 = collection w) -> extends_index mid m.
Proof.
  intros Hm w r w' H. exists []. rewrite app_nil_r. split; [|done].
  by rewrite <- (Hm w), H.
Qed.

Lemma extends_index_bind {A B} (m : M A) (k : A -> M B) :
  extends_index mid m -> (forall a, extends_index mid (k a)) ->
  extends_index mid (bind m k).
Proof.
  intros Hm Hk w r w' (r1 & w1 & H1 & H2)%bind_inv.
  destruct (Hm _ _ _ H1) as (new1 & Hc1 & Ht1).
  destruct r1 as [a|e].
  - destruct (Hk a _ _ _ H2) as (new2 & Hc2 & Ht2).
    exists (new1 ++ new2)%list. rewrite Hc2, Hc1, <- app_assoc.
    split; [done|]. by apply Forall_app.
  - destruct H2 as [_ ->]. by exists new1.
Qed.

Lemma extends_index_try_except {A} (m : M A) (h : exn -> M A) :
  extends_index mid m -> (forall e, extends_index mid (h e)) ->
  extends_index mid (try_except m h).
Proof.
  intros Hm Hh w r w'. unfold try_except.
  destruct (m w) as [[a|e] w1] eqn:H1;
    destruct (Hm _ _ _ H1) as (new1 & Hc1 & Ht1).
  - intros [= _ <-]. by exists new1.
  - intros H2. destruct (Hh e _ _ _ H2) as (new2 & Hc2 & Ht2).
    exists (new1 ++ new2)%list. rewrite Hc2, Hc1, <- app_assoc.
    split; [done|]. by apply Forall_app.
Qed.

Lemma extends_index_update_status (E : env) (label : string) :
  extends_index mid (update_status E mid label).
Proof.
  apply extends_index_same. intros w. rewrite update_status_eq.
  destruct (fault E (tick w)); [done|]. by destruct (get (meetings w) mid).
Qed.

Lemma extends_index_update_transcript (E : env) (text : string) :
  extends_index mid (update_transcript E mid text).
Proof.
  apply extends_index_same. intros w. rewrite update_transcript_eq.
  destruct (fault E (tick w)); [done|]. by destruct (get (meetings w) mid).
Qed.

Lemma extends_index_update_insights (E : env) (insights : json) :
  extends_index mid (update_insights E mid insights).
Proof.
  apply extends_index_same. intros w. rewrite update_insights_eq. cbv zeta.
  destruct (fault E (tick w)); [done|].
  destruct (get (meetings w) mid); [|done]. by destruct insights.
Qed.

Lemma extends_index_add_transcript (E : env) (T : string) :
  extends_index mid (add_transcript E mid T).
Proof.
  intros w r w' H.
  assert (collection w' = collection (add_transcript E mid T w).2) as ->
    by (by rewrite H).
  clear H. unfold add_transcript.
  destruct (_chunk_text T) as [|c cs];
    [exists []; by rewrite app_nil_r|].
  unfold bind at 1.
  pose proof (embed_chunks_unchanged_index E (c :: cs) w) as Hu.
  destruct (embed_chunks E (c :: cs) w) as [[embeddings|x] w1];
    cbn [snd] in *; [|exists []; by rewrite app_nil_r].
  destruct embeddings as [|e0 es];
    [unfold ret; cbn [snd]; exists []; by rewrite app_nil_r|].
  unfold bind at 1, lift.
  destruct (valid_chunks_from 0 (c :: cs) (e0 :: es)) as [vs|x];
    [|cbn [snd]; exists []; by rewrite app_nil_r].
  destruct (collection_add_result E (e0 :: es) vs (map (fun _ => mid) vs)
              (map (doc_id mid) (seq 0 (List.length vs))) w1) as [-> | ->];
    rewrite Hu; [exists []; by rewrite app_nil_r|].
  eexists. split; [done|]. apply List.Forall_forall.
  intros e [Hin _]%filter_In. by apply zip_entries_tagged in Hin.
Qed.

Lemma extends_index_run (E : env) (filepath : string) :
  extends_index mid (run E mid filepath).
Proof.
  intros w r w' Hrun. unfold run, try_finally in Hrun.
  destruct (try_except _ _ w) as [rg wg] eqn:Hg.
  assert (collection w' = collection wg) as ->.
  { revert Hrun. destruct wg as [ms fs cs t l].
    cbv [run_cleanup bind path_exists remove close emit ret].
    cbn [tick meetings files collection log].
    by destruct (bool_decide _); intros [= _ <-]. }
  revert Hg. apply extends_index_try_except.
  - unfold run_body.
    repeat first
      [ apply extends_index_update_status
      | apply extends_index_update_transcript
      | apply extends_index_update_insights
      | apply extends_index_add_transcript
      | apply extends_index_same; intros ?; by rewrite transcribe_eq
      | apply extends_index_same; intros ?; by rewrite extract_eq
      | apply extends_index_same; by intros ?
      | apply extends_index_bind
      | intros ? ].
  - intros _. apply extends_index_bind; [apply extends_index_update_status|].
    intros _. apply extends_index_same. by intros ?.
Qed.

End Index.

Lemma filter_tag_other (A B : Z) (new : list entry) :
  A <> B -> Forall (tagged A) new ->
  List.filter (fun e => (meeting_tag e =? B)%Z) new = [].
Proof.
  intros Hne. induction 1 as [|e new [Htag _] _ IH]; [done|].
  cbn [List.filter]. destruct (Z.eqb_spec (meeting_tag e) B); [congruence|done].
Qed.

(** X18. A run for meeting [A] leaves every entry of the index in its
    place and only adds, after them, entries named and tagged for [A]; so
    what the index returns for another meeting [B], for any query and any
    number of results, is after the run what it was before it, whether the
    run succeeded or not. *)
Theorem run_index_isolated (E : env) (A : Z) (filepath : string) (w : world) :
  (exists new,
     collection (run E A filepath w).2 = (collection w ++ new)%list
     /\ Forall (tagged A) new)
  /\ forall B q n, A <> B ->
       nearest E q n B (collection (run E A filepath w).2)
       = nearest E q n B (collection w).
Proof.
  destruct (extends_index_run A E filepath w _ _ (surjective_pairing _))
    as (new & Hc & Hnew).
  split; [by exists new|]. intros B q n Hne. unfold nearest.
  by rewrite Hc, List.filter_app, (filter_tag_other A B new Hne Hnew), app_nil_r.
Qed.

(** ** A run without a row *)

Lemma labels_not_status (evs : list event) :
  forallb (fun e => negb (is_status e)) evs = true -> labels evs = [].
Proof.
  induction evs as [|e evs IH]; [done|]. cbn [forallb].
  intros [He Hevs]%andb_prop. by destruct e; [done|apply IH..].
Qed.

Section WithoutRow.
Context (mid : Z).

Lemma silent_appends {A} (ok : event -> bool) (m : M A) :
  (forall e, ok e = true -> is_status e = false) ->
  appends ok m -> silent_without_row mid m.
Proof.
  intros Hok Hm w r w' _ H.
  destruct (Hm _ _ _ H) as (Hms & _ & evs & Hlog & Hevs).
  split; [done|]. exists evs. split; [done|]. apply labels_not_status.
  rewrite forallb_forall in *. intros e He. by rewrite (Hok e (Hevs e He)).
Qed.

Lemma silent_ret {A} (a : A) : silent_without_row mid (ret a).
Proof.
  intros w r w' _ [= _ <-]. split; [done|]. exists []. by rewrite app_nil_r.
Qed.

Lemma silent_bind {A B} (m : M A) (k : A -> M B) :
  silent_without_row mid m -> (forall a, silent_without_row mid (k a)) ->
  silent_without_row mid (bind m k).
Proof.
  intros Hm Hk w r w' Hnone (r1 & w1 & H1 & H2)%bind_inv.
  destruct (Hm _ _ _ Hnone H1) as (Hms1 & evs1 & Hlog1 & Hl1).
  destruct r1 as [a|e].
  - destruct (Hk a w1 r w') as (Hms2 & evs2 & Hlog2 & Hl2);
      [by rewrite Hms1|done|].
    split; [congruence|]. exists (evs1 ++ evs2)%list.
    by rewrite Hlog2, Hlog1, <- app_assoc, labels_app, Hl1, Hl2.
  - destruct H2 as [_ ->]. split; [done|]. by exists evs1.
Qed.

Lemma silent_try_except {A} (m : M A) (h : exn -> M A) :
  silent_without_row mid m -> (forall e, silent_without_row mid (h e)) ->
  silent_without_row mid (try_except m h).
Proof.
  intros Hm Hh w r w' Hnone. unfold try_except.
  destruct (m w) as [[a|e] w1] eqn:H1;
    destruct (Hm _ _ _ Hnone H1) as (Hms1 & evs1 & Hlog1 & Hl1).
  - intros [= _ <-]. split; [done|]. by exists evs1.
  - intros H2. destruct (Hh e w1 r w') as (Hms2 & evs2 & Hlog2 & Hl2);
      [by rewrite Hms1|done|].
    split; [congruence|]. exists (evs1 ++ evs2)%list.
    by rewrite Hlog2, Hlog1, <- app_assoc, labels_app, Hl1, Hl2.
Qed.

Lemma silent_update_status (E : env) (label : string) :
  silent_without_row mid (update_status E mid label).
Proof.
  intros w r w' Hnone. rewrite update_status_eq, Hnone.
  destruct (fault E (tick w)); intros [= _ <-];
    (split; [done|]); exists []; by rewrite app_nil_r.
Qed.

Lemma silent_update_transcript (E : env) (text : string) :
  silent_without_row mid (update_transcript E mid text).
Proof.
  intros w r w' Hnone. rewrite update_transcript_eq, Hnone.
  destruct (fault E (tick w)); intros [= _ <-];
    (split; [done|]); exists []; by rewrite app_nil_r.
Qed.

Lemma silent_update_insights (E : env) (insights : json) :
  silent_without_row mid (update_insights E mid insights).
Proof.
  intros w r w' Hnone. rewrite update_insights_eq, Hnone. cbv zeta.
  destruct (fault E (tick w)); intros [= _ <-];
    (split; [done|]); exists []; by rewrite app_nil_r.
Qed.

Lemma silent_run (E : env) (filepath : string) :
  silent_without_row mid (run E mid filepath).
Proof.
  intros w r w' Hnone Hrun. unfold run, try_finally in Hrun.
  destruct (try_except _ _ w) as [rg wg] eqn:Hg.
  assert (silent_without_row mid
            (try_except (run_body E mid filepath)
               (fun _ => update_status E mid "failed";; ret tt))) as Hsilent.
  { apply silent_try_except.
    - unfold run_body.
      repeat first
        [ apply silent_ret
        | apply silent_update_status
        | apply silent_update_transcript
        | apply silent_update_insights
        | apply (silent_appends transcription_event);
            [by intros []|apply transcribe_appends]
        | apply (silent_appends analysis_event);
            [by intros [| |[]| | | | |]|apply extract_appends]
        | apply (silent_appends analysis_event);
            [by intros [| |[]| | | | |]|apply add_transcript_appends]
        | apply silent_bind
        | intros ? ].
    - intros _. apply silent_bind; [apply silent_update_status|].
      intros _. apply silent_ret. }
  destruct (Hsilent _ _ _ Hnone Hg) as (Hms & evs & Hlog & Hl).
  destruct (run_cleanup_spec filepath wg) as (wc & Hc & Hmc & _ & Hlc).
  rewrite Hc in Hrun. injection Hrun as _ <-.
  split; [congruence|].
  exists (evs ++ cleanup_events filepath (files wg))%list.
  rewrite Hlc, Hlog, <- app_assoc, labels_app, Hl. split; [done|].
  unfold cleanup_events. by destruct (bool_decide _).
Qed.

End WithoutRow.

(** X19. A run for an identifier that has no row (the meeting was deleted,
    or never created) changes no row and commits no status, not even
    [failed]; yet when the session answers its first call, the speech model
    is still run on the file. *)
Theorem run_without_row (E : env) (mid : Z) (filepath : string) (w : world) :
  get (meetings w) mid = None ->
  meetings (run E mid filepath w).2 = meetings w
  /\ (exists evs, log (run E mid filepath w).2 = (log w ++ evs)%list
        /\ labels evs = []
        /\ (fault E (tick w) = None -> In (ETranscribe filepath) evs)).
Proof.
  intros Hnone.
  destruct (silent_run mid E filepath w _ _ Hnone (surjective_pairing _))
    as (Hms & evs & Hlog & Hl).
  split; [done|]. exists evs. split_and!; [done..|].
  intros Hf.
  assert (exists rest, log (run E mid filepath w).2
                       = ((log w ++ [ETranscribe filepath]) ++ rest)%list)
    as (rest & Hrest).
  { pose proof (run_guarded_keeps_files E mid filepath) as Hk.
    unfold run, try_finally, try_except, run_body.
    unfold bind at 1. rewrite update_status_eq, Hf, Hnone.
    unfold bind at 1. rewrite transcribe_eq.
    cbn [meetings files collection tick log].
    set (w2 := World (meetings w) (files w) (collection w) (S (tick w))
                 (log w ++ [ETranscribe filepath])).
    assert (forall (m : M unit) r1 w1, keeps_files m -> m w2 = (r1, w1) ->
              exists rest, log w1 = (log w2 ++ rest)%list) as Hgrow.
    { intros m r1 w1 Hm H1. destruct (Hm _ _ _ H1) as (_ & rest & ? & _).
      by exists rest. }
    destruct (transcribe_result E filepath) as [T|e].
    - match goal with |- context [bind ?m ?k w2] =>
        destruct (bind m k w2) as [[[]|e1] w3] eqn:H3;
        assert (keeps_files (bind m k)) as Hkeep
      end.
      1,3: repeat first
             [ apply keeps_files_ret
             | apply update_status_keeps_files
             | apply update_transcript_keeps_files
             | apply update_insights_keeps_files
             | apply (appends_keeps_files _ _ analysis_not_cleanup),
                 extract_appends
             | apply (appends_keeps_files _ _ analysis_not_cleanup),
                 add_transcript_appends
             | apply keeps_files_bind
             | intros ? ].
      + destruct (Hgrow _ _ _ Hkeep H3) as (rest & Hw3).
        destruct (run_cleanup_spec filepath w3) as (wc & Hc & _ & _ & Hlc).
        rewrite Hc. cbn [snd]. rewrite Hlc, Hw3, <- app_assoc. eauto.
      + destruct (Hgrow _ _ _ Hkeep H3) as (rest & Hw3).
        destruct (bind (update_status E mid "failed") (fun _ => ret tt) w3)
          as [r4 w4] eqn:H4.
        assert (keeps_files (update_status E mid "failed";; ret tt)) as Hk4.
        { apply keeps_files_bind; [apply update_status_keeps_files|].
          intros _. apply keeps_files_ret. }
        destruct (Hk4 _ _ _ H4) as (_ & rest4 & Hw4 & _).
        destruct (run_cleanup_spec filepath w4) as (wc & Hc & _ & _ & Hlc).
        rewrite Hc. destruct r4; cbn [snd];
          rewrite Hlc, Hw4, Hw3, <- !app_assoc; eauto.
    - destruct (bind (update_status E mid "failed") (fun _ => ret tt) w2)
        as [r4 w4] eqn:H4.
      assert (keeps_files (update_status E mid "failed";; ret tt)) as Hk4.
      { apply keeps_files_bind; [apply update_status_keeps_files|].
        intros _. apply keeps_files_ret. }
      destruct (Hk4 _ _ _ H4) as (_ & rest4 & Hw4 & _).
      destruct (run_cleanup_spec filepath w4) as (wc & Hc & _ & _ & Hlc).
      rewrite Hc. destruct r4; cbn [snd];
        rewrite Hlc, Hw4, <- !app_assoc; eauto. }
  rewrite Hlog, <- app_assoc in Hrest. apply app_inv_head in Hrest.
  rewrite Hrest. by left.
Qed.

(** Meeting 7 has no row in the sample world. *)
Lemma run_without_row_witness :
  meetings (run sample_env 7 "uploads/a.mp3" sample_world).2
  = meetings sample_world
  /\ labels (log (run sample_env 7 "uploads/a.mp3" sample_world).2) = [].
Proof.
  split; [|vm_compute; reflexivity].
  exact (proj1 (run_without_row sample_env 7 "uploads/a.mp3" sample_world
                  eq_refl)).
Defined.

(** ** Keywords that end with a symbol *)

Lemma scan_no_match (p t : list ascii) (fuel pos : nat) :
  (forall i, match_at p t i = false) -> scan fuel p t pos = 0.
Proof.
  intros Hno. revert pos. induction fuel as [|fuel IH]; intros pos; [done|].
  cbn [scan]. destruct (List.length t <? pos); [done|]. by rewrite Hno, IH.
Qed.

(** A match of a keyword that ends with a character that is no word
    character is followed by a word character. *)
Lemma match_at_symbol_end (p' t : list ascii) (c : ascii) (i : nat) :
  is_word c = false ->
  match_at (p' ++ [c]) t i = true ->
  t !! (i + List.length p') = Some c
  /\ word_at t (S (i + List.length p')) = true.
Proof.
  intros Hc. unfold match_at. rewrite length_app. cbn [List.length].
  intros [[_ Hs]%andb_prop Hend]%andb_prop.
  assert (t !! (i + List.length p') = Some c) as Hi.
  { eapply starts_with_lookup; [exact Hs|]. by rewrite list_lookup_middle. }
  split; [done|]. unfold boundary in Hend.
  replace (i + (List.length p' + 1)) with (S (i + List.length p')) in Hend
    by lia.
  unfold word_at at 1 in Hend. rewrite Hi, Hc in Hend.
  by destruct (word_at t (S (i + List.length p'))).
Qed.

(** X20. A keyword whose last character is not a letter, a digit or an
    underscore (as the plus of [C++]) is counted only where a word
    character follows it directly.  In a transcript where that character is
    never followed by a word character, the count of the keyword is zero,
    however often the keyword stands there between blanks or before a stop,
    and the keyword is in no result of the keyword count. *)
Theorem keyword_symbol_end_uncounted (k T : string) (p' : list ascii) (c : ascii) :
  chars (lower k) = (p' ++ [c])%list ->
  is_word c = false ->
  (forall i, chars (lower T) !! i = Some c ->
     word_at (chars (lower T)) (S i) = false) ->
  whole_word_count k T = 0
  /\ forall K fs, _calculate_keyword_frequency (map JStr K) T = Ok fs ->
       forall f, In f fs -> keyword f <> k.
Proof.
  intros Hk Hc Hafter.
  assert (whole_word_count k T = 0) as Hzero.
  { unfold whole_word_count, findall_count. apply scan_no_match. intros i.
    destruct (match_at _ _ i) eqn:Hm; [|done]. rewrite Hk in Hm.
    destruct (match_at_symbol_end _ _ _ _ Hc Hm) as (Hi & Hw).
    by rewrite (Hafter _ Hi) in Hw. }
  split; [done|]. intros K fs.
  assert (_calculate_keyword_frequency (map JStr K) T
          = Ok (take 7 (sort_desc (occurring_keywords K T)))) as ->.
  { unfold _calculate_keyword_frequency. by rewrite frequencies_strings. }
  intros [= <-] f Hin Hkf.
  assert (In f (occurring_keywords K T)) as Hocc.
  { apply (Permutation_in _ (sort_by_Permutation higher_count _)).
    fold (sort_desc (occurring_keywords K T)).
    rewrite <- (take_drop 7 (sort_desc _)). apply in_or_app. by left. }
  apply occurring_keywords_spec in Hocc as (_ & Hcount & Hpos).
  rewrite Hkf, Hzero in Hcount. lia.
Qed.

(** [C++] in a transcript that names it twice. *)
Lemma keyword_symbol_end_uncounted_witness :
  whole_word_count "C++" "we use C++ daily, yes C++." = 0
  /\ _calculate_keyword_frequency [JStr "C++"; JStr "daily"]
       "we use C++ daily, yes C++."
     = Ok [Frequency "daily" 1].
Proof.
  split; [|vm_compute; reflexivity].
  refine (proj1 (keyword_symbol_end_uncounted "C++" "we use C++ daily, yes C++."
                   ["c"; "+"]%char "+"%char eq_refl eq_refl _)).
  intros i.
  do 26 (destruct i as [|i]; [vm_compute; first [discriminate|reflexivity]|]).
  vm_compute. discriminate.
Defined.

(** ** A recording without speech *)

Lemma split_from_spaces (l : list ascii) :
  Forall (fun c => is_space c = true) l -> split_from [] l = [].
Proof.
  induction 1 as [|c l Hc _ IH]; [done|]. cbn [split_from]. by rewrite Hc.
Qed.

Lemma join_blank_spaces (n : nat) :
  Forall (fun c => is_space c = true) (chars (join " " (replicate n ""))).
Proof.
  induction n as [|n IH]; [constructor|].
  destruct n as [|n]; [constructor|].
  change (join " " (replicate (S (S n)) ""))
    with (String " " (join " " (replicate (S n) ""))).
  unfold chars in *. cbn [list_ascii_of_string]. by constructor.
Qed.

(** X21. A recording in whose segments the speech model finds no speech
    gives a transcript without a word; indexing it sends no request and
    stores nothing.  The run does not fail for that: when the session works
    and the language model answers with an object, it ends under
    [completed]. *)
Theorem no_speech_nothing_indexed (E : env) (filepath : string)
  (segments : list string) :
  split_audio E filepath = Ok segments ->
  (forall s, In s segments -> whisper E s = Ok []) ->
  exists T,
    transcribe_result E filepath = Ok T
    /\ split T = []
    /\ (forall mid w, add_transcript E mid T w = (Ok tt, w))
    /\ (forall mid w,
          status_of w mid = Some "processing" ->
          (forall t, fault E t = None) ->
          (forall w1, exists fields, (extract E T w1).1 = Ok (JObj fields)) ->
          (run E mid filepath w).1 = Ok tt
          /\ status_of (run E mid filepath w).2 mid = Some "completed").
Proof.
  intros Hsplit Hquiet.
  set (T := join " " (replicate (List.length segments) "")).
  assert (transcribe_result E filepath = Ok T) as HT.
  { unfold transcribe_result. rewrite Hsplit. cbn [rbind].
    replace (map (_transcribe_chunk E) segments)
      with (map (@Ok string) (replicate (List.length segments) "")).
    { by rewrite gather_all_ok. }
    clear Hsplit. induction segments as [|s segments IH]; [done|].
    cbn [List.length replicate map]. rewrite IH.
    - unfold _transcribe_chunk. rewrite (Hquiet s) by (by left). done.
    - intros s' Hs'. apply Hquiet. by right. }
  assert (split T = []) as Hwords.
  { unfold split. apply split_from_spaces, join_blank_spaces. }
  exists T. split_and!; [done..| |].
  - intros mid w. by apply add_transcript_no_words.
  - intros mid w Hstart Hfault Hex.
    apply (run_completes E mid Hfault filepath T w Hstart HT Hex).
    intros w1. by rewrite add_transcript_no_words.
Qed.

(** Three segments without speech. *)
Lemma no_speech_nothing_indexed_witness :
  transcribe_result (with_whisper silence sample_env) "uploads/a.mp3" = Ok "  "
  /\ add_transcript (with_whisper silence sample_env) 1 "  " sample_world
     = (Ok tt, sample_world)
  /\ status_of (run (with_whisper silence sample_env) 1 "uploads/a.mp3"
                  sample_world).2 1
     = Some "completed".
Proof.
  destruct (no_speech_nothing_indexed (with_whisper silence sample_env)
              "uploads/a.mp3" ["wav0"; "wav1"; "wav2"] eq_refl
              (fun _ _ => eq_refl)) as (T & HT & _ & Hadd & Hrun).
  assert (T = "  ") as -> by (by injection HT as <-).
  split; [exact HT|]. split; [apply Hadd|].
  apply (Hrun 1%Z sample_world eq_refl (fun _ => eq_refl)).
  intros w1. exists []. by rewrite extract_eq.
Defined.
